(** * SUSHI: the FSH tank (fishing resolver), the type-constraint resolver
      and the export scheduler

    A shallow embedding of [FSHTank] (import/FSHTank.ts), of the [Instance]
    and [Invariant] entities, of the name and id mixins with the FHIR
    [ValueSet] they are applied to, and of the two components that the
    repository only exercises through its tests ([ElementDefinition.constrainType]
    and [StructureDefinitionExporter.export]). *)

From Stdlib Require Import ZArith Lia Ascii.
From stdpp Require Import base option strings list gmap.

Open Scope string_scope.
Open Scope list_scope.

(** ** FSH entities (fshtypes) *)

(** [FshCode]: only [code] is inspected by the tank. *)
Record FshCode := mkFshCode {
  code : string;
  system : option string;
  display : option string
}.

(** The values an [AssignmentRule] can carry.  [rule.value instanceof FshCode]
    is the test [VCode _]; [rule.value === 'Extension'] is [VString "Extension"]. *)
Inductive AssignmentValue :=
| VBoolean (b : bool)
| VNumber (n : Z)
| VString (s : string)
| VCode (c : FshCode)
| VOther (description : string).

(** One entry of [OnlyRule.types]: [{ type, isReference, isCanonical }].  A
    version suffix of the identifier ([Questionnaire|4.0.1]) is kept apart. *)
Record OnlyRuleType := mkOnlyRuleType {
  ort_type : string;
  ort_isReference : bool;
  ort_isCanonical : bool;
  ort_version : option string
}.

(** Rules.  An instance holds [AssignmentRule]s and [InsertRule]s; the other
    constructors are the rule classes that authored structures carry. *)
Inductive Rule :=
| AssignmentRule (path : string) (value : AssignmentValue)
| InsertRule (path : string) (ruleSet : string)
| CaretValueRule (path caretPath : string) (value : AssignmentValue)
| CardRule (path : string) (min : nat) (max : string)
| FlagRule (path : string)
| OnlyRule (path : string) (types : list OnlyRuleType)
| AddElementRule (path : string)
| ContainsRule (path : string).

(** [Profile], [Extension], [Logical] and [Resource] share the fields of
    [FshStructure]; the collection an entity sits in gives its class. *)
Record FshStructure := mkFshStructure {
  sd_name : string;
  sd_id : string;
  sd_parent : option string;
  sd_rules : list Rule
}.

(** [FshValueSet] and [FshCodeSystem]. *)
Record FshTerminology := mkFshTerminology {
  term_name : string;
  term_id : string;
  term_rules : list Rule
}.

(** fshtypes/Instance.ts.  [instanceOf] is declared but not set by the
    constructor, hence an option; [usage] is a string literal type. *)
Record Instance := mkInstance {
  name : string;
  id : string;
  title : option string;
  instanceOf : option string;
  description : option string;
  usage : option string;
  mixins : list string;
  rules : list Rule
}.

(** [new Instance(name)]. *)
Definition Instance_constructor (name : string) : Instance :=
  {| name := name;
     id := name;             (* init same as name *)
     title := None;
     instanceOf := None;
     description := None;
     usage := Some "Example"; (* init to Example (default) *)
     mixins := [];
     rules := [] |}.

(** fshtypes/Invariant.ts: [id] is a read-only getter returning the name. *)
Record Invariant := mkInvariant {
  inv_name : string;
  inv_description : option string;
  inv_expression : option string;
  inv_xpath : option string;
  inv_severity : option FshCode
}.

Definition inv_id (i : Invariant) : string := inv_name i.

Record RuleSet := mkRuleSet {
  rs_name : string;
  rs_rules : list Rule
}.

Record Mapping := mkMapping {
  map_name : string;
  map_id : string;
  map_rules : list Rule
}.

(** What [fish] can return. *)
Inductive Entity :=
| EProfile (p : FshStructure)
| EExtension (e : FshStructure)
| ELogical (l : FshStructure)
| EResource (r : FshStructure)
| EValueSet (vs : FshTerminology)
| ECodeSystem (cs : FshTerminology)
| EInstance (i : Instance)
| EInvariant (i : Invariant)
| ERuleSet (r : RuleSet)
| EMapping (m : Mapping).

(** utils/Fishable: the [Type] enumeration. *)
Inductive FishType :=
| TProfile | TExtension | TLogical | TResource | TValueSet | TCodeSystem
| TInstance | TInvariant | TRuleSet | TMapping | TType.

#[global] Instance FishType_eq_dec : EqDecision FishType.
Proof. solve_decision. Defined.

Definition FishType_to_nat (k : FishType) : nat :=
  match k with
  | TProfile => 0 | TExtension => 1 | TLogical => 2 | TResource => 3
  | TValueSet => 4 | TCodeSystem => 5 | TInstance => 6 | TInvariant => 7
  | TRuleSet => 8 | TMapping => 9 | TType => 10
  end.

Definition FishType_of_nat (n : nat) : FishType :=
  match n with
  | 0 => TProfile | 1 => TExtension | 2 => TLogical | 3 => TResource
  | 4 => TValueSet | 5 => TCodeSystem | 6 => TInstance | 7 => TInvariant
  | 8 => TRuleSet | 9 => TMapping | _ => TType
  end.

#[global] Instance FishType_countable : Countable FishType.
Proof. refine (inj_countable' FishType_to_nat FishType_of_nat _). by intros []. Defined.

(** ** Documents and the tank *)

(** A JavaScript [Map] iterates in insertion order: its entries are kept as
    a list of key/value pairs and [values()] is the list of second
    components.  Only [get] is used on [aliases], which is a finite map. *)
Definition JsMap (V : Type) : Type := list (string * V).

Definition values {V} (m : JsMap V) : list V := map snd m.

Record FSHDocument := mkFSHDocument {
  file : string;
  aliases : gmap string string;
  profiles : JsMap FshStructure;
  extensions : JsMap FshStructure;
  logicals : JsMap FshStructure;
  resources : JsMap FshStructure;
  instances : JsMap Instance;
  valueSets : JsMap FshTerminology;
  codeSystems : JsMap FshTerminology;
  invariants : JsMap Invariant;
  ruleSets : JsMap RuleSet;
  mappings : JsMap Mapping;
  appliedRuleSets : gmap string RuleSet
}.

Record Configuration := mkConfiguration {
  canonical : string
}.

Record FSHTank := mkFSHTank {
  docs : list FSHDocument;
  config : Configuration
}.

(** lodash [flatMap]. *)
Definition flatMap {A B} (l : list A) (f : A -> list B) : list B :=
  concat (map f l).

Definition getAllProfiles (t : FSHTank) : list FshStructure :=
  flatMap (docs t) (fun doc => values (profiles doc)).
Definition getAllExtensions (t : FSHTank) : list FshStructure :=
  flatMap (docs t) (fun doc => values (extensions doc)).
Definition getAllLogicals (t : FSHTank) : list FshStructure :=
  flatMap (docs t) (fun doc => values (logicals doc)).
Definition getAllResources (t : FSHTank) : list FshStructure :=
  flatMap (docs t) (fun doc => values (resources doc)).
Definition getAllInstances (t : FSHTank) : list Instance :=
  flatMap (docs t) (fun doc => values (instances doc)).
Definition getAllValueSets (t : FSHTank) : list FshTerminology :=
  flatMap (docs t) (fun doc => values (valueSets doc)).
Definition getAllCodeSystems (t : FSHTank) : list FshTerminology :=
  flatMap (docs t) (fun doc => values (codeSystems doc)).
Definition getAllInvariants (t : FSHTank) : list Invariant :=
  flatMap (docs t) (fun doc => values (invariants doc)).
Definition getAllRuleSets (t : FSHTank) : list RuleSet :=
  flatMap (docs t) (fun doc => values (ruleSets doc)).
Definition getAllMappings (t : FSHTank) : list Mapping :=
  flatMap (docs t) (fun doc => values (mappings doc)).

(** The four structure classes with the class each entity belongs to. *)
Definition getAllStructureDefinitions (t : FSHTank) : list Entity :=
  map EProfile (getAllProfiles t) ++ map EExtension (getAllExtensions t)
  ++ map ELogical (getAllLogicals t) ++ map EResource (getAllResources t).

(** JavaScript truthiness of a string: the empty string is falsy. *)
Definition truthy (s : string) : bool := negb (s =? "").

(** [resolveAlias]: the loop over [this.docs]; [None] is [undefined]. *)
Fixpoint resolveAlias_docs (ds : list FSHDocument) (name : string) : option string :=
  match ds with
  | [] => None
  | doc :: rest =>
      match aliases doc !! name with
      | Some foundAlias =>
          if truthy foundAlias then Some foundAlias else resolveAlias_docs rest name
      | None => resolveAlias_docs rest name
      end
  end.

Definition resolveAlias (t : FSHTank) (name : string) : option string :=
  resolveAlias_docs (docs t) name.

(** [fishForAppliedRuleSet]: a [RuleSet] object is always truthy. *)
Fixpoint fishForAppliedRuleSet_docs (ds : list FSHDocument) (item : string) : option RuleSet :=
  match ds with
  | [] => None
  | doc :: rest =>
      match appliedRuleSets doc !! item with
      | Some ruleSet => Some ruleSet
      | None => fishForAppliedRuleSet_docs rest item
      end
  end.

Definition fishForAppliedRuleSet (t : FSHTank) (item : string) : option RuleSet :=
  fishForAppliedRuleSet_docs (docs t) item.

Definition entity_name (e : Entity) : string :=
  match e with
  | EProfile s | EExtension s | ELogical s | EResource s => sd_name s
  | EValueSet v | ECodeSystem v => term_name v
  | EInstance i => name i
  | EInvariant i => inv_name i
  | ERuleSet r => rs_name r
  | EMapping m => map_name m
  end.

Definition entity_id (e : Entity) : string :=
  match e with
  | EProfile s | EExtension s | ELogical s | EResource s => sd_id s
  | EValueSet v | ECodeSystem v => term_id v
  | EInstance i => id i
  | EInvariant i => inv_id i
  | ERuleSet r => rs_name r
  | EMapping m => map_id m
  end.

(** The fixed order used when [fish] is called without types. *)
Definition allTypes : list FishType :=
  [TProfile; TExtension; TLogical; TResource; TValueSet; TCodeSystem;
   TInstance; TInvariant; TRuleSet; TMapping].

(** The rule tests of the masquerading searches. *)
Definition assignsCode (path code' : string) (r : Rule) : bool :=
  match r with
  | AssignmentRule p (VCode c) => (p =? path) && (code c =? code')
  | _ => false
  end.

Definition assignsString (path s : string) (r : Rule) : bool :=
  match r with
  | AssignmentRule p (VString v) => (p =? path) && (v =? s)
  | _ => false
  end.

(** [Array.prototype.some]. *)
Definition some {A} (f : A -> bool) (l : list A) : bool := existsb f l.

Section Fishing.

(** [getUrlFromFshDefinition] (fhirtypes/common) is imported by the tank;
    the tank is embedded over any such function. *)
Variable getUrlFromFshDefinition : Entity -> string -> string.

Variable tank : FSHTank.

(** [x.name === item || x.id === item || getUrlFromFshDefinition(x, canonical) === item] *)
Definition matchesNameIdUrl (item : string) (e : Entity) : bool :=
  (entity_name e =? item) || (entity_id e =? item)
  || (getUrlFromFshDefinition e (canonical (config tank)) =? item).

Definition isDefinitionOf (type : string) (i : Instance) : bool :=
  bool_decide (instanceOf i = Some type) && bool_decide (usage i = Some "Definition").

Definition profileInstance (item : string) (i : Instance) : bool :=
  isDefinitionOf "StructureDefinition" i
  && matchesNameIdUrl item (EInstance i)
  && some (assignsCode "derivation" "constraint") (rules i)
  && negb (some (assignsString "type" "Extension") (rules i)).

Definition extensionInstance (item : string) (i : Instance) : bool :=
  isDefinitionOf "StructureDefinition" i
  && matchesNameIdUrl item (EInstance i)
  && some (assignsCode "derivation" "constraint") (rules i)
  && some (assignsString "type" "Extension") (rules i).

Definition logicalInstance (item : string) (i : Instance) : bool :=
  isDefinitionOf "StructureDefinition" i
  && matchesNameIdUrl item (EInstance i)
  && some (assignsCode "derivation" "specialization") (rules i)
  && some (assignsCode "kind" "logical") (rules i).

Definition resourceInstance (item : string) (i : Instance) : bool :=
  isDefinitionOf "StructureDefinition" i
  && matchesNameIdUrl item (EInstance i)
  && some (assignsCode "derivation" "specialization") (rules i)
  && some (assignsCode "kind" "resource") (rules i).

Definition vsInstance (item : string) (i : Instance) : bool :=
  isDefinitionOf "ValueSet" i && matchesNameIdUrl item (EInstance i).

Definition csInstance (item : string) (i : Instance) : bool :=
  isDefinitionOf "CodeSystem" i && matchesNameIdUrl item (EInstance i).

(** [result = direct.find(..); if (!result) result = getAllInstances().find(..)] *)
Definition orInstance (direct : option Entity) (p : Instance -> bool) : option Entity :=
  match direct with
  | Some r => Some r
  | None => EInstance <$> find p (getAllInstances tank)
  end.

(** One turn of the [switch (t)] inside the loop of [fish]. *)
Definition fishCase (item : string) (t : FishType) : option Entity :=
  match t with
  | TProfile =>
      orInstance (EProfile <$> find (fun p => matchesNameIdUrl item (EProfile p)) (getAllProfiles tank))
                 (profileInstance item)
  | TExtension =>
      orInstance (EExtension <$> find (fun e => matchesNameIdUrl item (EExtension e)) (getAllExtensions tank))
                 (extensionInstance item)
  | TLogical =>
      orInstance (ELogical <$> find (fun l => matchesNameIdUrl item (ELogical l)) (getAllLogicals tank))
                 (logicalInstance item)
  | TResource =>
      orInstance (EResource <$> find (fun r => matchesNameIdUrl item (EResource r)) (getAllResources tank))
                 (resourceInstance item)
  | TValueSet =>
      orInstance (EValueSet <$> find (fun vs => matchesNameIdUrl item (EValueSet vs)) (getAllValueSets tank))
                 (vsInstance item)
  | TCodeSystem =>
      orInstance (ECodeSystem <$> find (fun cs => matchesNameIdUrl item (ECodeSystem cs)) (getAllCodeSystems tank))
                 (csInstance item)
  | TInstance =>
      EInstance <$> find (fun i => (name i =? item) || (id i =? item)) (getAllInstances tank)
  | TInvariant =>
      EInvariant <$> find (fun i => inv_name i =? item) (getAllInvariants tank)
  | TRuleSet =>
      ERuleSet <$> find (fun r => rs_name r =? item) (getAllRuleSets tank)
  | TMapping =>
      EMapping <$> find (fun m => map_name m =? item) (getAllMappings tank)
  | TType => None (* Tank doesn't support these types *)
  end.

(** [for (const t of types) { ...; if (result != null) return result; }] *)
Fixpoint fishLoop (item : string) (types : list FishType) : option Entity :=
  match types with
  | [] => None
  | t :: rest =>
      match fishCase item t with
      | Some result => Some result
      | None => fishLoop item rest
      end
  end.

Definition fish (item : string) (types : list FishType) : option Entity :=
  (* Resolve alias if necessary *)
  let item := default item (resolveAlias tank item) in
  (* No types passed in means to search ALL supported types *)
  let types := if decide (length types = 0) then allTypes else types in
  fishLoop item types.

End Fishing.

(** Modelled from the spec: [getUrlFromFshDefinition] (fhirtypes/common) is
    not among the sources.  The canonical URL of an entity is "computed as
    base-url + id": the configured base followed by the entity's id. *)
Definition getUrlFromFshDefinition_spec (e : Entity) (canonical : string) : string :=
  canonical +:+ entity_id e.

(** The direct entities of one kind, in tank order. *)
Definition directEntities (t : FSHTank) (k : FishType) : list Entity :=
  match k with
  | TProfile => map EProfile (getAllProfiles t)
  | TExtension => map EExtension (getAllExtensions t)
  | TLogical => map ELogical (getAllLogicals t)
  | TResource => map EResource (getAllResources t)
  | TValueSet => map EValueSet (getAllValueSets t)
  | TCodeSystem => map ECodeSystem (getAllCodeSystems t)
  | TInstance => map EInstance (getAllInstances t)
  | TInvariant => map EInvariant (getAllInvariants t)
  | TRuleSet => map ERuleSet (getAllRuleSets t)
  | TMapping => map EMapping (getAllMappings t)
  | TType => []
  end.

(** The kinds under which a definitional [Instance] can be found. *)
Definition masqueradeTypes : list FishType :=
  [TProfile; TExtension; TLogical; TResource; TValueSet; TCodeSystem].

(** The keys by which the direct search of each kind compares an entity
    with the item, read off the [find] callbacks of [fish]. *)
Definition directKey (getUrl : Entity -> string -> string) (t : FSHTank)
    (k : FishType) (e : Entity) (item : string) : Prop :=
  match k with
  | TProfile | TExtension | TLogical | TResource | TValueSet | TCodeSystem =>
      entity_name e = item ∨ entity_id e = item ∨ getUrl e (canonical (config t)) = item
  | TInstance => entity_name e = item ∨ entity_id e = item
  | TInvariant | TRuleSet | TMapping => entity_name e = item
  | TType => False
  end.

(** The same keys as executed by [fish]. *)
Definition directKeyb (getUrl : Entity -> string -> string) (t : FSHTank)
    (k : FishType) (e : Entity) (item : string) : bool :=
  match k with
  | TProfile | TExtension | TLogical | TResource | TValueSet | TCodeSystem =>
      matchesNameIdUrl getUrl t item e
  | TInstance => (entity_name e =? item) || (entity_id e =? item)
  | TInvariant | TRuleSet | TMapping => entity_name e =? item
  | TType => false
  end.

(** The two halves of one [case] of [fish]: the search among the direct
    entities of the kind, and the test applied to instances afterwards. *)
Definition directSearch (getUrl : Entity -> string -> string) (t : FSHTank)
    (item : string) (k : FishType) : option Entity :=
  find (fun e => directKeyb getUrl t k e item) (directEntities t k).

Definition masquerade (getUrl : Entity -> string -> string) (t : FSHTank)
    (item : string) (k : FishType) : option (Instance -> bool) :=
  match k with
  | TProfile => Some (profileInstance getUrl t item)
  | TExtension => Some (extensionInstance getUrl t item)
  | TLogical => Some (logicalInstance getUrl t item)
  | TResource => Some (resourceInstance getUrl t item)
  | TValueSet => Some (vsInstance getUrl t item)
  | TCodeSystem => Some (csInstance getUrl t item)
  | _ => None
  end.

(** [resolveAlias] as the specification words it: the value in the first
    document whose alias table contains the name, else the name itself. *)
Definition resolveAlias_stated (t : FSHTank) (name : string) : string :=
  match find (fun doc => bool_decide (is_Some (aliases doc !! name))) (docs t) with
  | Some doc => default name (aliases doc !! name)
  | None => name
  end.

(** An instance that stands for a resource, as the specification words it:
    an instance of the generic structure-definition type, used as a
    definition, with a rule assigning [derivation = #specialization] and a
    rule assigning [kind = #resource]. *)
Definition assignsCodeIn (path code' : string) (i : Instance) : Prop :=
  ∃ c, AssignmentRule path (VCode c) ∈ rules i ∧ code c = code'.

Definition definesResource (i : Instance) : Prop :=
  instanceOf i = Some "StructureDefinition"
  ∧ usage i = Some "Definition"
  ∧ assignsCodeIn "derivation" "specialization" i
  ∧ assignsCodeIn "kind" "resource" i.

(** [new FSHTank([...tank.docs, doc], tank.config)]: the tank with one more
    document at the end. *)
Definition withDocument (t : FSHTank) (doc : FSHDocument) : FSHTank :=
  {| docs := docs t ++ [doc]; config := config t |}.

(** The structure definitions of one document, kind by kind. *)
Definition structuresOf (doc : FSHDocument) : list Entity :=
  map EProfile (values (profiles doc)) ++ map EExtension (values (extensions doc))
  ++ map ELogical (values (logicals doc)) ++ map EResource (values (resources doc)).

(** ** Metadata of fished entities *)

(** utils/Fishable [Metadata], with the fields that the tank fills in. *)
Record Metadata := mkMetadata {
  meta_id : string;
  meta_name : string;
  meta_sdType : option string;
  meta_resourceType : option string;
  meta_url : option string;
  meta_parent : option string;
  meta_instanceUsage : option string
}.

Definition HL7_URL : string := "http://hl7.org/fhir/StructureDefinition/".

(** [String.prototype.startsWith]. *)
Definition startsWith (s searchString : string) : bool := String.prefix searchString s.

(** [s.slice(start)]: the string without its first [start] characters. *)
Fixpoint sliceFrom (s : string) (start : nat) : string :=
  match start, s with
  | 0, _ => s
  | S n, String _ rest => sliceFrom rest n
  | S _, EmptyString => EmptyString
  end.

(** [r.path === 'url' && r instanceof AssignmentRule && typeof r.value === 'string'] *)
Definition assignsUrl (r : Rule) : option string :=
  match r with
  | AssignmentRule p (VString v) => if p =? "url" then Some v else None
  | _ => None
  end.

(** The [forEach] over the rules of an instance: every matching rule
    overwrites [meta.url], so the last one stays. *)
Definition assignedUrl (rs : list Rule) : option string :=
  fold_left (fun url r => match assignsUrl r with Some v => Some v | None => url end)
            rs None.

Section FishingForMetadata.

Variable getUrlFromFshDefinition : Entity -> string -> string.

(** [applyInsertRules] (fhirtypes/common) expands the insert rules of the
    instance it is given, in place; the embedding takes the instance as it is
    after the call. *)
Variable applyInsertRules : Instance -> FSHTank -> Instance.

Variable tank : FSHTank.

Definition structureMetadata (result : Entity) (s : FshStructure) : Metadata :=
  {| meta_id := entity_id result;
     meta_name := entity_name result;
     meta_sdType := None;
     meta_resourceType := Some "StructureDefinition";
     meta_url := Some (getUrlFromFshDefinition result (canonical (config tank)));
     meta_parent := sd_parent s;
     meta_instanceUsage := None |}.

Definition terminologyMetadata (result : Entity) (resourceType : string) : Metadata :=
  {| meta_id := entity_id result;
     meta_name := entity_name result;
     meta_sdType := None;
     meta_resourceType := Some resourceType;
     meta_url := Some (getUrlFromFshDefinition result (canonical (config tank)));
     meta_parent := None;
     meta_instanceUsage := None |}.

Definition fishForMetadata (item : string) (types : list FishType) : option Metadata :=
  match fish getUrlFromFshDefinition tank item types with
  | Some result =>
      Some
        match result with
        | EProfile s | EExtension s | EResource s => structureMetadata result s
        | ELogical s =>
            let url := getUrlFromFshDefinition result (canonical (config tank)) in
            {| meta_id := entity_id result;
               meta_name := entity_name result;
               (* relative to HL7_URL when HL7 published the model, else absolute *)
               meta_sdType :=
                 Some (if startsWith url HL7_URL
                       then sliceFrom url (String.length HL7_URL) else url);
               meta_resourceType := Some "StructureDefinition";
               meta_url := Some url;
               meta_parent := sd_parent s;
               meta_instanceUsage := None |}
        | EValueSet _ => terminologyMetadata result "ValueSet"
        | ECodeSystem _ => terminologyMetadata result "CodeSystem"
        | EInstance i =>
            (* the url may be added in a RuleSet, so apply insert rules *)
            let expanded := applyInsertRules i tank in
            {| meta_id := entity_id result;
               meta_name := entity_name result;
               meta_sdType := None;
               meta_resourceType := None;
               meta_url := assignedUrl (rules expanded);
               meta_parent := None;
               meta_instanceUsage := usage expanded |}
        | EInvariant _ | ERuleSet _ | EMapping _ =>
            {| meta_id := entity_id result;
               meta_name := entity_name result;
               meta_sdType := None;
               meta_resourceType := None;
               meta_url := None;
               meta_parent := None;
               meta_instanceUsage := None |}
        end
  | None => None
  end.

(** [fishForFHIR]: the tank cannot return FHIR definitions. *)
Definition fishForFHIR (item : string) (types : list FishType) : option Entity := None.

End FishingForMetadata.

(** ** JavaScript strings and patterns

    Strings are sequences of characters below 256; the patterns of the
    mixins accept characters below 128 only. *)

Definition charBetween (lo hi : nat) (c : ascii) : bool :=
  Nat.leb lo (nat_of_ascii c) && Nat.leb (nat_of_ascii c) hi.

(** [A-Z], [a-z], [0-9] *)
Definition isUpper (c : ascii) : bool := charBetween 65 90 c.
Definition isLower (c : ascii) : bool := charBetween 97 122 c.
Definition isDigit (c : ascii) : bool := charBetween 48 57 c.

Definition underscore : ascii := "095"%char.
Definition hyphen : ascii := "045"%char.
Definition newline : ascii := "010"%char.
Definition quote : string := String "034"%char EmptyString.

(** [A-Za-z0-9_] *)
Definition isNameChar (c : ascii) : bool :=
  isUpper c || isLower c || isDigit c || Ascii.eqb c underscore.

(** [nameRegex.test]: [/^[A-Z]([A-Za-z0-9_]){0,254}$/] *)
Definition nameRegex (s : string) : bool :=
  match s with
  | EmptyString => false
  | String c rest =>
      isUpper c && forallb isNameChar (String.list_ascii_of_string rest)
      && Nat.leb (String.length rest) 254
  end.

(** The ids that the error message of [validateId] describes: letters,
    numerals, '-' and '.', with a length limit of 64 characters. *)
Definition isIdChar (c : ascii) : bool :=
  isUpper c || isLower c || isDigit c || Ascii.eqb c hyphen || Ascii.eqb c "046"%char.

Definition describedId (s : string) : bool :=
  Nat.leb 1 (String.length s) && Nat.leb (String.length s) 64
  && forallb isIdChar (String.list_ascii_of_string s).

(** [s.replace(/c/g, d)] for single characters [c] and [d]. *)
Fixpoint replaceAll (s : string) (c d : ascii) : string :=
  match s with
  | EmptyString => EmptyString
  | String x rest => String (if Ascii.eqb x c then d else x) (replaceAll rest c d)
  end.

(** [s.slice(start, stop)] for indices that are not negative. *)
Definition slice (s : string) (start stop : nat) : string :=
  String.substring start (stop - start) s.

(** [s.indexOf(c) > -1] *)
Definition contains (s : string) (c : ascii) : bool :=
  existsb (Ascii.eqb c) (String.list_ascii_of_string s).

(** [toLowerCase] on the letters A to Z. *)
Definition toLowerCase (s : string) : string :=
  String.string_of_list_ascii
    (map (fun c => if isUpper c then ascii_of_nat (nat_of_ascii c + 32) else c)
         (String.list_ascii_of_string s)).

(** A value that may be [undefined], as a template literal or [RegExp.test]
    reads it. *)
Definition orUndefined (s : option string) : string := default "undefined" s.

(** [if (s) lines.push(line(s))] for an optional string [s]. *)
Definition whenTruthy (s : option string) (line : string -> string) : list string :=
  match s with
  | Some v => if truthy v then [line v] else []
  | None => []
  end.

(** ** The name and id mixins (fhirtypes/mixins.ts) *)

(** The argument of [setName] and [setId]:
    [FshStructure | FshCodeSystem | FshValueSet]. *)
Inductive FshDefinition :=
| DStructure (s : FshStructure)
| DCodeSystem (cs : FshTerminology)
| DValueSet (vs : FshTerminology).

Definition def_name (d : FshDefinition) : string :=
  match d with
  | DStructure s => sd_name s
  | DCodeSystem t | DValueSet t => term_name t
  end.

Definition def_id (d : FshDefinition) : string :=
  match d with
  | DStructure s => sd_id s
  | DCodeSystem t | DValueSet t => term_id t
  end.

Definition def_rules (d : FshDefinition) : list Rule :=
  match d with
  | DStructure s => sd_rules s
  | DCodeSystem t | DValueSet t => term_rules t
  end.

(** What the logger receives: the level and the message.  The source
    location passed along with it is not part of the model. *)
Inductive LogLevel := LWarn | LError.

Record LogEntry := mkLogEntry {
  log_level : LogLevel;
  log_message : string
}.

Definition isError (e : LogEntry) : bool :=
  match log_level e with
  | LError => true
  | LWarn => false
  end.

(** lodash [findLast]. *)
Definition findLast {A} (l : list A) (f : A -> bool) : option A := find f (rev l).

(** [rule instanceof CaretValueRule && rule.caretPath === caretPath && rule.path === ''] *)
Definition isCaretRuleFor (caretPath : string) (r : Rule) : bool :=
  match r with
  | CaretValueRule p cp _ => (cp =? caretPath) && (p =? "")
  | _ => false
  end.

Definition caretValue (r : Rule) : option AssignmentValue :=
  match r with
  | CaretValueRule _ _ v => Some v
  | _ => None
  end.

(** The objects that the mixins are applied to: they carry a [name], or an
    [id], that can be read and assigned. *)
Class HasName (T : Type) := {
  getName : T -> option string;
  putName : T -> string -> T;
  getName_putName : forall t v, getName (putName t v) = Some v
}.

Class HasId (T : Type) := {
  getId : T -> option string;
  putId : T -> string -> T;
  getId_putId : forall t v, getId (putId t v) = Some v
}.

Definition nameWarning (nameToCheck : string) : LogEntry :=
  {| log_level := LWarn;
     log_message :=
       "The name " +:+ quote +:+ nameToCheck +:+ quote +:+
       " may not be suitable for machine processing applications such as code generation. Valid names start with an " +:+
       "upper-case ASCII letter ('A'..'Z') followed by any combination of upper- or lower-case ASCII letters ('A'..'Z', and " +:+
       "'a'..'z'), numerals ('0'..'9') and '_', with a length limit of 255 characters." |}.

Definition sanitizedWarning (id sanitizedId : string) : LogEntry :=
  {| log_level := LWarn;
     log_message :=
       "The string " +:+ quote +:+ id +:+ quote +:+
       " represents a valid FHIR name but not a valid FHIR id. FHIR ids cannot contain " +:+
       quote +:+ "_" +:+ quote +:+
       " and can be at most 64 characters. The id will be exported as " +:+
       quote +:+ sanitizedId +:+ quote +:+
       ". Avoid this warning by specifying a valid id directly using the " +:+
       quote +:+ "Id" +:+ quote +:+ " keyword." |}.

Definition idError (idToCheck : string) : LogEntry :=
  {| log_level := LError;
     log_message :=
       "The string " +:+ quote +:+ idToCheck +:+ quote +:+
       " does not represent a valid FHIR id. FHIR ids may contain any combination of upper- or lower-case ASCII letters ('A'..'Z', and 'a'..'z'), numerals ('0'..'9'), '-' and '.', with a length limit of 64 characters." |}.

Section Mixins.

(** [idRegex] is imported from fhirtypes/primitiveTypes; the mixins are
    embedded over its [test]. *)
Variable idRegex : string -> bool.

(** How JavaScript turns a rule value that is not a string into one. *)
Variable toString : AssignmentValue -> string.

(** [rule.value as string], as a pattern or a template literal reads it. *)
Definition asString (v : AssignmentValue) : string :=
  match v with
  | VString s => s
  | _ => toString v
  end.

(** The value of the last rule [^caretPath] on the definition itself. *)
Definition lastCaretValue (fshDefinition : FshDefinition) (caretPath : string)
    : option AssignmentValue :=
  findLast (def_rules fshDefinition) (isCaretRuleFor caretPath) ≫= caretValue.

Definition setName {T} `{HasName T} (this : T) (fshDefinition : FshDefinition)
    : T * list LogEntry :=
  let this := putName this (def_name fshDefinition) in
  let nameRule := lastCaretValue fshDefinition "name" in
  let nameToCheck :=
    match nameRule with
    | Some value => asString value
    | None => orUndefined (getName this)
    end in
  (this, if nameRegex nameToCheck then [] else [nameWarning nameToCheck]).

(** [this.id.replace(/_/g, '-').slice(0, 64)] *)
Definition sanitize (id : string) : string :=
  slice (replaceAll id underscore hyphen) 0 64.

Definition validateId {T} `{HasId T} (this : T) (fshDefinition : FshDefinition)
    : T * list LogEntry :=
  let idRule := lastCaretValue fshDefinition "id" in
  let idToCheck :=
    match idRule with
    | Some value => asString value
    | None => orUndefined (getId this)
    end in
  let validId := idRegex idToCheck in
  let '(this', validId', warnings) :=
    if negb validId && negb (bool_decide (is_Some idRule))
       && nameRegex (orUndefined (getId this))
    then
      (* A valid name can be turned into a valid id by replacing _ with -
         and slicing to 64 character limit *)
      let sanitizedId := sanitize (orUndefined (getId this)) in
      if idRegex sanitizedId
      then
        (* Use the sanitized id, but warn the user to fix this *)
        (putId this sanitizedId, true,
         [sanitizedWarning (orUndefined (getId this)) sanitizedId])
      else (this, validId, [])
    else (this, validId, []) in
  (this', warnings ++ if validId' then [] else [idError idToCheck]).

Definition setId {T} `{HasId T} (this : T) (fshDefinition : FshDefinition)
    : T * list LogEntry :=
  validateId (putId this (def_id fshDefinition)) fshDefinition.

End Mixins.

(** ** The FHIR ValueSet (fhirtypes/ValueSet.ts) *)

(** The fields of primitive type; the structured ones ([meta], [text],
    [compose], ...) play no part in the methods. *)
Record ValueSet := mkValueSet {
  vs_id : option string;       (* provided by HasId mixin *)
  vs_name : option string;     (* provided by HasName mixin *)
  vs_url : option string;
  vs_version : option string;
  vs_title : option string;
  vs_status : string;
  vs_description : option string
}.

(** [new ValueSet()] *)
Definition ValueSet_constructor : ValueSet :=
  {| vs_id := None; vs_name := None; vs_url := None; vs_version := None;
     vs_title := None; vs_status := "active"; vs_description := None |}.

#[global] Instance ValueSet_HasName : HasName ValueSet.
Proof.
  refine {| getName := vs_name;
            putName := fun vs v =>
              {| vs_id := vs_id vs; vs_name := Some v; vs_url := vs_url vs;
                 vs_version := vs_version vs; vs_title := vs_title vs;
                 vs_status := vs_status vs; vs_description := vs_description vs |} |}.
  reflexivity.
Defined.

#[global] Instance ValueSet_HasId : HasId ValueSet.
Proof.
  refine {| getId := vs_id;
            putId := fun vs v =>
              {| vs_id := Some v; vs_name := vs_name vs; vs_url := vs_url vs;
                 vs_version := vs_version vs; vs_title := vs_title vs;
                 vs_status := vs_status vs; vs_description := vs_description vs |} |}.
  reflexivity.
Defined.

(** Get the file name for serializing to disk. *)
Definition getFileName (vs : ValueSet) : string :=
  "ValueSet-" +:+ orUndefined (vs_id vs) +:+ ".json".

(** ** FSH text of an instance (fshtypes/Instance.ts) *)

Section InstanceToFSH.

(** [fshifyString] (fshtypes/common), [EOL] (os) and the [toFSH] of the
    rule classes are imported. *)
Variable fshifyString : string -> string.
Variable EOL : string.
Variable ruleToFSH : Rule -> string.

Definition Instance_metadataLines (i : Instance) : list string :=
  ["Instance: " +:+ name i; "InstanceOf: " +:+ orUndefined (instanceOf i)]
  ++ whenTruthy (title i) (fun title =>
       "Title: " +:+ quote +:+ fshifyString title +:+ quote)
  ++ whenTruthy (description i) (fun description =>
       (* Description can be a multiline string. *)
       if contains description newline
       then "Description: " +:+ quote +:+ quote +:+ quote +:+ description
            +:+ quote +:+ quote +:+ quote
       else "Description: " +:+ quote +:+ fshifyString description +:+ quote)
  ++ whenTruthy (usage i) (fun usage => "Usage: #" +:+ toLowerCase usage).

Definition Instance_metadataToFSH (i : Instance) : string :=
  String.concat EOL (Instance_metadataLines i).

Definition Instance_toFSH (i : Instance) : string :=
  let metadataFSH := Instance_metadataToFSH i in
  let rulesFSH := String.concat EOL (map ruleToFSH (rules i)) in
  metadataFSH +:+ (if Nat.eqb (String.length rulesFSH) 0 then "" else EOL +:+ rulesFSH).

End InstanceToFSH.

(** ** The type hierarchy oracle and element type slots *)

(** What the oracle returns for an identifier:
    [{code, url, parentUrl, isAbstract, kind}]. *)
Record TypeRecord := mkTypeRecord {
  tr_code : string;
  tr_url : string;
  tr_parentUrl : option string;
  tr_isAbstract : bool;
  tr_kind : string
}.

(** One entry of an element's allowed-type list ([ElementDefinitionType]):
    a type code, profile URLs for direct value types, target URLs for
    reference- and canonical-shaped types, and a version marker. *)
Record ElementDefinitionType := mkElementDefinitionType {
  slot_code : string;
  slot_profile : list string;
  slot_targetProfile : list string;
  slot_versioning : option string
}.

#[global] Instance ElementDefinitionType_eq_dec : EqDecision ElementDefinitionType.
Proof. solve_decision. Defined.

Record ElementDefinition := mkElementDefinition {
  el_path : string;
  el_type : list ElementDefinitionType
}.

Inductive ConstrainError :=
| TypeNotFound (identifier : string)
| InvalidType (identifier : string)
| InvalidTarget (target : string)
| NonAbstractParent (parent child : string).

Inductive Shape := ValueShape | ReferenceShape | CanonicalShape.

(** How a requested type stands to a slot. *)
Inductive Relation :=
| NotAncestor
| SameOrProfile
| SpecializationOf (abstract : bool).

Definition requestShape (q : OnlyRuleType) : Shape :=
  if ort_isReference q then ReferenceShape
  else if ort_isCanonical q then CanonicalShape
  else ValueShape.

(** A request flagged reference binds to a [Reference] slot, one flagged
    canonical to a [canonical] slot; a plain request is compared with the
    code of any slot. *)
Definition exactShape (sh : Shape) (s : ElementDefinitionType) : bool :=
  match sh with
  | ValueShape => true
  | ReferenceShape => slot_code s =? "Reference"
  | CanonicalShape => slot_code s =? "canonical"
  end.

(** A [CodeableReference] slot is only partially compatible with a
    reference request. *)
Definition partialShape (sh : Shape) (s : ElementDefinitionType) : bool :=
  match sh with
  | ReferenceShape => slot_code s =? "CodeableReference"
  | _ => false
  end.

Definition compatibleShape (sh : Shape) (s : ElementDefinitionType) : bool :=
  exactShape sh s || partialShape sh s.

(** The URL written into a target or profile list, with its version. *)
Definition versionedUrl (q : OnlyRuleType) (r : TypeRecord) : string :=
  match ort_version q with
  | Some v => tr_url r +:+ "|" +:+ v
  | None => tr_url r
  end.

(** Requests gathered by the key they were assigned, in the order in
    which each key first occurs. *)
Fixpoint addToGroup {K X} `{EqDecision K} (k : K) (x : X)
    (groups : list (K * list X)) : list (K * list X) :=
  match groups with
  | [] => [(k, [x])]
  | (k', xs) :: rest =>
      if decide (k = k') then (k', xs ++ [x]) :: rest
      else (k', xs) :: addToGroup k x rest
  end.

Definition groupByKey {K X} `{EqDecision K} (l : list (K * X)) : list (K * list X) :=
  foldl (fun groups kx => addToGroup kx.1 kx.2 groups) [] l.

(** In a target list, the addressed target gives way to the new ones. *)
Definition replaceTarget (t : string) (news targets : list string) : list string :=
  flat_map (fun u => if u =? t then news else [u]) targets.

(** The resolver is a procedure on the element it constrains: a computation
    is run on the element, reads and writes it, and may throw; a throw leaves
    the element as it stands at that point. *)
Definition Resolver (A : Type) : Type :=
  ElementDefinition -> (ConstrainError + A) * ElementDefinition.

Definition ret {A} (x : A) : Resolver A := fun el => (inr x, el).

Definition bind {A B} (m : Resolver A) (f : A -> Resolver B) : Resolver B :=
  fun el =>
    match m el with
    | (inl e, el') => (inl e, el')
    | (inr x, el') => f x el'
    end.

Definition throw {A} (e : ConstrainError) : Resolver A := fun el => (inl e, el).

(** [this.type], read and assigned. *)
Definition readTypes : Resolver (list ElementDefinitionType) :=
  fun el => (inr (el_type el), el).

Definition writeTypes (types : list ElementDefinitionType) : Resolver unit :=
  fun el => (inr tt, {| el_path := el_path el; el_type := types |}).

(** A value computed without the element, or the failure thrown. *)
Definition orThrow {A} (r : ConstrainError + A) : Resolver A :=
  match r with
  | inl e => throw e
  | inr x => ret x
  end.

Notation "'let*' x := m 'in' f" := (bind m (fun x => f))
  (at level 10, x name, m at level 100, f at level 200).

(** A computation that leaves the element alone, whatever it returns; and
    one that leaves it alone whenever it throws. *)
Definition keeps {A} (m : Resolver A) : Prop :=
  forall el r el', m el = (r, el') -> el' = el.

Definition atomic {A} (m : Resolver A) : Prop :=
  forall el e el', m el = (inl e, el') -> el' = el.

Section TypeConstraint.

(** The oracle, and a bound on the length of the parent chains it is asked to follow. *)
Variable resolve : string -> option TypeRecord.
Variable maxDepth : nat.

Fixpoint lineageFrom (fuel : nat) (r : TypeRecord) : list TypeRecord :=
  r :: match fuel with
       | 0 => []
       | S fuel =>
           match tr_parentUrl r with
           | Some p =>
               match resolve p with
               | Some parent => lineageFrom fuel parent
               | None => []
               end
           | None => []
           end
       end.

(** The requested type followed by its parents, nearest first. *)
Definition lineage (r : TypeRecord) : list TypeRecord := lineageFrom maxDepth r.

Definition ancestors (r : TypeRecord) : list TypeRecord := tail (lineage r).

(** A profile keeps the code of the type it derives from. *)
Definition isProfile (r : TypeRecord) : bool :=
  match ancestors r with
  | parent :: _ => tr_code parent =? tr_code r
  | [] => false
  end.

(** "Declared abstract in the oracle". *)
Definition isAbstractCode (c : string) : bool :=
  match resolve c with
  | Some r => tr_isAbstract r
  | None => false
  end.

(** Modelled from the spec: the ancestor test of [ElementDefinition.constrainType]
    (fhirtypes/ElementDefinition, not among the sources) for a value-shaped
    slot: identical code or a profile of the slot's code, or a
    specialization of the slot's code, legal only if that code is abstract. *)
Definition valueRelation (s : ElementDefinitionType) (r : TypeRecord) : Relation :=
  if tr_code r =? slot_code s then SameOrProfile
  else if existsb (fun a => tr_code a =? slot_code s) (ancestors r)
       then SpecializationOf (isAbstractCode (slot_code s))
       else NotAncestor.

(** Modelled from the spec: the same test for reference- and canonical-shaped
    slots: the requested target is reachable from an allowed target, by the
    same url, as a profile of it, or as a specialization whose nearest
    allowed ancestor is abstract. *)
Definition targetRelation (targets : list string) (r : TypeRecord) : Relation :=
  match find (fun a => bool_decide (tr_url a ∈ targets)) (lineage r) with
  | Some a =>
      if tr_code a =? tr_code r then SameOrProfile
      else SpecializationOf (tr_isAbstract a)
  | None => NotAncestor
  end.

Definition slotRelation (sh : Shape) (s : ElementDefinitionType) (r : TypeRecord) : Relation :=
  match sh with
  | ValueShape => valueRelation s r
  | _ => targetRelation (slot_targetProfile s) r
  end.

Definition isAncestor (sh : Shape) (r : TypeRecord) (s : ElementDefinitionType) : bool :=
  match slotRelation sh s r with
  | NotAncestor => false
  | _ => true
  end.

(** Step 1: every requested identifier is resolved before anything else. *)
Fixpoint resolveRequests (types : list OnlyRuleType)
    : ConstrainError + list (OnlyRuleType * TypeRecord) :=
  match types with
  | [] => inr []
  | q :: rest =>
      match resolve (ort_type q) with
      | None => inl (TypeNotFound (ort_type q))
      | Some r =>
          match resolveRequests rest with
          | inl e => inl e
          | inr rs => inr ((q, r) :: rs)
          end
      end
  end.

(** Steps 4 and 7: the first slot, in original order, of the requested
    shape that is an ancestor of the requested type; slots of exactly the
    requested shape are preferred to partially compatible ones. *)
Definition scanSlots (slots : list ElementDefinitionType) (sh : Shape) (r : TypeRecord)
    : option (nat * ElementDefinitionType) :=
  match list_find (fun s => exactShape sh s && isAncestor sh r s = true) slots with
  | Some m => Some m
  | None => list_find (fun s => partialShape sh s && isAncestor sh r s = true) slots
  end.

(** Steps 4 to 6 for the requests in turn: each is assigned the index of
    its slot, or the call fails. *)
Fixpoint assignRequests (slots : list ElementDefinitionType)
    (requests : list (OnlyRuleType * TypeRecord))
    : ConstrainError + list (nat * (OnlyRuleType * TypeRecord)) :=
  match requests with
  | [] => inr []
  | (q, r) :: rest =>
      match scanSlots slots (requestShape q) r with
      | None => inl (InvalidType (ort_type q))
      | Some (i, s) =>
          match slotRelation (requestShape q) s r with
          | SpecializationOf false => inl (NonAbstractParent (slot_code s) (ort_type q))
          | _ =>
              match assignRequests slots rest with
              | inl e => inl e
              | inr assigned => inr ((i, (q, r)) :: assigned)
              end
          end
      end
  end.

(** The slots that one original slot is narrowed to: one slot per requested
    code, carrying the profiles requested for that code, after the slot
    holding the requested targets. *)
Definition valueSlot (s : ElementDefinitionType)
    (group : string * list (OnlyRuleType * TypeRecord)) : ElementDefinitionType :=
  {| slot_code := group.1;
     slot_profile :=
       match filter (fun qr => isProfile qr.2 = true) group.2 with
       | [] => if group.1 =? slot_code s then slot_profile s else []
       | profiles => (fun qr => versionedUrl qr.1 qr.2) <$> profiles
       end;
     slot_targetProfile := [];
     slot_versioning := slot_versioning s |}.

Definition isValueRequest (qr : OnlyRuleType * TypeRecord) : bool :=
  match requestShape qr.1 with
  | ValueShape => true
  | _ => false
  end.

Definition narrowSlot (addressed : option string) (s : ElementDefinitionType)
    (requests : list (OnlyRuleType * TypeRecord)) : list ElementDefinitionType :=
  let targetRequests := filter (fun qr => isValueRequest qr = false) requests in
  let valueRequests := filter (fun qr => isValueRequest qr = true) requests in
  let urls := (fun qr => versionedUrl qr.1 qr.2) <$> targetRequests in
  match requests with
  | [] => [s] (* nothing requested of the slot: it stays as it is *)
  | _ =>
      match targetRequests with
      | [] => []
      | _ =>
          [ {| slot_code := slot_code s;
               slot_profile := slot_profile s;
               slot_targetProfile :=
                 match addressed with
                 | Some t => replaceTarget t urls (slot_targetProfile s)
                 | None => urls
                 end;
               slot_versioning := slot_versioning s |} ]
      end
      ++ (valueSlot s <$> groupByKey ((fun qr => (tr_code qr.2, qr)) <$> valueRequests))
  end.

(** Step 3: the slot addressed by [targetType], by its code or by one of
    its targets, and compatible with the shape of every request. *)
Definition addresses (t : TypeRecord) (s : ElementDefinitionType) : bool :=
  (slot_code s =? tr_code t) || bool_decide (tr_url t ∈ slot_targetProfile s).

Definition addressedTarget (t : TypeRecord) (s : ElementDefinitionType) : option string :=
  if bool_decide (tr_url t ∈ slot_targetProfile s) then Some (tr_url t) else None.

Definition locateTarget (slots : list ElementDefinitionType) (t : TypeRecord)
    (requests : list (OnlyRuleType * TypeRecord)) : option (nat * ElementDefinitionType) :=
  list_find
    (fun s => addresses t s
              && forallb (fun qr => compatibleShape (requestShape qr.1) s) requests = true)
    slots.

(** With [targetType], every request has to be legal against the addressed
    slot (against the addressed target, when a target is addressed). *)
Fixpoint checkAgainst (s : ElementDefinitionType) (addressed : option string)
    (requests : list (OnlyRuleType * TypeRecord)) : option ConstrainError :=
  match requests with
  | [] => None
  | (q, r) :: rest =>
      let rel :=
        match requestShape q, addressed with
        | ValueShape, _ => valueRelation s r
        | _, Some t => targetRelation [t] r
        | _, None => targetRelation (slot_targetProfile s) r
        end in
      match rel with
      | NotAncestor => Some (InvalidType (ort_type q))
      | SpecializationOf false => Some (NonAbstractParent (slot_code s) (ort_type q))
      | _ => checkAgainst s addressed rest
      end
  end.

(** Modelled from the spec: the narrowing algorithm of
    [ElementDefinition.constrainType] (fhirtypes/ElementDefinition, not among
    the sources), steps 1 to 8 of the Type Constraint Resolver, as a function
    of the type list: the new type list, or the failure. *)
Definition narrowTypes (slots : list ElementDefinitionType) (types : list OnlyRuleType)
    (targetType : option string) : ConstrainError + list ElementDefinitionType :=
  match resolveRequests types with
  | inl e => inl e
  | inr requests =>
      match targetType with
      | Some target =>
          match resolve target with
          | None => inl (TypeNotFound target)
          | Some t =>
              match locateTarget slots t requests with
              | None => inl (InvalidTarget target)
              | Some (i, s) =>
                  match checkAgainst s (addressedTarget t s) requests with
                  | Some e => inl e
                  | None =>
                      (* only the addressed slot is replaced, in place *)
                      inr (take i slots ++ narrowSlot (addressedTarget t s) s requests
                           ++ drop (S i) slots)
                  end
              end
          end
      | None =>
          match assignRequests slots requests with
          | inl e => inl e
          | inr [] => inr slots
          | inr assigned =>
              (* the narrowed slots, in the order of their first matching request *)
              inr (flat_map
                     (fun g => match slots !! g.1 with
                               | Some s => narrowSlot None s g.2
                               | None => []
                               end)
                     (groupByKey assigned))
          end
      end
  end.

(** Modelled from the spec: steps 4 to 6 of the Type Constraint Resolver as
    they run, request by request, against the type list of the element as it
    stands: the slot each request is matched with, or the failure thrown. *)
Fixpoint assignEach (requests : list (OnlyRuleType * TypeRecord))
    : Resolver (list (nat * (OnlyRuleType * TypeRecord))) :=
  match requests with
  | [] => ret []
  | (q, r) :: rest =>
      let* slots := readTypes in
      match scanSlots slots (requestShape q) r with
      | None => throw (InvalidType (ort_type q))
      | Some (i, s) =>
          match slotRelation (requestShape q) s r with
          | SpecializationOf false => throw (NonAbstractParent (slot_code s) (ort_type q))
          | _ => let* assigned := assignEach rest in ret ((i, (q, r)) :: assigned)
          end
      end
  end.

(** Modelled from the spec: [ElementDefinition.constrainType(rule, fisher, target)]
    (fhirtypes/ElementDefinition, not among the sources) as the procedure it
    is, run on the element: steps 1 to 7 read the element and throw, step 8
    assigns the new type list. *)
Definition constrainTypeM (types : list OnlyRuleType) (targetType : option string)
    : Resolver unit :=
  let* requests := orThrow (resolveRequests types) in
  match targetType with
  | Some target =>
      let* t := orThrow (match resolve target with
                         | Some t => inr t
                         | None => inl (TypeNotFound target)
                         end) in
      let* slots := readTypes in
      match locateTarget slots t requests with
      | None => throw (InvalidTarget target)
      | Some (i, s) =>
          match checkAgainst s (addressedTarget t s) requests with
          | Some e => throw e
          | None =>
              (* only the addressed slot is replaced, in place *)
              writeTypes (take i slots ++ narrowSlot (addressedTarget t s) s requests
                          ++ drop (S i) slots)
          end
      end
  | None =>
      let* assigned := assignEach requests in
      let* slots := readTypes in
      match assigned with
      | [] => writeTypes slots
      | _ =>
          (* the narrowed slots, in the order of their first matching request *)
          writeTypes (flat_map
                        (fun g => match slots !! g.1 with
                                  | Some s => narrowSlot None s g.2
                                  | None => []
                                  end)
                        (groupByKey assigned))
      end
  end.

(** The call on an element: the element after the call, and the error
    thrown, if any. *)
Definition constrainType (el : ElementDefinition) (types : list OnlyRuleType)
    (targetType : option string) : ElementDefinition * option ConstrainError :=
  match constrainTypeM types targetType el with
  | (inl e, el') => (el', Some e)
  | (inr _, el') => (el', None)
  end.

(** ** Types and slots, as the resolver relates them *)

(** [reaches r n a]: [a] is the [n]-th parent of [r] in the oracle. *)
Inductive reaches : TypeRecord -> nat -> TypeRecord -> Prop :=
| reaches_self (r : TypeRecord) : reaches r 0 r
| reaches_parent (r : TypeRecord) (p : string) (parent : TypeRecord) (n : nat)
    (a : TypeRecord) :
    tr_parentUrl r = Some p -> resolve p = Some parent -> reaches parent n a ->
    reaches r (S n) a.

(** The requested type is a specialization of the code: a type of another
    code with a parent of that code, within the bound on parent chains. *)
Definition specializes (r : TypeRecord) (c : string) : Prop :=
  tr_code r <> c
  /\ exists n a, (0 < n <= maxDepth)%nat /\ reaches r n a /\ tr_code a = c.

(** The slot's code is the code of the requested type (the type itself or a
    profile of it), or a code it specializes. *)
Definition fits (s : ElementDefinitionType) (r : TypeRecord) : Prop :=
  tr_code r = slot_code s \/ specializes r (slot_code s).

(** The slot a value-shaped request is matched with in the absence of
    [targetType]: the first one, in original order, that fits. *)
Definition matchedWith (slots : list ElementDefinitionType) (r : TypeRecord)
    (i : nat) (s : ElementDefinitionType) : Prop :=
  slots !! i = Some s /\ fits s r
  /\ forall j s0, (j < i)%nat -> slots !! j = Some s0 -> ~ fits s0 r.

(** What rule 5 demands of a request and the slot it is matched with. *)
Definition legalFor (s : ElementDefinitionType) (r : TypeRecord) : Prop :=
  tr_code r = slot_code s \/ isAbstractCode (slot_code s) = true.

(** The slot addressed by [targetType]: the first one whose code, or one of
    whose targets, is the target type and that is compatible with the shape
    of every request. *)
Definition addressedBy (slots : list ElementDefinitionType) (t : TypeRecord)
    (types : list OnlyRuleType) (i : nat) (s : ElementDefinitionType) : Prop :=
  slots !! i = Some s /\ addresses t s = true
  /\ (forall q, q ∈ types -> compatibleShape (requestShape q) s = true)
  /\ forall j s0, (j < i)%nat -> slots !! j = Some s0 -> addresses t s0 = true ->
       exists q, q ∈ types /\ compatibleShape (requestShape q) s0 = false.

(** The targets that a requested target may be reached from: the addressed
    target, or every target of the slot when it is addressed by its code. *)
Definition allowedTargets (t : TypeRecord) (s : ElementDefinitionType) : list string :=
  if decide (tr_url t ∈ slot_targetProfile s) then [tr_url t]
  else slot_targetProfile s.

(** What rule 6 demands of a requested target: an allowed target is among
    the type and its parents, and the nearest such one has the code of the
    requested type (the same url, or a profile of it) or is abstract. *)
Definition legalTarget (allowed : list string) (r : TypeRecord) : Prop :=
  exists pre a post,
    lineage r = pre ++ a :: post
    /\ tr_url a ∈ allowed
    /\ (forall b, b ∈ pre -> tr_url b ∉ allowed)
    /\ (tr_code a = tr_code r \/ tr_isAbstract a = true).

(** What rules 5 and 6 demand of a request and the addressed slot. *)
Definition legalAgainst (s : ElementDefinitionType) (t : TypeRecord)
    (q : OnlyRuleType) (r : TypeRecord) : Prop :=
  match requestShape q with
  | ValueShape => fits s r /\ legalFor s r
  | _ => legalTarget (allowedTargets t s) r
  end.

End TypeConstraint.

Section NarrowedInPlace.

Variable resolve : string -> option TypeRecord.
Variable maxDepth : nat.

(** What the reference- and canonical-shaped requests make of the addressed
    slot [s]: nothing when there are none, and otherwise one slot like [s]
    whose targets are the requested ones, in request order, in the place of
    the addressed target (of all targets, when the slot is addressed by its
    code). *)
Definition narrowedTargets (s : ElementDefinitionType) (t : TypeRecord)
    (requests : list (OnlyRuleType * TypeRecord))
    (targetSlots : list ElementDefinitionType) : Prop :=
  let urls := (fun qr => versionedUrl qr.1 qr.2) <$> requests in
  (requests = [] → targetSlots = [])
  ∧ (requests ≠ [] →
       ∃ s', targetSlots = [s']
         ∧ slot_code s' = slot_code s ∧ slot_profile s' = slot_profile s
         ∧ slot_versioning s' = slot_versioning s
         ∧ (tr_url t ∉ slot_targetProfile s → slot_targetProfile s' = urls)
         ∧ (∀ before after,
              slot_targetProfile s = before ++ tr_url t :: after →
              tr_url t ∉ before → tr_url t ∉ after →
              slot_targetProfile s' = before ++ urls ++ after))
  ∧ (∀ qr, qr ∈ requests → legalTarget resolve maxDepth (allowedTargets t s) qr.2).

(** What the value-shaped requests make of the addressed slot [s]: one slot
    for each requested code, holding the profiles requested for that code
    in request order (the profiles of [s] when none is requested and the
    code is that of [s]); every request fits [s] and is legal for it. *)
Definition narrowedValues (s : ElementDefinitionType)
    (requests : list (OnlyRuleType * TypeRecord))
    (valueSlots : list ElementDefinitionType) : Prop :=
  NoDup (slot_code <$> valueSlots)
  ∧ (∀ n, n ∈ valueSlots →
       slot_versioning n = slot_versioning s ∧ slot_targetProfile n = []
       ∧ (∃ qr, qr ∈ requests ∧ tr_code qr.2 = slot_code n)
       ∧ slot_profile n
         = match filter (fun qr => isProfile resolve maxDepth qr.2 = true)
                   (filter (fun qr => tr_code qr.2 = slot_code n) requests) with
           | [] => if decide (slot_code n = slot_code s) then slot_profile s else []
           | profiles => (fun qr => versionedUrl qr.1 qr.2) <$> profiles
           end)
  ∧ (∀ qr, qr ∈ requests →
       fits resolve maxDepth s qr.2 ∧ legalFor resolve s qr.2
       ∧ ∃ n, n ∈ valueSlots ∧ slot_code n = tr_code qr.2).

(** A call with [targetType] that has narrowed the addressed slot in place. *)
Definition narrowedInPlace (el : ElementDefinition) (types : list OnlyRuleType)
    (target : string) (el' : ElementDefinition) : Prop :=
  el_path el' = el_path el
  ∧ ∃ i s t requests new,
      resolve target = Some t
      ∧ requests.*1 = types
      ∧ (∀ qr, qr ∈ requests → resolve (ort_type qr.1) = Some qr.2)
      ∧ addressedBy (el_type el) t types i s
      (* the other slots stay, where they are *)
      ∧ el_type el' = take i (el_type el) ++ new ++ drop (S i) (el_type el)
      ∧ (∀ j, (j < i)%nat → el_type el' !! j = el_type el !! j)
      ∧ (∀ j, el_type el' !! (i + length new + j)%nat = el_type el !! (S i + j)%nat)
      ∧ (∀ s', new = [s'] → el_type el' = <[i := s']> (el_type el))
      (* what stands in the place of the addressed slot *)
      ∧ (types = [] → new = [s])
      ∧ (types ≠ [] →
           ∃ targetSlots valueSlots,
             new = targetSlots ++ valueSlots
             ∧ narrowedTargets s t
                 (filter (fun qr => isValueRequest qr = false) requests) targetSlots
             ∧ narrowedValues s
                 (filter (fun qr => isValueRequest qr = true) requests) valueSlots).

End NarrowedInPlace.

(** ** The export scheduler *)

(** The key of an authored structure: its kind and its name. *)
Abbreviation Key := (FishType * string)%type.

Inductive ExportError :=
| CyclicDependency (parent : string)
| ParentFailed (parent : string)
| ParentNotFound (parent : string)
| EntityAborted (message : string).

Inductive Diagnostic :=
| EntityFailure (entity : Key) (error : ExportError)
| ConstrainedParentElement (entity : Key) (rule : Rule)
| TypeConstraintFailure (entity : Key) (rule : Rule) (error : ConstrainError)
| RuleFailure (entity : Key) (rule : Rule) (message : string).

(** An export artifact. *)
Record StructureDefinition := mkStructureDefinition {
  art_kind : FishType;
  art_name : string;
  art_id : string;
  art_url : string;
  art_baseDefinition : string;
  art_elements : list ElementDefinition
}.

Definition art_key (a : StructureDefinition) : Key := (art_kind a, art_name a).

(** The state of an entity key; a key that is not in the cache has not been started. *)
Inductive Status :=
| InProgress
| Done (result : option StructureDefinition).

Record ExportState := mkExportState {
  cache : gmap Key Status;
  exported : list StructureDefinition;
  diagnostics : list Diagnostic
}.

Definition initialState : ExportState :=
  {| cache := ∅; exported := []; diagnostics := [] |}.

(** What the rule-application collaborator answers for one rule. *)
Inductive RuleOutcome :=
| Applied (elements : list ElementDefinition)
| Skipped (message : string)
| Aborted (message : string).

Definition rulePath (r : Rule) : string :=
  match r with
  | AssignmentRule p _ | InsertRule p _ | CaretValueRule p _ _ | CardRule p _ _
  | FlagRule p | OnlyRule p _ | AddElementRule p | ContainsRule p => p
  end.

Definition isAddElementRule (r : Rule) : bool :=
  match r with
  | AddElementRule _ => true
  | _ => false
  end.

(** The authored structure behind an entity, with its kind. *)
Definition structureOf (e : option Entity) : option (FishType * FshStructure) :=
  match e with
  | Some (EProfile p) => Some (TProfile, p)
  | Some (EExtension x) => Some (TExtension, x)
  | Some (ELogical l) => Some (TLogical, l)
  | Some (EResource r) => Some (TResource, r)
  | _ => None
  end.

Definition structureTypes : list FishType := [TProfile; TExtension; TLogical; TResource].

(** The requested entities: [getAllStructureDefinitions], each with its kind. *)
Definition requested (t : FSHTank) : list (FishType * FshStructure) :=
  ((fun p => (TProfile, p)) <$> getAllProfiles t)
  ++ ((fun x => (TExtension, x)) <$> getAllExtensions t)
  ++ ((fun l => (TLogical, l)) <$> getAllLogicals t)
  ++ ((fun r => (TResource, r)) <$> getAllResources t).

Definition keyOf (ksd : FishType * FshStructure) : Key := (ksd.1, sd_name ksd.2).

Definition isFailed (status : option Status) : bool :=
  match status with
  | Some (Done None) => true
  | _ => false
  end.

(** The entity-level failure that a diagnostic reports. *)
Definition failedEntity (d : Diagnostic) : option Key :=
  match d with
  | EntityFailure key _ => Some key
  | _ => None
  end.

Definition markInProgress (key : Key) (st : ExportState) : ExportState :=
  {| cache := <[key := InProgress]> (cache st);
     exported := exported st;
     diagnostics := diagnostics st |}.

(** Done with an artifact: the artifact joins the result set. *)
Definition succeed (key : Key) (a : StructureDefinition) (log : list Diagnostic)
    (st : ExportState) : ExportState :=
  {| cache := <[key := Done (Some a)]> (cache st);
     exported := exported st ++ [a];
     diagnostics := diagnostics st ++ log |}.

(** Done with an error: the failure is logged and the entity is left out. *)
Definition failWith (key : Key) (e : ExportError) (log : list Diagnostic)
    (st : ExportState) : ExportState :=
  {| cache := <[key := Done None]> (cache st);
     exported := exported st;
     diagnostics := diagnostics st ++ log ++ [EntityFailure key e] |}.

Section Scheduler.

(** The collaborators: the oracle (with the bound on its parent chains), the
    snapshot of an external type, the universal base type and the
    application of the rules that are not type constraints. *)
Variable resolve : string -> option TypeRecord.
Variable maxDepth : nat.
Variable snapshotOf : TypeRecord -> list ElementDefinition.
Variable universalBase : TypeRecord.
Variable applyRule : Rule -> list ElementDefinition -> RuleOutcome.

Variable tank : FSHTank.

(** Modelled from the spec: rule application of [StructureDefinitionExporter]
    (export/StructureDefinitionExporter, not among the sources), steps 3 and
    4 of the Export Dependency Scheduler.  A logical model or resource may
    not redeclare an inherited element; an [OnlyRule] goes to
    [constrainType]; the other rules go to the collaborator.  The result is
    the element list, or nothing when the entity is aborted, with the
    diagnostics. *)
Fixpoint applyRules (key : Key) (inherited : list string) (rules : list Rule)
    (elements : list ElementDefinition) (log : list Diagnostic)
    : option (list ElementDefinition) * list Diagnostic :=
  match rules with
  | [] => (Some elements, log)
  | rule :: rest =>
      if bool_decide (key.1 = TLogical ∨ key.1 = TResource)
         && negb (isAddElementRule rule)
         && bool_decide (rulePath rule ∈ inherited)
      then applyRules key inherited rest elements
             (log ++ [ConstrainedParentElement key rule])
      else
        match rule with
        | OnlyRule path types =>
            match list_find (fun el => el_path el = path) elements with
            | None =>
                applyRules key inherited rest elements
                  (log ++ [RuleFailure key rule "no such element"])
            | Some (i, el) =>
                match constrainType resolve maxDepth el types None with
                | (el', None) =>
                    applyRules key inherited rest (<[i := el']> elements) log
                | (_, Some e) =>
                    applyRules key inherited rest elements
                      (log ++ [TypeConstraintFailure key rule e])
                end
            end
        | _ =>
            match applyRule rule elements with
            | Applied elements' => applyRules key inherited rest elements' log
            | Skipped message =>
                applyRules key inherited rest elements
                  (log ++ [RuleFailure key rule message])
            | Aborted message => (None, log ++ [RuleFailure key rule message])
            end
        end
  end.

(** The parent named by an entity, when it is an authored structure of the tank. *)
Definition authoredParent (parentName : string) : option (FishType * FshStructure) :=
  structureOf (fish getUrlFromFshDefinition_spec tank parentName structureTypes).

(** Step 6: the artifact of a successful export. *)
Definition artifact (k : FishType) (sd : FshStructure) (baseDefinition : string)
    (elements : list ElementDefinition) : StructureDefinition :=
  {| art_kind := k;
     art_name := sd_name sd;
     art_id := sd_id sd;
     art_url := canonical (config tank) +:+ sd_id sd;
     art_baseDefinition := baseDefinition;
     art_elements := elements |}.

(** Steps 3 to 6, once the parent is settled: the artifact or the failure
    of the entity, with the diagnostics of its rules. *)
Definition settle (k : FishType) (sd : FshStructure)
    (parent : ExportError + string * list ElementDefinition)
    : (ExportError + StructureDefinition) * list Diagnostic :=
  match parent with
  | inl e => (inl e, [])
  | inr (baseDefinition, inherited) =>
      match applyRules (k, sd_name sd) (el_path <$> inherited) (sd_rules sd) inherited [] with
      | (Some elements, log) => (inr (artifact k sd baseDefinition elements), log)
      | (None, log) => (inl (EntityAborted "rules"), log)
      end
  end.

Definition finish (k : FishType) (sd : FshStructure)
    (parent : ExportError + string * list ElementDefinition) (st : ExportState)
    : ExportState :=
  match settle k sd parent with
  | (inr a, log) => succeed (k, sd_name sd) a log st
  | (inl e, log) => failWith (k, sd_name sd) e log st
  end.

(** A parent outside the tank is asked of the oracle. *)
Definition externalParent (parentName : string)
    : ExportError + string * list ElementDefinition :=
  match resolve parentName with
  | Some r => inr (tr_url r, snapshotOf r)
  | None => inl (ParentNotFound parentName)
  end.

(** What a finished parent gives its child. *)
Definition fromParent (parentName : string) (status : option Status)
    : ExportError + string * list ElementDefinition :=
  match status with
  | Some (Done (Some a)) => inr (art_url a, art_elements a)
  | Some InProgress => inl (CyclicDependency parentName)
  | _ => inl (ParentFailed parentName)
  end.

(** Modelled from the spec: [StructureDefinitionExporter.exportStructDef]
    (export/StructureDefinitionExporter, not among the sources), steps 1 to
    6 of the Export Dependency Scheduler.  [None] is only returned when the
    fuel for the parent chain runs out. *)
Fixpoint exportStructDef (fuel : nat) (k : FishType) (sd : FshStructure)
    (st : ExportState) : option ExportState :=
  match fuel with
  | 0 => None
  | S fuel =>
      let key := (k, sd_name sd) in
      match cache st !! key with
      | Some _ => Some st (* 1. already done: skip *)
      | None =>
          (* 2. mark in-progress, then settle the parent *)
          let st := markInProgress key st in
          match sd_parent sd with
          | None =>
              Some (finish k sd (inr (tr_url universalBase, snapshotOf universalBase)) st)
          | Some parentName =>
              match authoredParent parentName with
              | Some (k', p) =>
                  match cache st !! (k', sd_name p) with
                  | Some status =>
                      Some (finish k sd (fromParent parentName (Some status)) st)
                  | None =>
                      match exportStructDef fuel k' p st with
                      | Some st' =>
                          Some (finish k sd
                                  (fromParent parentName (cache st' !! (k', sd_name p))) st')
                      | None => None
                      end
                  end
              | None => Some (finish k sd (externalParent parentName) st)
              end
          end
      end
  end.

Fixpoint exportAll (fuel : nat) (requests : list (FishType * FshStructure))
    (st : ExportState) : option ExportState :=
  match requests with
  | [] => Some st
  | (k, sd) :: rest =>
      match exportStructDef fuel k sd st with
      | Some st' => exportAll fuel rest st'
      | None => None
      end
  end.

(** Modelled from the spec: [StructureDefinitionExporter.export]: every
    authored Profile, Extension, Logical and Resource is requested in turn. *)
Definition export : option ExportState :=
  exportAll (S (length (requested tank))) (requested tank) initialState.

(** An entity that depends on no other authored structure, and what its
    export comes to, whatever the rest of the tank. *)
Definition standalone (sd : FshStructure) : Prop :=
  match sd_parent sd with
  | None => True
  | Some parentName => authoredParent parentName = None
  end.

Definition ownParent (sd : FshStructure) : ExportError + string * list ElementDefinition :=
  match sd_parent sd with
  | None => inr (tr_url universalBase, snapshotOf universalBase)
  | Some parentName => externalParent parentName
  end.

Definition ownResult (k : FishType) (sd : FshStructure) : option StructureDefinition :=
  match (settle k sd (ownParent sd)).1 with
  | inr a => Some a
  | inl _ => None
  end.

(** An entity whose export goes through on its own account: its parent is
    outside the tank (or absent) and resolves, or is an authored structure
    that is such an entity itself, and its rules do not abort it.  The index
    counts the authored parents above it. *)
Inductive exportsAt : nat → FishType → FshStructure → StructureDefinition → Prop :=
| exports_root k sd a :
    standalone sd →
    (settle k sd (ownParent sd)).1 = inr a →
    exportsAt 0 k sd a
| exports_child n k sd parentName k' p a' a :
    sd_parent sd = Some parentName →
    authoredParent parentName = Some (k', p) →
    exportsAt n k' p a' →
    (settle k sd (inr (art_url a', art_elements a'))).1 = inr a →
    exportsAt (S n) k sd a.

End Scheduler.

(** *** What holds of the scheduler's state between two steps *)

Section ExportInvariant.

Variable resolve : string -> option TypeRecord.
Variable maxDepth : nat.
Variable snapshotOf : TypeRecord -> list ElementDefinition.
Variable universalBase : TypeRecord.
Variable applyRule : Rule -> list ElementDefinition -> RuleOutcome.
Variable tank : FSHTank.

(** The cache only holds requested entities; the result set holds exactly
    the artifacts that the cache records, once each; every entity done with
    an error has its failure in the log; an entity that depends on no other
    authored structure is done with its own result; an entity whose export
    goes through on its own account is done with that artifact; and the
    artifact of an authored parent stands before the artifact of its child,
    which has the parent's url as base definition. *)
Record ExportInv (st : ExportState) : Prop := mkExportInv {
  inv_dom : ∀ key, is_Some (cache st !! key) → key ∈ keyOf <$> requested tank;
  inv_exported_cache :
    ∀ a, a ∈ exported st → cache st !! art_key a = Some (Done (Some a));
  inv_cache_exported :
    ∀ key a, cache st !! key = Some (Done (Some a)) → a ∈ exported st ∧ art_key a = key;
  inv_exported_nodup : NoDup (art_key <$> exported st);
  inv_failed_logged :
    ∀ key, cache st !! key = Some (Done None) → key ∈ omap failedEntity (diagnostics st);
  inv_standalone :
    ∀ k sd r, (k, sd) ∈ requested tank → standalone tank sd →
      cache st !! (k, sd_name sd) = Some (Done r) →
      r = ownResult resolve maxDepth snapshotOf universalBase applyRule tank k sd;
  inv_exports :
    ∀ n k sd a r, (k, sd) ∈ requested tank →
      exportsAt resolve maxDepth snapshotOf universalBase applyRule tank n k sd a →
      cache st !! (k, sd_name sd) = Some (Done r) →
      r = Some a;
  inv_parent_first :
    ∀ i a k sd parentName k' p,
      exported st !! i = Some a →
      (k, sd) ∈ requested tank → art_key a = (k, sd_name sd) →
      sd_parent sd = Some parentName →
      authoredParent tank parentName = Some (k', p) →
      ∃ j a', (j < i)%nat ∧ exported st !! j = Some a'
              ∧ art_key a' = (k', sd_name p) ∧ art_baseDefinition a = art_url a'
}.

(** The entities in progress wait for the entity that is requested: when
    the export of one of them goes through on its own account, so does the
    export of the requested entity, with fewer parents above it. *)
Definition aboveInProgress (st : ExportState) (k : FishType) (sd : FshStructure) : Prop :=
  ∀ k0 sd0 n0 a0,
    (k0, sd0) ∈ requested tank →
    cache st !! (k0, sd_name sd0) = Some InProgress →
    exportsAt resolve maxDepth snapshotOf universalBase applyRule tank n0 k0 sd0 a0 →
    ∃ n a, exportsAt resolve maxDepth snapshotOf universalBase applyRule tank n k sd a
           ∧ (n < n0)%nat.

(** The number of requested keys that have not been started. *)
Definition pending (st : ExportState) : nat :=
  size (list_to_set (keyOf <$> requested tank) ∖ dom (cache st) : gset Key).

(** The entities of a run that are done with an error. *)
Definition failing (st : ExportState) : list (FishType * FshStructure) :=
  filter (fun ksd => isFailed (cache st !! keyOf ksd) = true) (requested tank).

End ExportInvariant.

(** ** Sample tanks *)

Module Samples.

Definition emptyDoc (file : string) : FSHDocument :=
  {| file := file; aliases := ∅; profiles := []; extensions := []; logicals := [];
     resources := []; instances := []; valueSets := []; codeSystems := [];
     invariants := []; ruleSets := []; mappings := []; appliedRuleSets := ∅ |}.

Definition minimalConfig : Configuration :=
  {| canonical := "http://hl7.org/fhir/us/minimal/" |}.

(** Two documents declare the alias [A]; the first one maps it to the empty string. *)
Definition aliasDocEmpty : FSHDocument :=
  {| file := "a.fsh"; aliases := {[ "A" := "" ]}; profiles := []; extensions := [];
     logicals := []; resources := []; instances := []; valueSets := []; codeSystems := [];
     invariants := []; ruleSets := []; mappings := []; appliedRuleSets := ∅ |}.

Definition aliasDocB : FSHDocument :=
  {| file := "b.fsh"; aliases := {[ "A" := "B" ]}; profiles := []; extensions := [];
     logicals := []; resources := []; instances := []; valueSets := []; codeSystems := [];
     invariants := []; ruleSets := []; mappings := []; appliedRuleSets := ∅ |}.

Definition aliasTank : FSHTank :=
  {| docs := [aliasDocEmpty; aliasDocB]; config := minimalConfig |}.

Definition fshCode (c : string) : FshCode :=
  {| code := c; system := None; display := None |}.

(** A value set and a definitional instance of StructureDefinition that
    share the name [Shared]. *)
Definition sharedVS : FshTerminology :=
  {| term_name := "Shared"; term_id := "Shared"; term_rules := [] |}.

Definition sharedInstance : Instance :=
  {| name := "Shared"; id := "Shared"; title := None;
     instanceOf := Some "StructureDefinition"; description := None;
     usage := Some "Definition"; mixins := [];
     rules := [AssignmentRule "derivation" (VCode (fshCode "constraint"))] |}.

Definition sharedDoc : FSHDocument :=
  {| file := "shared.fsh"; aliases := ∅; profiles := []; extensions := [];
     logicals := []; resources := [];
     instances := [("Shared", sharedInstance)];
     valueSets := [("Shared", sharedVS)]; codeSystems := [];
     invariants := []; ruleSets := []; mappings := []; appliedRuleSets := ∅ |}.

Definition sharedTank : FSHTank :=
  {| docs := [sharedDoc]; config := minimalConfig |}.

(** A profile and an extension that share the name [Twin]. *)
Definition twinProfile : FshStructure :=
  {| sd_name := "Twin"; sd_id := "twin-profile"; sd_parent := Some "Observation"; sd_rules := [] |}.

Definition twinExtension : FshStructure :=
  {| sd_name := "Twin"; sd_id := "twin-extension"; sd_parent := None; sd_rules := [] |}.

Definition twinDoc1 : FSHDocument :=
  {| file := "ext.fsh"; aliases := ∅; profiles := [];
     extensions := [("Twin", twinExtension)];
     logicals := []; resources := []; instances := []; valueSets := []; codeSystems := [];
     invariants := []; ruleSets := []; mappings := []; appliedRuleSets := ∅ |}.

Definition twinDoc2 : FSHDocument :=
  {| file := "prof.fsh"; aliases := ∅; profiles := [("Twin", twinProfile)];
     extensions := [];
     logicals := []; resources := []; instances := []; valueSets := []; codeSystems := [];
     invariants := []; ruleSets := []; mappings := []; appliedRuleSets := ∅ |}.

Definition twinTank : FSHTank :=
  {| docs := [twinDoc1; twinDoc2]; config := minimalConfig |}.

(** A definitional instance that stands for a resource, and a plain example. *)
Definition resourceDefInstance : Instance :=
  {| name := "MyResource"; id := "my-resource"; title := None;
     instanceOf := Some "StructureDefinition"; description := None;
     usage := Some "Definition"; mixins := [];
     rules := [AssignmentRule "derivation" (VCode (fshCode "specialization"));
               AssignmentRule "kind" (VCode (fshCode "resource"))] |}.

Definition exampleInstance : Instance :=
  {| name := "MyExample"; id := "my-example"; title := None;
     instanceOf := Some "Patient"; description := None;
     usage := Some "Example"; mixins := []; rules := [] |}.

Definition instanceDoc : FSHDocument :=
  {| file := "inst.fsh"; aliases := ∅; profiles := []; extensions := [];
     logicals := []; resources := [];
     instances := [("MyExample", exampleInstance); ("MyResource", resourceDefInstance);
                   ("Plain", Instance_constructor "Plain")];
     valueSets := []; codeSystems := [];
     invariants := []; ruleSets := []; mappings := []; appliedRuleSets := ∅ |}.

Definition instanceTank : FSHTank :=
  {| docs := [instanceDoc]; config := minimalConfig |}.

(** A small type hierarchy. *)
Definition fhir (id : string) : string := "http://hl7.org/fhir/StructureDefinition/" +:+ id.

Definition fhirType (id parent : string) (abstract : bool) (kind : string) : string * TypeRecord :=
  (id, {| tr_code := id; tr_url := fhir id;
          tr_parentUrl := if parent =? "" then None else Some (fhir parent);
          tr_isAbstract := abstract; tr_kind := kind |}).

Definition fhirProfile (id code parent : string) : string * TypeRecord :=
  (id, {| tr_code := code; tr_url := fhir id; tr_parentUrl := Some (fhir parent);
          tr_isAbstract := false; tr_kind := "profile" |}).

Definition typeTable : list (string * TypeRecord) :=
  [ fhirType "Base" "" true "complex-type";
    fhirType "Element" "Base" true "complex-type";
    fhirType "Resource" "Base" true "resource";
    fhirType "DomainResource" "Resource" true "resource";
    fhirType "Observation" "DomainResource" false "resource";
    fhirType "Practitioner" "DomainResource" false "resource";
    fhirType "PractitionerRole" "DomainResource" false "resource";
    fhirType "Organization" "DomainResource" false "resource";
    fhirType "Medication" "DomainResource" false "resource";
    fhirType "PlanDefinition" "DomainResource" false "resource";
    fhirType "ActivityDefinition" "DomainResource" false "resource";
    fhirType "Questionnaire" "DomainResource" false "resource";
    fhirType "Quantity" "Element" false "complex-type";
    fhirType "Duration" "Quantity" false "complex-type";
    fhirType "CodeableConcept" "Element" false "complex-type";
    fhirType "Reference" "Element" false "complex-type";
    fhirType "CodeableReference" "Element" false "complex-type";
    fhirType "string" "Element" false "primitive-type";
    fhirType "integer" "Element" false "primitive-type";
    fhirType "decimal" "Element" false "primitive-type";
    fhirType "uri" "Element" false "primitive-type";
    fhirType "canonical" "uri" false "primitive-type";
    fhirProfile "SimpleQuantity" "Quantity" "Quantity";
    fhirProfile "MoneyQuantity" "Quantity" "Quantity";
    fhirProfile "vitalsigns" "Observation" "Observation";
    fhirProfile "bp" "Observation" "vitalsigns";
    fhirProfile "shareableplandefinition" "PlanDefinition" "PlanDefinition";
    fhirProfile "computableplandefinition" "PlanDefinition" "PlanDefinition" ].

(** The oracle resolves an identifier by id or by url. *)
Definition resolve (identifier : string) : option TypeRecord :=
  snd <$> find (fun e => (e.1 =? identifier) || (tr_url e.2 =? identifier)) typeTable.

Definition plain (code : string) : ElementDefinitionType :=
  {| slot_code := code; slot_profile := []; slot_targetProfile := [];
     slot_versioning := None |}.

Definition withProfiles (code : string) (profiles : list string) : ElementDefinitionType :=
  {| slot_code := code; slot_profile := profiles; slot_targetProfile := [];
     slot_versioning := None |}.

Definition withTargetProfiles (code : string) (targets : list string) : ElementDefinitionType :=
  {| slot_code := code; slot_profile := []; slot_targetProfile := targets;
     slot_versioning := None |}.

Definition only (type : string) : OnlyRuleType :=
  {| ort_type := type; ort_isReference := false; ort_isCanonical := false;
     ort_version := None |}.

Definition onlyReference (type : string) : OnlyRuleType :=
  {| ort_type := type; ort_isReference := true; ort_isCanonical := false;
     ort_version := None |}.

Definition onlyCanonical (type : string) : OnlyRuleType :=
  {| ort_type := type; ort_isReference := false; ort_isCanonical := true;
     ort_version := None |}.

(** [Observation.value[x]], [Observation.performer], [Bundle.entry.resource]
    and [PlanDefinition.action.definition[x]], shortened. *)
Definition valueX : ElementDefinition :=
  {| el_path := "Observation.value[x]";
     el_type := [plain "Quantity"; plain "CodeableConcept"; plain "string"; plain "integer"] |}.

Definition performer : ElementDefinition :=
  {| el_path := "Observation.performer";
     el_type := [withTargetProfiles "Reference"
                   [fhir "Practitioner"; fhir "PractitionerRole"; fhir "Organization"]] |}.

Definition entryResource : ElementDefinition :=
  {| el_path := "Bundle.entry.resource"; el_type := [plain "Resource"] |}.

Definition actionDefinition : ElementDefinition :=
  {| el_path := "PlanDefinition.action.definition[x]";
     el_type := [withTargetProfiles "canonical"
                   [fhir "ActivityDefinition"; fhir "PlanDefinition"; fhir "Questionnaire"];
                 plain "uri"] |}.

(** An element that allows both [CodeableReference] and [Reference]. *)
Definition r5Value : ElementDefinition :=
  {| el_path := "Extension.value[x]";
     el_type := [withTargetProfiles "CodeableReference" [fhir "Resource"];
                 withTargetProfiles "Reference" [fhir "Resource"]] |}.

(** Logical models, as the exporter tests declare them. *)
Definition logical (name : string) (parent : option string) : FshStructure :=
  {| sd_name := name; sd_id := name; sd_parent := parent; sd_rules := [] |}.

Definition logicalDoc (file : string) (ls : list FshStructure) : FSHDocument :=
  {| file := file; aliases := ∅; profiles := []; extensions := [];
     logicals := (fun l => (sd_name l, l)) <$> ls;
     resources := []; instances := []; valueSets := []; codeSystems := [];
     invariants := []; ruleSets := []; mappings := []; appliedRuleSets := ∅ |}.

Definition Foo : FshStructure := logical "Foo" None.
Definition Bar : FshStructure := logical "Bar" (Some "Foo").
Definition Baz : FshStructure := logical "Baz" (Some "Bar").

(** [Baz] and [Bar] are declared before [Foo], in two files. *)
Definition chainTank : FSHTank :=
  {| docs := [logicalDoc "one.fsh" [Baz]; logicalDoc "two.fsh" [Bar; Foo]];
     config := minimalConfig |}.

(** One model with a parent that nobody declares, and one without parent. *)
Definition orphanTank : FSHTank :=
  {| docs := [logicalDoc "fileName" [logical "Foo" (Some "Missing"); logical "Bar" None]];
     config := minimalConfig |}.

(** Two models that name each other as parent, and an unrelated one. *)
Definition cycleTank : FSHTank :=
  {| docs := [logicalDoc "fileName"
                [logical "A" (Some "B"); logical "B" (Some "A"); logical "C" None]];
     config := minimalConfig |}.

Definition baseType : TypeRecord :=
  {| tr_code := "Base"; tr_url := fhir "Base"; tr_parentUrl := None;
     tr_isAbstract := true; tr_kind := "complex-type" |}.

Definition noSnapshot (r : TypeRecord) : list ElementDefinition := [].

Definition applyNothing (r : Rule) (els : list ElementDefinition) : RuleOutcome :=
  Applied els.





(** A tank whose canonical base is the HL7 one. *)
Definition hl7Tank : FSHTank :=
  {| docs := [logicalDoc "hl7.fsh" [Foo]];
     config := {| canonical := "http://hl7.org/fhir/StructureDefinition/" |} |}.

(** A definitional instance whose url is assigned twice. *)
Definition urlInstance : Instance :=
  {| name := "WithUrl"; id := "with-url"; title := Some "With url";
     instanceOf := Some "ValueSet"; description := None;
     usage := Some "Definition"; mixins := [];
     rules := [AssignmentRule "url" (VString "http://example.org/first");
               AssignmentRule "status" (VCode (fshCode "active"));
               AssignmentRule "url" (VString "http://example.org/second")] |}.

Definition urlTank : FSHTank :=
  {| docs := [{| file := "url.fsh"; aliases := {[ "WU" := "WithUrl"; "W" := "WU" ]};
                 profiles := []; extensions := []; logicals := []; resources := [];
                 instances := [("WithUrl", urlInstance)];
                 valueSets := []; codeSystems := [];
                 invariants := []; ruleSets := []; mappings := [];
                 appliedRuleSets := ∅ |}];
     config := minimalConfig |}.

(** No insert rules to expand. *)
Definition keepRules (i : Instance) (t : FSHTank) : Instance := i.

(** Applied rule sets in two documents. *)
Definition appliedDoc (file key : string) (rs : RuleSet) : FSHDocument :=
  {| file := file; aliases := ∅; profiles := []; extensions := []; logicals := [];
     resources := []; instances := []; valueSets := []; codeSystems := [];
     invariants := []; ruleSets := []; mappings := [];
     appliedRuleSets := {[ key := rs ]} |}.

Definition appliedTank : FSHTank :=
  {| docs := [appliedDoc "one.fsh" "Other" {| rs_name := "Other"; rs_rules := [] |};
              appliedDoc "two.fsh" "Common" {| rs_name := "Common"; rs_rules := [FlagRule "status"] |};
              appliedDoc "three.fsh" "Common" {| rs_name := "Common"; rs_rules := [] |}];
     config := minimalConfig |}.

Definition objectToString (v : AssignmentValue) : string := "[object Object]".

Definition valueSetDef (name id : string) (rules : list Rule) : FshDefinition :=
  DValueSet {| term_name := name; term_id := id; term_rules := rules |}.

End Samples.

(** * Properties *)

(** ** Lists *)

Lemma find_first {A} (f : A -> bool) (pre : list A) (x : A) (post : list A) :
  (∀ y, y ∈ pre → f y = false) → f x = true →
  find f (pre ++ x :: post) = Some x.
Proof.
  induction pre as [|y pre IH]; intros Hpre Hx; simpl.
  - by rewrite Hx.
  - rewrite (Hpre y) by constructor.
    apply IH; [|done]. intros z Hz. apply Hpre. by constructor.
Qed.

Lemma find_Some_first {A} (f : A -> bool) (l : list A) (x : A) :
  find f l = Some x →
  ∃ pre post, l = pre ++ x :: post ∧ (∀ y, y ∈ pre → f y = false) ∧ f x = true.
Proof.
  induction l as [|y l IH]; simpl; [done|].
  destruct (f y) eqn:Hy.
  - intros [= ->]. exists [], l. split_and!; [done| |done].
    intros z Hz. by apply elem_of_nil in Hz.
  - intros Hfind. destruct (IH Hfind) as (pre & post & -> & Hpre & Hx).
    exists (y :: pre), post. split_and!; [done| |done].
    intros z [->|Hz]%elem_of_cons; auto.
Qed.

Lemma find_None_all {A} (f : A -> bool) (l : list A) :
  find f l = None ↔ ∀ y, y ∈ l → f y = false.
Proof.
  induction l as [|y l IH]; simpl.
  - split; [|done]. intros _ z Hz. by apply elem_of_nil in Hz.
  - destruct (f y) eqn:Hy.
    + split; [done|]. intros H. rewrite (H y) in Hy; [done|constructor].
    + rewrite IH. split.
      * intros H z [->|Hz]%elem_of_cons; auto.
      * intros H z Hz. apply H. by constructor.
Qed.

Lemma find_is_Some {A} (f : A -> bool) (l : list A) (x : A) :
  x ∈ l → f x = true → ∃ y, find f l = Some y ∧ y ∈ l ∧ f y = true.
Proof.
  intros Hin Hx. destruct (find f l) as [y|] eqn:Hfind.
  - exists y. destruct (find_Some_first _ _ _ Hfind) as (pre & post & -> & _ & Hy).
    split_and!; [done| |done]. apply elem_of_app. right. constructor.
  - rewrite find_None_all in Hfind. rewrite (Hfind x Hin) in Hx. done.
Qed.

Lemma find_map {A B} (f : B -> bool) (g : A -> B) (l : list A) :
  find f (map g l) = g <$> find (fun x => f (g x)) l.
Proof.
  induction l as [|x l IH]; simpl; [done|].
  destruct (f (g x)); [done|apply IH].
Qed.

(** ** Alias resolution *)

Lemma truthy_spec (s : string) : truthy s = true ↔ s ≠ "".
Proof.
  unfold truthy. destruct (String.eqb_spec s ""); simpl; split; congruence.
Qed.

Lemma resolveAlias_docs_skip (pre rest : list FSHDocument) (name : string) :
  (∀ d, d ∈ pre → aliases d !! name = None ∨ aliases d !! name = Some "") →
  resolveAlias_docs (pre ++ rest) name = resolveAlias_docs rest name.
Proof.
  induction pre as [|d pre IH]; intros Hpre; simpl; [done|].
  destruct (Hpre d) as [-> | ->]; [constructor| |]; simpl;
    apply IH; intros d' Hd'; apply Hpre; by constructor.
Qed.

(** C9 (amended).  [resolveAlias] returns the string of the first document,
    in document order, whose alias table maps the name to a non-empty
    string; when no document does, it returns [undefined] and [fish] goes on
    with the original name. *)
Theorem resolveAlias_first_nonempty (tank : FSHTank) (name : string) :
  (∀ pre d post v,
      docs tank = pre ++ d :: post →
      (∀ d', d' ∈ pre → aliases d' !! name = None ∨ aliases d' !! name = Some "") →
      aliases d !! name = Some v → v ≠ "" →
      resolveAlias tank name = Some v)
  ∧ ((∀ d, d ∈ docs tank → aliases d !! name = None ∨ aliases d !! name = Some "") →
      resolveAlias tank name = None
      ∧ default name (resolveAlias tank name) = name).
Proof.
  unfold resolveAlias. split.
  - intros pre d post v -> Hpre Hd Hv.
    rewrite resolveAlias_docs_skip by done. simpl. rewrite Hd.
    apply truthy_spec in Hv. by rewrite Hv.
  - intros Hall.
    assert (resolveAlias_docs (docs tank) name = None) as ->; [|done].
    rewrite <- (app_nil_r (docs tank)).
    by rewrite resolveAlias_docs_skip.
Qed.

Lemma resolveAlias_first_nonempty_witness :
  resolveAlias Samples.aliasTank "A" = Some "B"
  ∧ resolveAlias Samples.sharedTank "A" = None.
Proof.
  split.
  - apply (proj1 (resolveAlias_first_nonempty Samples.aliasTank "A")
             [Samples.aliasDocEmpty] Samples.aliasDocB [] "B").
    + reflexivity.
    + intros d' ->%list_elem_of_singleton. right. reflexivity.
    + reflexivity.
    + discriminate.
  - apply (proj2 (resolveAlias_first_nonempty Samples.sharedTank "A")).
    intros d ->%list_elem_of_singleton. left. reflexivity.
Defined.

(** C9 as stated fails: the first document whose alias table contains [A]
    maps it to the empty string, yet the second document's value is
    returned; and for a name that no alias table contains the result is
    [undefined], not the name. *)
Lemma resolveAlias_skips_empty_alias :
  resolveAlias_stated Samples.aliasTank "A" = ""
  ∧ resolveAlias Samples.aliasTank "A" = Some "B"
  ∧ default "A" (resolveAlias Samples.aliasTank "A")
    ≠ resolveAlias_stated Samples.aliasTank "A"
  ∧ resolveAlias_stated Samples.aliasTank "Z" = "Z"
  ∧ resolveAlias Samples.aliasTank "Z" = None.
Proof. split_and!; [reflexivity|reflexivity|discriminate|reflexivity|reflexivity]. Qed.

(** ** The search loop of [fish] *)

Section FishingFacts.

Variable getUrl : Entity -> string -> string.
Variable tank : FSHTank.

Lemma directKeyb_spec (k : FishType) (e : Entity) (item : string) :
  directKeyb getUrl tank k e item = true ↔ directKey getUrl tank k e item.
Proof.
  destruct k; simpl; unfold matchesNameIdUrl;
    rewrite ?orb_true_iff, ?String.eqb_eq; try tauto.
  split; [discriminate|tauto].
Qed.

Lemma directKeyb_false (k : FishType) (e : Entity) (item : string) :
  directKeyb getUrl tank k e item = false ↔ ¬ directKey getUrl tank k e item.
Proof.
  rewrite <- directKeyb_spec. destruct (directKeyb getUrl tank k e item); split; congruence.
Qed.

(** Each [case] first searches the direct entities of its kind and only
    then the instances. *)
Lemma fishCase_split (item : string) (k : FishType) :
  fishCase getUrl tank item k =
    match directSearch getUrl tank item k with
    | Some r => Some r
    | None =>
        match masquerade getUrl tank item k with
        | Some p => EInstance <$> find p (getAllInstances tank)
        | None => None
        end
    end.
Proof.
  destruct k; unfold fishCase, directSearch, directEntities, orInstance, masquerade;
    rewrite ?find_map; simpl; try reflexivity;
    match goal with |- context [find ?f ?l] => destruct (find f l) end; reflexivity.
Qed.

Lemma fishLoop_first (item : string) (pre : list FishType) (k : FishType)
    (post : list FishType) (e : Entity) :
  (∀ k', k' ∈ pre → fishCase getUrl tank item k' = None) →
  fishCase getUrl tank item k = Some e →
  fishLoop getUrl tank item (pre ++ k :: post) = Some e.
Proof.
  induction pre as [|k0 pre IH]; intros Hpre Hk; simpl.
  - by rewrite Hk.
  - rewrite (Hpre k0) by constructor.
    apply IH; [|done]. intros k' Hk'. apply Hpre. by constructor.
Qed.

Lemma fishLoop_None (item : string) (types : list FishType) :
  (∀ k, k ∈ types → fishCase getUrl tank item k = None) →
  fishLoop getUrl tank item types = None.
Proof.
  induction types as [|k types IH]; intros Hall; simpl; [done|].
  rewrite (Hall k) by constructor.
  apply IH. intros k' Hk'. apply Hall. by constructor.
Qed.

Lemma fishLoop_Some_inv (item : string) (types : list FishType) (e : Entity) :
  fishLoop getUrl tank item types = Some e →
  ∃ pre k post, types = pre ++ k :: post
    ∧ (∀ k', k' ∈ pre → fishCase getUrl tank item k' = None)
    ∧ fishCase getUrl tank item k = Some e.
Proof.
  induction types as [|k0 types IH]; simpl; [done|].
  destruct (fishCase getUrl tank item k0) as [r|] eqn:Hk0.
  - intros [= ->]. exists [], k0, types. split_and!; [done| |done].
    intros k' Hk'. by apply elem_of_nil in Hk'.
  - intros Hloop. destruct (IH Hloop) as (pre & k & post & -> & Hpre & Hk).
    exists (k0 :: pre), k, post. split_and!; [done| |done].
    intros k' [->|Hk']%elem_of_cons; auto.
Qed.

(** A kind that yields a match bounds the kind that answers. *)
Lemma fishLoop_bounded (item : string) (pre : list FishType) (k : FishType)
    (post : list FishType) :
  is_Some (fishCase getUrl tank item k) →
  ∃ pre' k' post' r,
    pre ++ [k] = pre' ++ k' :: post'
    ∧ (∀ k0, k0 ∈ pre' → fishCase getUrl tank item k0 = None)
    ∧ fishCase getUrl tank item k' = Some r
    ∧ fishLoop getUrl tank item (pre ++ k :: post) = Some r.
Proof.
  intros [r Hr]. induction pre as [|k0 pre IH]; simpl.
  - exists [], k, [], r. rewrite Hr. split_and!; try done.
    intros k0 Hk0. by apply elem_of_nil in Hk0.
  - destruct (fishCase getUrl tank item k0) as [r0|] eqn:Hk0.
    + exists [], k0, (pre ++ [k]), r0. split_and!; try done.
      intros k1 Hk1. by apply elem_of_nil in Hk1.
    + destruct IH as (pre' & k' & post' & r' & Heq & Hpre' & Hk' & Hloop).
      exists (k0 :: pre'), k', post', r'. split_and!; try done.
      * simpl. by rewrite Heq.
      * intros k1 [->|Hk1]%elem_of_cons; auto.
Qed.

Lemma fish_no_types (item : string) :
  fish getUrl tank item [] =
    fishLoop getUrl tank (default item (resolveAlias tank item)) allTypes.
Proof. reflexivity. Qed.

Lemma fish_one_type (item : string) (k : FishType) :
  fish getUrl tank item [k] =
    fishCase getUrl tank (default item (resolveAlias tank item)) k.
Proof.
  unfold fish. simpl.
  by destruct (fishCase getUrl tank (default item (resolveAlias tank item)) k).
Qed.

(** A direct entity of a kind that carries the key makes the direct search
    of that kind succeed, with the first such entity. *)
Lemma directSearch_finds (item : string) (k : FishType) (e : Entity) :
  e ∈ directEntities tank k → directKey getUrl tank k e item →
  ∃ r, directSearch getUrl tank item k = Some r
    ∧ r ∈ directEntities tank k ∧ directKey getUrl tank k r item.
Proof.
  intros Hin Hkey. apply directKeyb_spec in Hkey.
  destruct (find_is_Some (fun e => directKeyb getUrl tank k e item) _ _ Hin Hkey)
    as (r & Hfind & Hr & Hkeyr).
  exists r. split_and!; [done|done|]. by apply directKeyb_spec.
Qed.

Lemma directSearch_first (item : string) (k : FishType) (l1 : list Entity)
    (e : Entity) (l2 : list Entity) :
  directEntities tank k = l1 ++ e :: l2 →
  (∀ x, x ∈ l1 → ¬ directKey getUrl tank k x item) →
  directKey getUrl tank k e item →
  directSearch getUrl tank item k = Some e.
Proof.
  intros Hsplit Hl1 He. unfold directSearch. rewrite Hsplit.
  apply find_first.
  - intros y Hy. apply directKeyb_false. auto.
  - by apply directKeyb_spec.
Qed.

Lemma directSearch_Some (item : string) (k : FishType) (r : Entity) :
  directSearch getUrl tank item k = Some r →
  r ∈ directEntities tank k ∧ directKey getUrl tank k r item.
Proof.
  intros (pre & post & Heq & _ & Hr)%find_Some_first. split.
  - rewrite Heq. apply elem_of_app. right. constructor.
  - by apply directKeyb_spec.
Qed.

Lemma fishCase_direct (item : string) (k : FishType) (r : Entity) :
  directSearch getUrl tank item k = Some r →
  fishCase getUrl tank item k = Some r.
Proof. intros H. by rewrite fishCase_split, H. Qed.

(** An instance is a direct entity of the kind [Instance] only. *)
Lemma directEntities_instance (k : FishType) (i : Instance) :
  EInstance i ∈ directEntities tank k → k = TInstance.
Proof.
  destruct k; simpl; try done;
    try (by intros ?%elem_of_nil);
    intros (x & Hx & _)%list_elem_of_In%in_map_iff; discriminate.
Qed.

(** What the instance search of a kind returns. *)
Lemma fishCase_instance (item : string) (k : FishType) (i : Instance) :
  k ≠ TInstance →
  fishCase getUrl tank item k = Some (EInstance i) →
  ∃ p, masquerade getUrl tank item k = Some p
    ∧ i ∈ getAllInstances tank ∧ p i = true.
Proof.
  intros Hk. rewrite fishCase_split.
  destruct (directSearch getUrl tank item k) as [r|] eqn:Hdirect.
  - intros [= ->]. apply directSearch_Some in Hdirect as [Hin _].
    by apply directEntities_instance in Hin.
  - destruct (masquerade getUrl tank item k) as [p|]; [|done].
    destruct (find p (getAllInstances tank)) as [j|] eqn:Hfind; [|done].
    intros [= ->]. exists p.
    apply find_Some_first in Hfind as (pre & post & Heq & _ & Hp).
    split_and!; [done| |done]. rewrite Heq. apply elem_of_app. right. constructor.
Qed.

End FishingFacts.

Lemma name_is_directKey (getUrl : Entity -> string -> string) (tank : FSHTank)
    (k : FishType) (e : Entity) (item : string) :
  e ∈ directEntities tank k → entity_name e = item → directKey getUrl tank k e item.
Proof.
  destruct k; simpl; auto. by intros ?%elem_of_nil.
Qed.

(** ** Kind priority *)

(** C2 (amended).  Called without kinds, [fish] walks the kinds in the order
    Profile, Extension, Logical, Resource, ValueSet, CodeSystem, Instance,
    Invariant, RuleSet, Mapping and answers with the match of the earliest
    kind that yields one; a definitional instance counts as a match of the
    kind it stands for.  When two direct entities of different kinds carry
    the (alias-resolved) item as their name, the answer comes from a kind no
    later than the earlier of their two kinds; it is a direct entity of that
    kind when no earlier kind yields a match, and that very entity when no
    entity of its kind declared before it matches the item. *)
Theorem fish_priority_order (getUrl : Entity -> string -> string)
    (tank : FSHTank) (item : string) :
  let item' := default item (resolveAlias tank item) in
  (∀ pre k post e,
      allTypes = pre ++ k :: post →
      (∀ k', k' ∈ pre → fishCase getUrl tank item' k' = None) →
      fishCase getUrl tank item' k = Some e →
      fish getUrl tank item [] = Some e)
  ∧ ((∀ k, k ∈ allTypes → fishCase getUrl tank item' k = None) →
      fish getUrl tank item [] = None)
  ∧ (∀ pre k1 mid k2 post e1 e2,
      allTypes = pre ++ k1 :: mid ++ k2 :: post →
      e1 ∈ directEntities tank k1 → e2 ∈ directEntities tank k2 →
      entity_name e1 = item' → entity_name e2 = item' →
      (∃ pre' k' post' r,
          pre ++ [k1] = pre' ++ k' :: post'
          ∧ (∀ k0, k0 ∈ pre' → fishCase getUrl tank item' k0 = None)
          ∧ fishCase getUrl tank item' k' = Some r
          ∧ fish getUrl tank item [] = Some r)
      ∧ ((∀ k0, k0 ∈ pre → fishCase getUrl tank item' k0 = None) →
          (∃ r, fish getUrl tank item [] = Some r
                ∧ r ∈ directEntities tank k1 ∧ directKey getUrl tank k1 r item')
          ∧ (∀ l1 l2,
                directEntities tank k1 = l1 ++ e1 :: l2 →
                (∀ x, x ∈ l1 → ¬ directKey getUrl tank k1 x item') →
                fish getUrl tank item [] = Some e1))).
Proof.
  intros item'. rewrite fish_no_types. fold item'. split_and!.
  - intros pre k post e -> Hpre Hk. by apply fishLoop_first.
  - apply fishLoop_None.
  - intros pre k1 mid k2 post e1 e2 -> He1 He2 Hn1 Hn2.
    pose proof (name_is_directKey getUrl tank k1 e1 item' He1 Hn1) as Hkey1.
    split.
    + apply fishLoop_bounded.
      destruct (directSearch_finds getUrl tank item' k1 e1 He1 Hkey1) as (r & Hr & _).
      exists r. by apply fishCase_direct.
    + intros Hpre. split.
      * destruct (directSearch_finds getUrl tank item' k1 e1 He1 Hkey1)
          as (r & Hr & Hin & Hkey).
        exists r. split_and!; [|done|done].
        apply fishLoop_first; [done|]. by apply fishCase_direct.
      * intros l1 l2 Hsplit Hl1.
        apply fishLoop_first; [done|]. apply fishCase_direct.
        by apply (directSearch_first getUrl tank item' k1 l1 e1 l2).
Qed.

Lemma fish_priority_order_witness :
  fish getUrlFromFshDefinition_spec Samples.twinTank "Twin" []
  = Some (EProfile Samples.twinProfile).
Proof.
  pose proof (fish_priority_order getUrlFromFshDefinition_spec Samples.twinTank "Twin")
    as (_ & _ & H).
  destruct (H [] TProfile [] TExtension
              [TLogical; TResource; TValueSet; TCodeSystem; TInstance; TInvariant;
               TRuleSet; TMapping]
              (EProfile Samples.twinProfile) (EExtension Samples.twinExtension))
    as [_ Hfirst].
  - reflexivity.
  - apply list_elem_of_singleton. reflexivity.
  - apply list_elem_of_singleton. reflexivity.
  - reflexivity.
  - reflexivity.
  - destruct Hfirst as [_ Hfirst].
    + intros k0 Hk0. by apply elem_of_nil in Hk0.
    + apply (Hfirst [] []); [reflexivity|].
      intros x Hx. by apply elem_of_nil in Hx.
Defined.

(** C2 as stated fails: a value set and an instance share the name
    [Shared]; ValueSet comes before Instance in the fixed order, yet the
    instance is returned, found under Profile. *)
Lemma fish_shared_name_returns_instance :
  directEntities Samples.sharedTank TValueSet = [EValueSet Samples.sharedVS]
  ∧ directEntities Samples.sharedTank TInstance = [EInstance Samples.sharedInstance]
  ∧ entity_name (EValueSet Samples.sharedVS) = "Shared"
  ∧ entity_name (EInstance Samples.sharedInstance) = "Shared"
  ∧ fish getUrlFromFshDefinition_spec Samples.sharedTank "Shared" []
    = Some (EInstance Samples.sharedInstance).
Proof. split_and!; reflexivity. Qed.

(** ** Definitional instances *)

Lemma some_assignsCode (path code' : string) (i : Instance) :
  some (assignsCode path code') (rules i) = true ↔ assignsCodeIn path code' i.
Proof.
  unfold some, assignsCodeIn. rewrite existsb_exists. split.
  - intros (r & Hin & Hr). destruct r as [p [| | |c|]| | | | | | |]; try discriminate.
    simpl in Hr. apply andb_true_iff in Hr as [->%String.eqb_eq Hc%String.eqb_eq].
    exists c. split; [by apply list_elem_of_In|done].
  - intros (c & Hin & Hc). exists (AssignmentRule path (VCode c)).
    split; [by apply list_elem_of_In|]. simpl.
    rewrite String.eqb_refl. simpl. by apply String.eqb_eq.
Qed.

Lemma isDefinitionOf_spec (type : string) (i : Instance) :
  isDefinitionOf type i = true ↔ instanceOf i = Some type ∧ usage i = Some "Definition".
Proof.
  unfold isDefinitionOf. by rewrite andb_true_iff, !bool_decide_eq_true.
Qed.

Lemma matchesNameIdUrl_instance (getUrl : Entity -> string -> string)
    (tank : FSHTank) (item : string) (i : Instance) :
  matchesNameIdUrl getUrl tank item (EInstance i) = true
  ↔ name i = item ∨ id i = item
    ∨ getUrl (EInstance i) (canonical (config tank)) = item.
Proof.
  unfold matchesNameIdUrl. simpl. rewrite !orb_true_iff, !String.eqb_eq. tauto.
Qed.

Lemma resourceInstance_spec (getUrl : Entity -> string -> string)
    (tank : FSHTank) (item : string) (i : Instance) :
  resourceInstance getUrl tank item i = true
  ↔ definesResource i
    ∧ (name i = item ∨ id i = item
       ∨ getUrl (EInstance i) (canonical (config tank)) = item).
Proof.
  unfold resourceInstance, definesResource.
  rewrite !andb_true_iff, isDefinitionOf_spec, !some_assignsCode,
    matchesNameIdUrl_instance.
  tauto.
Qed.

(** The six instance tests all demand the usage [Definition]. *)
Lemma masquerade_usage (getUrl : Entity -> string -> string) (tank : FSHTank)
    (item : string) (k : FishType) (p : Instance -> bool) (i : Instance) :
  masquerade getUrl tank item k = Some p → p i = true →
  usage i = Some "Definition".
Proof.
  destruct k; simpl; intros [= <-];
    unfold profileInstance, extensionInstance, logicalInstance, resourceInstance,
      vsInstance, csInstance;
    rewrite !andb_true_iff, isDefinitionOf_spec; tauto.
Qed.

Lemma directSearch_resource_None (getUrl : Entity -> string -> string)
    (tank : FSHTank) (item : string) :
  (∀ r, r ∈ getAllResources tank →
        ¬ directKey getUrl tank TResource (EResource r) item) →
  directSearch getUrl tank item TResource = None.
Proof.
  intros Hnone. unfold directSearch. apply find_None_all.
  intros e (r & <- & Hr)%list_elem_of_In%in_map_iff.
  apply directKeyb_false, Hnone. by apply list_elem_of_In.
Qed.

(** C7.  When no first-class Resource matches the (alias-resolved) name,
    [fish(name, Resource)] returns an instance of the generic
    structure-definition type whose usage is definition and whose rules
    assign derivation = specialization and kind = resource, matched by
    name, id or canonical URL: the first such instance of the tank, found
    whenever there is one, and nothing else. *)
Theorem fish_resource_finds_defining_instance
    (getUrl : Entity -> string -> string) (tank : FSHTank) (item : string) :
  let item' := default item (resolveAlias tank item) in
  let matched (i : Instance) :=
    name i = item' ∨ id i = item'
    ∨ getUrl (EInstance i) (canonical (config tank)) = item' in
  (∀ r, r ∈ getAllResources tank →
        ¬ directKey getUrl tank TResource (EResource r) item') →
  (∀ l1 i l2,
      getAllInstances tank = l1 ++ i :: l2 →
      (∀ x, x ∈ l1 → ¬ (definesResource x ∧ matched x)) →
      definesResource i → matched i →
      fish getUrl tank item [TResource] = Some (EInstance i))
  ∧ (∀ i, i ∈ getAllInstances tank → definesResource i → matched i →
      ∃ i', fish getUrl tank item [TResource] = Some (EInstance i')
            ∧ i' ∈ getAllInstances tank ∧ definesResource i' ∧ matched i')
  ∧ (∀ e, fish getUrl tank item [TResource] = Some e →
      ∃ i, e = EInstance i ∧ i ∈ getAllInstances tank
           ∧ definesResource i ∧ matched i).
Proof.
  intros item' matched Hnone.
  rewrite fish_one_type. fold item'. rewrite fishCase_split.
  rewrite directSearch_resource_None by done. simpl.
  split_and!.
  - intros l1 i l2 Hsplit Hl1 Hdef Hm. rewrite Hsplit.
    rewrite find_first; [done| |].
    + intros x Hx. destruct (resourceInstance getUrl tank item' x) eqn:Hp; [|done].
      apply resourceInstance_spec in Hp. by destruct (Hl1 x Hx).
    + by apply resourceInstance_spec.
  - intros i Hin Hdef Hm.
    destruct (find_is_Some (resourceInstance getUrl tank item') _ i Hin)
      as (i' & -> & Hin' & Hp); [by apply resourceInstance_spec|].
    apply resourceInstance_spec in Hp as [Hdef' Hm'].
    exists i'. by split_and!.
  - intros e. destruct (find _ _) as [i|] eqn:Hfind; [|done].
    intros [= <-]. exists i.
    apply find_Some_first in Hfind as (pre & post & Heq & _ & Hp).
    apply resourceInstance_spec in Hp as [Hdef Hm].
    split_and!; [done| |done|done].
    rewrite Heq. apply elem_of_app. right. constructor.
Qed.

Lemma fish_resource_finds_defining_instance_witness :
  fish getUrlFromFshDefinition_spec Samples.instanceTank "MyResource" [TResource]
  = Some (EInstance Samples.resourceDefInstance).
Proof.
  refine (proj1 (fish_resource_finds_defining_instance getUrlFromFshDefinition_spec
                   Samples.instanceTank "MyResource" _)
            [Samples.exampleInstance] Samples.resourceDefInstance
            [Instance_constructor "Plain"] _ _ _ _).
  - intros r Hr. by apply elem_of_nil in Hr.
  - reflexivity.
  - intros x ->%list_elem_of_singleton [(_ & Hu & _) _]. discriminate.
  - split_and!; [reflexivity|reflexivity| |].
    + exists (Samples.fshCode "specialization"). split; [|reflexivity].
      simpl. apply elem_of_cons. by left.
    + exists (Samples.fshCode "resource"). split; [|reflexivity].
      simpl. apply elem_of_cons. right. apply elem_of_cons. by left.
  - left. reflexivity.
Defined.

(** ** Keys of the direct searches *)

(** C8 (amended).  For Profile, Extension, Logical, Resource, ValueSet and
    CodeSystem, [fish] matches a direct entity of the kind when the
    (alias-resolved) item equals the entity's name, its id, or its canonical
    URL computed as the configured base url plus the entity's id; for
    Instance it compares the name and the id only, and for Invariant,
    RuleSet and Mapping the name only.  The first entity of the kind that
    carries such a key is returned, and a direct entity is returned only on
    such a key. *)
Theorem fish_direct_keys (tank : FSHTank) (item : string) (k : FishType) :
  let item' := default item (resolveAlias tank item) in
  let key := directKey getUrlFromFshDefinition_spec tank k in
  (∀ e, e ∈ directEntities tank k → key e item' →
      ∃ r, fish getUrlFromFshDefinition_spec tank item [k] = Some r
           ∧ r ∈ directEntities tank k ∧ key r item')
  ∧ (∀ l1 e l2,
      directEntities tank k = l1 ++ e :: l2 →
      (∀ x, x ∈ l1 → ¬ key x item') → key e item' →
      fish getUrlFromFshDefinition_spec tank item [k] = Some e)
  ∧ (∀ r, fish getUrlFromFshDefinition_spec tank item [k] = Some r →
      r ∈ directEntities tank k → key r item')
  ∧ (k ∈ [TInstance; TInvariant; TRuleSet; TMapping] →
      ∀ r, fish getUrlFromFshDefinition_spec tank item [k] = Some r →
           r ∈ directEntities tank k ∧ key r item').
Proof.
  intros item' key. rewrite fish_one_type. fold item'. split_and!.
  - intros e Hin Hkey.
    destruct (directSearch_finds getUrlFromFshDefinition_spec tank item' k e Hin Hkey)
      as (r & Hr & Hrin & Hrkey).
    exists r. split_and!; [by apply fishCase_direct|done|done].
  - intros l1 e l2 Hsplit Hl1 He. apply fishCase_direct.
    by apply (directSearch_first _ tank item' k l1 e l2).
  - intros r. rewrite fishCase_split.
    destruct (directSearch _ tank item' k) as [r'|] eqn:Hdirect.
    + intros [= <-] _. by apply directSearch_Some in Hdirect as [_ ?].
    + destruct (masquerade _ tank item' k) as [p|] eqn:Hm; [|done].
      destruct (find p _); [|done]. intros [= <-] Hin.
      apply directEntities_instance in Hin as ->. done.
  - intros Hk r. rewrite fishCase_split.
    destruct (directSearch _ tank item' k) as [r'|] eqn:Hdirect.
    + intros [= <-]. by apply directSearch_Some in Hdirect.
    + assert (masquerade getUrlFromFshDefinition_spec tank item' k = None) as ->;
        [|done].
      repeat (apply elem_of_cons in Hk as [->|Hk]; [done|]).
      by apply elem_of_nil in Hk.
Qed.

Lemma fish_direct_keys_witness :
  fish getUrlFromFshDefinition_spec Samples.twinTank
    "http://hl7.org/fhir/us/minimal/twin-extension" [TExtension]
  = Some (EExtension Samples.twinExtension).
Proof.
  refine (proj1 (proj2 (fish_direct_keys Samples.twinTank
                          "http://hl7.org/fhir/us/minimal/twin-extension" TExtension))
            [] (EExtension Samples.twinExtension) [] _ _ _).
  - reflexivity.
  - intros x Hx. by apply elem_of_nil in Hx.
  - right. right. reflexivity.
Defined.

(** C8 as stated fails for the kind Instance: the item is the canonical URL
    of a direct instance, and the search of that kind does not find it. *)
Lemma fish_instance_not_matched_by_url :
  directEntities Samples.instanceTank TInstance
  = [EInstance Samples.exampleInstance; EInstance Samples.resourceDefInstance;
     EInstance (Instance_constructor "Plain")]
  ∧ getUrlFromFshDefinition_spec (EInstance Samples.exampleInstance)
      (canonical (config Samples.instanceTank))
    = "http://hl7.org/fhir/us/minimal/my-example"
  ∧ resolveAlias Samples.instanceTank "http://hl7.org/fhir/us/minimal/my-example" = None
  ∧ fish getUrlFromFshDefinition_spec Samples.instanceTank
      "http://hl7.org/fhir/us/minimal/my-example" [TInstance] = None.
Proof. split_and!; reflexivity. Qed.

(** ** Instances as constructed *)

(** C10.  An instance constructed from a name has that name as id and the
    usage [Example]; an instance whose usage is not [Definition] is never
    returned by a search for Profile, Extension, Logical, Resource, ValueSet
    or CodeSystem. *)
Theorem constructed_instance_never_masquerades :
  (∀ n, name (Instance_constructor n) = n
        ∧ id (Instance_constructor n) = n
        ∧ usage (Instance_constructor n) = Some "Example")
  ∧ (∀ (getUrl : Entity -> string -> string) (tank : FSHTank) (item : string)
       (types : list FishType) (i : Instance),
      types ≠ [] → (∀ k, k ∈ types → k ∈ masqueradeTypes) →
      usage i ≠ Some "Definition" →
      fish getUrl tank item types ≠ Some (EInstance i)).
Proof.
  split; [done|].
  intros getUrl tank item types i Hne Hkinds Husage Hfish.
  unfold fish in Hfish.
  destruct (decide (length types = 0)) as [Hlen|_].
  { destruct types; [done|discriminate]. }
  apply fishLoop_Some_inv in Hfish as (pre & k & post & -> & _ & Hk).
  assert (k ∈ masqueradeTypes) as Hkm.
  { apply Hkinds, elem_of_app. right. constructor. }
  apply fishCase_instance in Hk as (p & Hp & _ & Hpi).
  - apply Husage. by eapply masquerade_usage.
  - intros ->. clear -Hkm. unfold masqueradeTypes in Hkm.
    repeat (apply elem_of_cons in Hkm as [?|Hkm]; [done|]).
    by apply elem_of_nil in Hkm.
Qed.

Lemma constructed_instance_never_masquerades_witness :
  fish getUrlFromFshDefinition_spec Samples.instanceTank "Plain"
    [TProfile; TExtension; TLogical; TResource; TValueSet; TCodeSystem]
  ≠ Some (EInstance (Instance_constructor "Plain")).
Proof.
  apply (proj2 constructed_instance_never_masquerades).
  - discriminate.
  - intros k Hk. exact Hk.
  - discriminate.
Defined.

(** ** Type constraints *)

Section TypeConstraintFacts.

Variable resolve : string -> option TypeRecord.
Variable maxDepth : nat.

(** A call that goes through has legal relations for all its requests. *)
Lemma assignRequests_legal (slots : list ElementDefinitionType)
    (requests : list (OnlyRuleType * TypeRecord))
    (assigned : list (nat * (OnlyRuleType * TypeRecord)))
    (q : OnlyRuleType) (r : TypeRecord) :
  assignRequests resolve maxDepth slots requests = inr assigned →
  (q, r) ∈ requests →
  ∃ i s, scanSlots resolve maxDepth slots (requestShape q) r = Some (i, s)
         ∧ slotRelation resolve maxDepth (requestShape q) s r ≠ SpecializationOf false.
Proof.
  revert assigned. induction requests as [|[q0 r0] requests IH]; intros assigned; simpl.
  - intros _ Hq. by apply elem_of_nil in Hq.
  - destruct (scanSlots resolve maxDepth slots (requestShape q0) r0) as [[i s]|] eqn:Hscan;
      [|done].
    destruct (slotRelation resolve maxDepth (requestShape q0) s r0) as [| |[|]] eqn:Hrel;
      try done;
      (destruct (assignRequests resolve maxDepth slots requests) as [e|rest]; [done|]);
      intros _ [[= -> ->]|Hq]%elem_of_cons;
      try (by eapply IH);
      exists i, s; rewrite Hrel; by split.
Qed.

End TypeConstraintFacts.

(** ** Reading and writing the element *)

Lemma keeps_ret {A} (x : A) : keeps (ret x).
Proof. by intros el r el' [= _ <-]. Qed.

Lemma keeps_throw {A} (e : ConstrainError) : keeps (@throw A e).
Proof. by intros el r el' [= _ <-]. Qed.

Lemma keeps_orThrow {A} (r : ConstrainError + A) : keeps (orThrow r).
Proof. destruct r; [apply keeps_throw|apply keeps_ret]. Qed.

Lemma keeps_readTypes : keeps readTypes.
Proof. by intros el r el' [= _ <-]. Qed.

Lemma keeps_bind {A B} (m : Resolver A) (f : A → Resolver B) :
  keeps m → (∀ x, keeps (f x)) → keeps (bind m f).
Proof.
  intros Hm Hf el r el'. unfold bind.
  destruct (m el) as [[e|x] el1] eqn:Hrun.
  - intros [= _ <-]. by eapply Hm.
  - intros Hfx. rewrite <- (Hm _ _ _ Hrun). by eapply Hf.
Qed.

Lemma keeps_atomic {A} (m : Resolver A) : keeps m → atomic m.
Proof. intros Hm el e el'. apply Hm. Qed.

(** After steps that only read, a step that is atomic keeps the whole atomic. *)
Lemma atomic_bind {A B} (m : Resolver A) (f : A → Resolver B) :
  keeps m → (∀ x, atomic (f x)) → atomic (bind m f).
Proof.
  intros Hm Hf el e el'. unfold bind.
  destruct (m el) as [[e0|x] el1] eqn:Hrun.
  - intros [= _ <-]. by eapply Hm.
  - intros Hfx. rewrite <- (Hm _ _ _ Hrun). by eapply Hf.
Qed.

(** The assignment of the new type list does not throw. *)
Lemma atomic_writeTypes (types : list ElementDefinitionType) : atomic (writeTypes types).
Proof. by intros el e el'. Qed.

(** The element can be left half-written by a procedure that throws after
    it has assigned: atomicity is a property of the resolver, not of
    procedures as such. *)
Example write_then_throw_is_not_atomic :
  ¬ atomic (bind (writeTypes []) (fun _ => @throw unit (InvalidType "string"))).
Proof.
  intros Hatomic.
  specialize (Hatomic Samples.valueX (InvalidType "string")
                {| el_path := "Observation.value[x]"; el_type := [] |} eq_refl).
  discriminate.
Qed.

Section ResolverFacts.

Variable resolve : string -> option TypeRecord.
Variable maxDepth : nat.

(** Matching the requests reads the element and writes nothing, whether it
    ends with every request matched or throws InvalidType or
    NonAbstractParent at some request. *)
Lemma assignEach_keeps (requests : list (OnlyRuleType * TypeRecord)) :
  keeps (assignEach resolve maxDepth requests).
Proof.
  induction requests as [|[q r] requests IH]; simpl; [apply keeps_ret|].
  apply keeps_bind; [apply keeps_readTypes|]. intros slots.
  destruct (scanSlots resolve maxDepth slots (requestShape q) r) as [[i s]|];
    [|apply keeps_throw].
  destruct (slotRelation resolve maxDepth (requestShape q) s r) as [| |[|]];
    try apply keeps_throw;
    (apply keeps_bind; [exact IH|intros assigned; apply keeps_ret]).
Qed.

Lemma constrainTypeM_atomic (types : list OnlyRuleType) (targetType : option string) :
  atomic (constrainTypeM resolve maxDepth types targetType).
Proof.
  unfold constrainTypeM.
  apply atomic_bind; [apply keeps_orThrow|]. intros requests.
  destruct targetType as [target|].
  - apply atomic_bind; [apply keeps_orThrow|]. intros t.
    apply atomic_bind; [apply keeps_readTypes|]. intros slots.
    destruct (locateTarget slots t requests) as [[i s]|];
      [|apply keeps_atomic, keeps_throw].
    destruct (checkAgainst resolve maxDepth s (addressedTarget t s) requests);
      [apply keeps_atomic, keeps_throw|apply atomic_writeTypes].
  - apply atomic_bind; [apply assignEach_keeps|]. intros assigned.
    apply atomic_bind; [apply keeps_readTypes|]. intros slots.
    destruct assigned; apply atomic_writeTypes.
Qed.

(** Run on an element, the matching of the requests is the matching
    against its type list. *)
Lemma assignEach_run (requests : list (OnlyRuleType * TypeRecord))
    (el : ElementDefinition) :
  assignEach resolve maxDepth requests el
  = (assignRequests resolve maxDepth (el_type el) requests, el).
Proof.
  induction requests as [|[q r] requests IH]; simpl; [done|].
  unfold bind, readTypes. simpl.
  destruct (scanSlots resolve maxDepth (el_type el) (requestShape q) r) as [[i s]|];
    [|done].
  destruct (slotRelation resolve maxDepth (requestShape q) s r) as [| |[|]];
    try done; rewrite IH;
    by destruct (assignRequests resolve maxDepth (el_type el) requests).
Qed.

(** The call as a function of the type list: the procedure throws what
    [narrowTypes] fails with, and assigns what it returns. *)
Lemma constrainType_narrowTypes (el : ElementDefinition) (types : list OnlyRuleType)
    (targetType : option string) :
  constrainType resolve maxDepth el types targetType
  = match narrowTypes resolve maxDepth (el_type el) types targetType with
    | inl e => (el, Some e)
    | inr newTypes => ({| el_path := el_path el; el_type := newTypes |}, None)
    end.
Proof.
  unfold constrainType, constrainTypeM, narrowTypes, bind.
  destruct (resolveRequests resolve types) as [e|requests]; [done|]. simpl.
  destruct targetType as [target|].
  - destruct (resolve target) as [t|]; [|done]. simpl.
    destruct (locateTarget (el_type el) t requests) as [[i s]|]; [|done].
    by destruct (checkAgainst resolve maxDepth s (addressedTarget t s) requests).
  - rewrite assignEach_run.
    destruct (assignRequests resolve maxDepth (el_type el) requests) as [e|[|a assigned]];
      done.
Qed.

End ResolverFacts.

(** C1.  A call of [constrainType] that fails, with TypeNotFound,
    InvalidType, InvalidTarget or NonAbstractParent, leaves the element as it
    was before the call, path and type list, slot for slot: every step that
    can throw only reads the element, and the one step that writes it, the
    assignment of the new type list, comes last and does not throw. *)
Theorem constrainType_failure_keeps_element (resolve : string -> option TypeRecord)
    (maxDepth : nat) (el : ElementDefinition) (types : list OnlyRuleType)
    (targetType : option string) (e : ConstrainError) :
  (constrainType resolve maxDepth el types targetType).2 = Some e →
  constrainTypeM resolve maxDepth types targetType el = (inl e, el)
  ∧ (constrainType resolve maxDepth el types targetType).1 = el
  ∧ el_type (constrainType resolve maxDepth el types targetType).1 = el_type el.
Proof.
  unfold constrainType.
  destruct (constrainTypeM resolve maxDepth types targetType el) as [[e'|[]] el'] eqn:Hrun;
    [|done].
  intros [= ->]. simpl.
  by rewrite (constrainTypeM_atomic resolve maxDepth types targetType el e el' Hrun).
Qed.

Lemma constrainType_failure_keeps_element_witness :
  (constrainType Samples.resolve 10 Samples.valueX
     [Samples.only "Quantity"; Samples.only "Monocle"] None).1 = Samples.valueX
  ∧ (constrainType Samples.resolve 10 Samples.valueX
       [Samples.only "Quantity"; Samples.only "decimal"] None).1
    = Samples.valueX
  ∧ (constrainType Samples.resolve 10 Samples.valueX
       [Samples.only "string"; Samples.only "Duration"] None).1
    = Samples.valueX
  ∧ (constrainType Samples.resolve 10 Samples.entryResource
       [Samples.onlyReference "Practitioner"] (Some "Resource")).1
    = Samples.entryResource.
Proof.
  split_and!.
  - apply (constrainType_failure_keeps_element Samples.resolve 10 Samples.valueX
             [Samples.only "Quantity"; Samples.only "Monocle"] None
             (TypeNotFound "Monocle")).
    reflexivity.
  - apply (constrainType_failure_keeps_element Samples.resolve 10 Samples.valueX
             [Samples.only "Quantity"; Samples.only "decimal"] None (InvalidType "decimal")).
    reflexivity.
  - apply (constrainType_failure_keeps_element Samples.resolve 10 Samples.valueX
             [Samples.only "string"; Samples.only "Duration"] None
             (NonAbstractParent "Quantity" "Duration")).
    reflexivity.
  - apply (constrainType_failure_keeps_element Samples.resolve 10 Samples.entryResource
             [Samples.onlyReference "Practitioner"] (Some "Resource")
             (InvalidTarget "Resource")).
    reflexivity.
Defined.

Lemma resolveRequests_fst (resolve : string -> option TypeRecord)
    (types : list OnlyRuleType) (requests : list (OnlyRuleType * TypeRecord)) :
  resolveRequests resolve types = inr requests → requests.*1 = types.
Proof.
  revert requests. induction types as [|q types IH]; intros requests; simpl.
  - by intros [= <-].
  - destruct (resolve (ort_type q)); [|done].
    destruct (resolveRequests resolve types) as [e|rs]; [done|].
    intros [= <-]. simpl. f_equal. by apply IH.
Qed.

Lemma filter_all {A} (P : A → Prop) `{∀ x, Decision (P x)} (l : list A) :
  (∀ x, x ∈ l → P x) → filter P l = l.
Proof.
  induction l as [|x l IH]; intros Hall; [done|].
  rewrite filter_cons. destruct (decide (P x)) as [_|Hx].
  - f_equal. apply IH. intros y Hy. apply Hall. by constructor.
  - destruct Hx. apply Hall. constructor.
Qed.

Lemma forallb_false_exists {A} (f : A → bool) (l : list A) :
  forallb f l = false → ∃ x, x ∈ l ∧ f x = false.
Proof.
  induction l as [|x l IH]; simpl; [done|].
  destruct (f x) eqn:Hx; simpl.
  - intros (y & Hy & Hfy)%IH. exists y. split; [by constructor|done].
  - intros _. exists x. split; [constructor|done].
Qed.

(** ** Parent chains *)

Section HierarchyFacts.

Variable resolve : string -> option TypeRecord.
Variable maxDepth : nat.

Lemma lineageFrom_head (fuel : nat) (r : TypeRecord) :
  ∃ rest, lineageFrom resolve fuel r = r :: rest.
Proof. destruct fuel; simpl; by eexists. Qed.

Lemma tail_lineageFrom_S (fuel : nat) (r : TypeRecord) :
  tail (lineageFrom resolve (S fuel) r)
  = match tr_parentUrl r with
    | Some p =>
        match resolve p with
        | Some parent => lineageFrom resolve fuel parent
        | None => []
        end
    | None => []
    end.
Proof. reflexivity. Qed.

(** The parents listed for a type are those it reaches within the bound. *)
Lemma elem_of_lineageFrom (fuel : nat) (r a : TypeRecord) :
  a ∈ lineageFrom resolve fuel r ↔ ∃ n, (n ≤ fuel)%nat ∧ reaches resolve r n a.
Proof.
  revert r. induction fuel as [|fuel IH]; intros r.
  - simpl. rewrite list_elem_of_singleton. split.
    + intros ->. exists 0. split; [lia|constructor].
    + intros (n & Hn & Hreach). assert (n = 0) as -> by lia. by inversion Hreach.
  - destruct (lineageFrom_head (S fuel) r) as [rest Hrest].
    pose proof (tail_lineageFrom_S fuel r) as Htail. rewrite Hrest in Htail.
    simpl in Htail. rewrite Hrest, elem_of_cons, Htail. split.
    + intros [->|Hin].
      * exists 0. split; [lia|constructor].
      * destruct (tr_parentUrl r) as [p|] eqn:Hp; [|by apply elem_of_nil in Hin].
        destruct (resolve p) as [parent|] eqn:Hparent; [|by apply elem_of_nil in Hin].
        apply IH in Hin as (n & Hn & Hreach).
        exists (S n). split; [lia|]. by econstructor.
    + intros (n & Hn & Hreach). inversion Hreach as [|? p parent m ? Hp Hparent Hrest']; subst.
      * by left.
      * right. rewrite Hp, Hparent. apply IH. exists m. split; [lia|done].
Qed.

Lemma elem_of_ancestors (r a : TypeRecord) :
  a ∈ ancestors resolve maxDepth r
  ↔ ∃ n, (0 < n ≤ maxDepth)%nat ∧ reaches resolve r n a.
Proof.
  unfold ancestors, lineage. destruct maxDepth as [|fuel].
  - simpl. split; [by intros ?%elem_of_nil|]. intros (n & Hn & _). lia.
  - rewrite tail_lineageFrom_S. split.
    + intros Hin.
      destruct (tr_parentUrl r) as [p|] eqn:Hp; [|by apply elem_of_nil in Hin].
      destruct (resolve p) as [parent|] eqn:Hparent; [|by apply elem_of_nil in Hin].
      apply elem_of_lineageFrom in Hin as (n & Hn & Hreach).
      exists (S n). split; [lia|]. by econstructor.
    + intros (n & Hn & Hreach).
      inversion Hreach as [|? p parent m ? Hp Hparent Hrest']; subst; [lia|].
      rewrite Hp, Hparent. apply elem_of_lineageFrom. exists m. split; [lia|done].
Qed.

Lemma existsb_ancestors (r : TypeRecord) (c : string) :
  existsb (fun a => tr_code a =? c) (ancestors resolve maxDepth r) = true
  ↔ ∃ n a, (0 < n ≤ maxDepth)%nat ∧ reaches resolve r n a ∧ tr_code a = c.
Proof.
  rewrite existsb_exists. split.
  - intros (a & Hin%list_elem_of_In%elem_of_ancestors & Hc%String.eqb_eq).
    destruct Hin as (n & Hn & Hreach). by exists n, a.
  - intros (n & a & Hn & Hreach & Hc). exists a. split.
    + apply list_elem_of_In, elem_of_ancestors. by exists n.
    + by apply String.eqb_eq.
Qed.

(** How a value-shaped slot stands to a requested type. *)
Lemma valueRelation_same (s : ElementDefinitionType) (r : TypeRecord) :
  tr_code r = slot_code s → valueRelation resolve maxDepth s r = SameOrProfile.
Proof. intros Hc. unfold valueRelation. apply String.eqb_eq in Hc. by rewrite Hc. Qed.

Lemma valueRelation_specializes (s : ElementDefinitionType) (r : TypeRecord) :
  specializes resolve maxDepth r (slot_code s) →
  valueRelation resolve maxDepth s r
  = SpecializationOf (isAbstractCode resolve (slot_code s)).
Proof.
  intros [Hne Hreach]. unfold valueRelation.
  apply String.eqb_neq in Hne. rewrite Hne.
  apply existsb_ancestors in Hreach. by rewrite Hreach.
Qed.

Lemma valueRelation_unfit (s : ElementDefinitionType) (r : TypeRecord) :
  ¬ fits resolve maxDepth s r → valueRelation resolve maxDepth s r = NotAncestor.
Proof.
  intros Hfit. unfold valueRelation.
  destruct (String.eqb_spec (tr_code r) (slot_code s)) as [Hc|Hc].
  - destruct Hfit. by left.
  - destruct (existsb _ _) eqn:Hex; [|done].
    destruct Hfit. right. split; [done|]. by apply existsb_ancestors.
Qed.

Lemma fits_dec (s : ElementDefinitionType) (r : TypeRecord) :
  fits resolve maxDepth s r ∨ ¬ fits resolve maxDepth s r.
Proof.
  destruct (String.eqb_spec (tr_code r) (slot_code s)) as [Hc|Hc]; [by left; left|].
  destruct (existsb (fun a => tr_code a =? slot_code s) (ancestors resolve maxDepth r))
    eqn:Hex.
  - left. right. split; [done|]. by apply existsb_ancestors.
  - right. intros [Hsame|[_ Hreach]]; [done|].
    apply existsb_ancestors in Hreach. congruence.
Qed.

Lemma isAncestor_fits (s : ElementDefinitionType) (r : TypeRecord) :
  isAncestor resolve maxDepth ValueShape r s = true ↔ fits resolve maxDepth s r.
Proof.
  unfold isAncestor, slotRelation. split.
  - intros Hanc. destruct (fits_dec s r) as [Hfit|Hfit]; [done|].
    by rewrite valueRelation_unfit in Hanc.
  - intros [Hsame|Hspec].
    + by rewrite valueRelation_same.
    + by rewrite valueRelation_specializes.
Qed.

(** Rule 5, for a slot that fits the request. *)
Lemma valueRelation_legal (s : ElementDefinitionType) (r : TypeRecord) :
  fits resolve maxDepth s r →
  (valueRelation resolve maxDepth s r ≠ SpecializationOf false ↔ legalFor resolve s r).
Proof.
  intros [Hsame|Hspec].
  - rewrite valueRelation_same by done. split; [by left|done].
  - rewrite valueRelation_specializes by done. destruct Hspec as [Hne _].
    unfold legalFor. destruct (isAbstractCode resolve (slot_code s)); split; try done.
    + by right.
    + intros [?|?]; done.
Qed.

(** The scan for a value-shaped request: the first slot that fits. *)
Lemma scanSlots_value_Some (slots : list ElementDefinitionType) (r : TypeRecord)
    (i : nat) (s : ElementDefinitionType) :
  scanSlots resolve maxDepth slots ValueShape r = Some (i, s)
  ↔ matchedWith resolve maxDepth slots r i s.
Proof.
  unfold scanSlots, matchedWith.
  assert (list_find (fun s => partialShape ValueShape s
                              && isAncestor resolve maxDepth ValueShape r s = true) slots
          = None) as ->.
  { apply list_find_None, Forall_forall. by intros s0 _. }
  assert (∀ o : option (nat * ElementDefinitionType),
            match o with Some m => Some m | None => None end = o) as -> by by intros [].
  rewrite list_find_Some. simpl. rewrite isAncestor_fits.
  split; intros (Hi & Hfit & Hbefore); split_and!; try done.
  - intros j s0 Hj Hs0. rewrite <- isAncestor_fits. by apply (Hbefore j).
  - intros j s0 Hs0 Hj. rewrite isAncestor_fits. by apply (Hbefore j).
Qed.

Lemma matchedWith_unique (slots : list ElementDefinitionType) (r : TypeRecord)
    (i j : nat) (s s' : ElementDefinitionType) :
  matchedWith resolve maxDepth slots r i s →
  matchedWith resolve maxDepth slots r j s' → i = j ∧ s = s'.
Proof.
  intros H1%scanSlots_value_Some H2%scanSlots_value_Some.
  rewrite H1 in H2. by injection H2.
Qed.

End HierarchyFacts.
(** ** Requests, one after the other *)

Section Requests.

Variable resolve : string -> option TypeRecord.
Variable maxDepth : nat.

(** A value-shaped request is in order when the slot it is matched with may
    be narrowed to it. *)
Local Abbreviation inOrder :=
  (fun (slots : list ElementDefinitionType) (r : TypeRecord) =>
     ∃ i s, matchedWith resolve maxDepth slots r i s ∧ legalFor resolve s r).

Lemma resolveRequests_resolved (types : list OnlyRuleType)
    (requests : list (OnlyRuleType * TypeRecord)) :
  resolveRequests resolve types = inr requests →
  ∀ qr, qr ∈ requests → resolve (ort_type qr.1) = Some qr.2.
Proof.
  revert requests. induction types as [|q types IH]; intros requests; simpl.
  - intros [= <-] qr Hqr. by apply elem_of_nil in Hqr.
  - destruct (resolve (ort_type q)) as [r|] eqn:Hr; [|done].
    destruct (resolveRequests resolve types) as [e|rs]; [done|].
    intros [= <-] qr [->|Hqr]%elem_of_cons; [done|]. by apply (IH rs).
Qed.







(** ** Requests against the addressed slot *)

Lemma locateTarget_addressedBy (slots : list ElementDefinitionType) (t : TypeRecord)
    (types : list OnlyRuleType) (requests : list (OnlyRuleType * TypeRecord))
    (i : nat) (s : ElementDefinitionType) :
  requests.*1 = types →
  (locateTarget slots t requests = Some (i, s) ↔ addressedBy slots t types i s).
Proof.
  intros Hfst. unfold locateTarget, addressedBy.
  assert (∀ s0, forallb (fun qr => compatibleShape (requestShape qr.1) s0) requests = true
                ↔ ∀ q, q ∈ types → compatibleShape (requestShape q) s0 = true)
    as Hcompatible.
  { intros s0. rewrite forallb_forall, <- Hfst. split.
    - intros Hall q (qr & -> & Hqr)%list_elem_of_fmap. by apply Hall, list_elem_of_In.
    - intros Hall qr Hqr%list_elem_of_In. apply Hall, list_elem_of_fmap. by exists qr. }
  rewrite list_find_Some. split.
  - intros (Hi & [Haddr Hall]%andb_true_iff & Hbefore). split_and!; try done.
    + by apply Hcompatible.
    + intros j s0 Hj Hs0 Haddr0. specialize (Hbefore j s0 Hs0 Hj).
      rewrite Haddr0 in Hbefore. simpl in Hbefore.
      apply not_true_is_false, forallb_false_exists in Hbefore as (qr & Hqr & Hneg).
      exists qr.1. split; [|done]. rewrite <- Hfst. apply list_elem_of_fmap. by exists qr.
  - intros (Hi & Haddr & Hall & Hbefore). split_and!; [done| |].
    + apply andb_true_iff. split; [done|]. by apply Hcompatible.
    + intros j s0 Hs0 Hj [Haddr0 Hall0]%andb_true_iff.
      destruct (Hbefore j s0 Hj Hs0 Haddr0) as (q & Hq & Hneg).
      rewrite (proj1 (Hcompatible s0) Hall0 q Hq) in Hneg. done.
Qed.

Lemma legalTarget_relation (allowed : list string) (r : TypeRecord) :
  legalTarget resolve maxDepth allowed r
  ↔ targetRelation resolve maxDepth allowed r ≠ NotAncestor
    ∧ targetRelation resolve maxDepth allowed r ≠ SpecializationOf false.
Proof.
  unfold targetRelation. split.
  - intros (pre & a & post & Hsplit & Ha & Hpre & Hlegal).
    rewrite Hsplit, find_first.
    + destruct (String.eqb_spec (tr_code a) (tr_code r)) as [_|Hc]; [done|].
      destruct Hlegal as [? | ->]; done.
    + intros b Hb. apply bool_decide_eq_false. by apply Hpre.
    + by apply bool_decide_eq_true.
  - destruct (find _ (lineage resolve maxDepth r)) as [a|] eqn:Hfind; [|by intros [? _]].
    intros [_ Hrel].
    apply find_Some_first in Hfind as (pre & post & Hsplit & Hpre & Ha).
    exists pre, a, post. split_and!; [done|by apply bool_decide_eq_true in Ha| |].
    + intros b Hb. specialize (Hpre b Hb). by apply bool_decide_eq_false in Hpre.
    + destruct (String.eqb_spec (tr_code a) (tr_code r)) as [Hc|_]; [by left|].
      right. by destruct (tr_isAbstract a).
Qed.

Lemma value_relation_legal (s : ElementDefinitionType) (r : TypeRecord) :
  fits resolve maxDepth s r ∧ legalFor resolve s r
  ↔ valueRelation resolve maxDepth s r ≠ NotAncestor
    ∧ valueRelation resolve maxDepth s r ≠ SpecializationOf false.
Proof.
  split.
  - intros [Hfit Hlegal]. split.
    + apply isAncestor_fits in Hfit. unfold isAncestor, slotRelation in Hfit.
      intros Hrel. by rewrite Hrel in Hfit.
    + by apply (valueRelation_legal resolve maxDepth s r Hfit).
  - intros [Hne Hrel].
    destruct (fits_dec resolve maxDepth s r) as [Hfit|Hfit].
    + split; [done|]. by apply (valueRelation_legal resolve maxDepth s r Hfit).
    + by rewrite valueRelation_unfit in Hne.
Qed.

(** The relation that a request is checked for against the addressed slot. *)
Lemma legalAgainst_relation (s : ElementDefinitionType) (t : TypeRecord)
    (q : OnlyRuleType) (r : TypeRecord) :
  let rel :=
    match requestShape q, addressedTarget t s with
    | ValueShape, _ => valueRelation resolve maxDepth s r
    | _, Some u => targetRelation resolve maxDepth [u] r
    | _, None => targetRelation resolve maxDepth (slot_targetProfile s) r
    end in
  legalAgainst resolve maxDepth s t q r ↔ rel ≠ NotAncestor ∧ rel ≠ SpecializationOf false.
Proof.
  unfold legalAgainst, allowedTargets, addressedTarget.
  destruct (requestShape q); simpl.
  - apply value_relation_legal.
  - rewrite legalTarget_relation.
    destruct (decide (tr_url t ∈ slot_targetProfile s)) as [Hin|Hin].
    + by rewrite bool_decide_eq_true_2.
    + by rewrite bool_decide_eq_false_2.
  - rewrite legalTarget_relation.
    destruct (decide (tr_url t ∈ slot_targetProfile s)) as [Hin|Hin].
    + by rewrite bool_decide_eq_true_2.
    + by rewrite bool_decide_eq_false_2.
Qed.

Lemma checkAgainst_cons (s : ElementDefinitionType) (t : TypeRecord)
    (q : OnlyRuleType) (r : TypeRecord) (rest : list (OnlyRuleType * TypeRecord)) :
  legalAgainst resolve maxDepth s t q r →
  checkAgainst resolve maxDepth s (addressedTarget t s) ((q, r) :: rest)
  = checkAgainst resolve maxDepth s (addressedTarget t s) rest.
Proof.
  intros [Hne Hrel]%legalAgainst_relation. simpl.
  destruct (match requestShape q, addressedTarget t s with
            | ValueShape, _ => _ | _, Some u => _ | _, None => _ end) as [| |[|]]; done.
Qed.

Lemma checkAgainst_None (s : ElementDefinitionType) (t : TypeRecord)
    (requests : list (OnlyRuleType * TypeRecord)) :
  checkAgainst resolve maxDepth s (addressedTarget t s) requests = None
  ↔ ∀ qr, qr ∈ requests → legalAgainst resolve maxDepth s t qr.1 qr.2.
Proof.
  induction requests as [|[q r] requests IH].
  - split; [|done]. intros _ qr Hqr. by apply elem_of_nil in Hqr.
  - split.
    + intros Hcheck.
      assert (legalAgainst resolve maxDepth s t q r) as Hlegal.
      { apply legalAgainst_relation. simpl in Hcheck.
        split; intros Hrel; by rewrite Hrel in Hcheck. }
      rewrite (checkAgainst_cons s t q r requests Hlegal) in Hcheck.
      intros qr [->|Hqr]%elem_of_cons; [done|]. by apply IH.
    + intros Hall. rewrite checkAgainst_cons by (apply (Hall (q, r)); constructor).
      apply IH. intros qr Hqr. apply Hall. by constructor.
Qed.


End Requests.





(** ** Requests gathered by key *)

Section Groups.

Context {K X : Type} `{EqDecision K}.

Lemma groupByKey_snoc (l : list (K * X)) (k : K) (x : X) :
  groupByKey (l ++ [(k, x)]) = addToGroup k x (groupByKey l).
Proof. unfold groupByKey. by rewrite foldl_snoc. Qed.

Lemma addToGroup_keys (k : K) (x : X) (groups : list (K * list X)) :
  (k ∈ groups.*1 → (addToGroup k x groups).*1 = groups.*1)
  ∧ (k ∉ groups.*1 → (addToGroup k x groups).*1 = groups.*1 ++ [k]).
Proof.
  induction groups as [|[k' xs] groups [IHin IHout]]; cbn [addToGroup].
  - split; [by intros ?%elem_of_nil|done].
  - destruct (decide (k = k')) as [->|Hne]; rewrite !fmap_cons; cbn [fst].
    + split; [done|]. intros Hnot. destruct Hnot. constructor.
    + split.
      * intros [?|Hin]%elem_of_cons; [done|]. by rewrite IHin.
      * intros Hnot. rewrite IHout; [done|]. intros Hin. apply Hnot. by constructor.
Qed.

Lemma addToGroup_NoDup (k : K) (x : X) (groups : list (K * list X)) :
  NoDup groups.*1 → NoDup (addToGroup k x groups).*1.
Proof.
  intros Hnodup. destruct (addToGroup_keys k x groups) as [Hin Hout].
  destruct (decide (k ∈ groups.*1)) as [Hk|Hk].
  - by rewrite Hin.
  - rewrite Hout by done.
    apply NoDup_app. split_and!; [done| |apply NoDup_singleton].
    intros k' Hk' ->%list_elem_of_singleton. done.
Qed.

(** With keys that occur once, adding to a group changes the group of the
    key, or starts it, and nothing else. *)
Lemma elem_of_addToGroup (k : K) (x : X) (groups : list (K * list X))
    (k' : K) (xs' : list X) :
  NoDup groups.*1 →
  (k', xs') ∈ addToGroup k x groups
  ↔ (k' ≠ k ∧ (k', xs') ∈ groups)
    ∨ (k' = k ∧ ((∃ xs, (k, xs) ∈ groups ∧ xs' = xs ++ [x])
                 ∨ ((k ∉ groups.*1) ∧ xs' = [x]))).
Proof.
  induction groups as [|[k0 xs0] groups IH]; intros Hnodup; cbn [addToGroup].
  - rewrite list_elem_of_singleton. split.
    + intros [= -> ->]. right. split; [done|]. right. split; [apply not_elem_of_nil|done].
    + intros [[_ Hin]|[-> [(xs & Hin & _)|[_ ->]]]]; [by apply elem_of_nil in Hin| |done].
      by apply elem_of_nil in Hin.
  - rewrite fmap_cons in Hnodup. cbn [fst] in Hnodup.
    apply NoDup_cons in Hnodup as [Hk0 Hnodup].
    assert (∀ xs, (k0, xs) ∉ groups) as Hfresh.
    { intros xs Hin. apply Hk0, list_elem_of_fmap. by exists (k0, xs). }
    destruct (decide (k = k0)) as [<-|Hne].
    + rewrite fmap_cons, !elem_of_cons. cbn [fst]. split.
      * intros [[= -> ->]|Hin].
        -- right. split; [done|]. left. exists xs0. split; [by left|done].
        -- left. split; [|by right]. intros ->. by apply (Hfresh xs').
      * intros [[Hk' [Heq|Hin]]|[-> Hcase]].
        -- injection Heq as -> _. done.
        -- by right.
        -- destruct Hcase as [(xs & [Heq|Hin]%elem_of_cons & ->)|[Hnot _]].
           ++ injection Heq as ->. by left.
           ++ by apply Hfresh in Hin.
           ++ destruct Hnot. by left.
    + rewrite fmap_cons, !elem_of_cons, (IH Hnodup). cbn [fst]. split.
      * intros [Heq|[[Hk' Hin]|[-> Hcase]]].
        -- injection Heq as -> ->. left. split; [by intros ->|by left].
        -- left. split; [done|by right].
        -- right. split; [done|]. destruct Hcase as [(xs & Hin & ->)|[Hnot ->]].
           ++ left. exists xs. split; [by right|done].
           ++ right. split; [|done]. intros Hin. rewrite ?elem_of_cons in Hin.
              destruct Hin; done.
      * intros [[Hk' [Heq|Hin]]|[-> Hcase]].
        -- by left.
        -- right. left. done.
        -- right. right. split; [done|].
           destruct Hcase as [(xs & [Heq|Hin]%elem_of_cons & ->)|[Hnot ->]].
           ++ by injection Heq as ->.
           ++ left. by exists xs.
           ++ right. split; [|done]. intros Hin. apply Hnot. by right.
Qed.

Lemma groupByKey_NoDup (l : list (K * X)) : NoDup (groupByKey l).*1.
Proof.
  induction l as [|[k x] l IH] using rev_ind; [constructor|].
  rewrite groupByKey_snoc. by apply addToGroup_NoDup.
Qed.

(** The group of a key holds the entries of that key, in their order; there
    is a group for every key that occurs, and for no other. *)
Lemma elem_of_groupByKey (l : list (K * X)) (k : K) (xs : list X) :
  (k, xs) ∈ groupByKey l
  ↔ xs = (filter (fun kx => kx.1 = k) l).*2 ∧ xs ≠ [].
Proof.
  revert k xs. induction l as [|[k0 x0] l IH] using rev_ind; intros k xs.
  - split; [by intros ?%elem_of_nil|]. by intros [-> ?].
  - rewrite groupByKey_snoc, elem_of_addToGroup by apply groupByKey_NoDup.
    rewrite filter_app, fmap_app, filter_cons, filter_nil. simpl.
    destruct (decide (k0 = k)) as [->|Hne]; simpl.
    + split.
      * intros [[Hk _]|[_ [(xs' & Hin & ->)|[Hnot ->]]]]; [done| |].
        -- apply IH in Hin as [-> _]. split; [done|]. by intros [? ?]%app_eq_nil.
        -- split; [|done].
           assert ((filter (fun kx => kx.1 = k) l).*2 = []) as ->; [|done].
           destruct ((filter (fun kx => kx.1 = k) l).*2) as [|y ys] eqn:Hf; [done|].
           destruct Hnot. apply list_elem_of_fmap. exists (k, y :: ys).
           split; [done|]. apply IH. by rewrite Hf.
      * intros [-> _]. right. split; [done|].
        destruct ((filter (fun kx => kx.1 = k) l).*2) as [|y ys] eqn:Hf.
        -- right. split; [|done].
           intros ([k' xs'] & Hk' & Hin)%list_elem_of_fmap. simpl in Hk'. subst k'.
           apply IH in Hin as [-> Hne]. by rewrite Hf in Hne.
        -- left. exists (y :: ys). split; [|done]. apply IH. by rewrite Hf.
    + rewrite app_nil_r. split.
      * intros [[_ Hin]|[-> _]]; [by apply IH|done].
      * intros Hxs. left. split; [by intros ->|by apply IH].
Qed.

End Groups.
(** ** The addressed slot *)

Lemma replaceTarget_other (t : string) (news targets : list string) :
  t ∉ targets → replaceTarget t news targets = targets.
Proof.
  unfold replaceTarget. induction targets as [|u targets IH]; intros Hnot; simpl; [done|].
  rewrite IH by (intros Hin; apply Hnot; by constructor).
  destruct (String.eqb_spec u t) as [->|_]; [|done].
  destruct Hnot. constructor.
Qed.

Lemma replaceTarget_split (t : string) (news before after : list string) :
  t ∉ before → t ∉ after →
  replaceTarget t news (before ++ t :: after) = before ++ news ++ after.
Proof.
  intros Hbefore Hafter. unfold replaceTarget. rewrite flat_map_app. simpl.
  rewrite String.eqb_refl.
  fold (replaceTarget t news before). fold (replaceTarget t news after).
  by rewrite !replaceTarget_other.
Qed.

Lemma filter_keyed {X} (key : X → string) (c : string) (l : list X) :
  (filter (fun kx => kx.1 = c) ((fun x => (key x, x)) <$> l)).*2
  = filter (fun x => key x = c) l.
Proof.
  induction l as [|x l IH]; [done|].
  rewrite fmap_cons. destruct (decide (key x = c)) as [Hc|Hc].
  - rewrite !filter_cons_True by done. rewrite fmap_cons. cbn [snd]. by rewrite IH.
  - by rewrite !filter_cons_False by done.
Qed.

Section AddressedSlot.

Variable resolve : string -> option TypeRecord.
Variable maxDepth : nat.

(** The slots that the value-shaped requests make of a slot. *)
Lemma valueSlots_narrowed (s : ElementDefinitionType)
    (requests : list (OnlyRuleType * TypeRecord)) :
  (∀ qr, qr ∈ requests →
     fits resolve maxDepth s qr.2 ∧ legalFor resolve s qr.2) →
  narrowedValues resolve maxDepth s requests
    (valueSlot resolve maxDepth s
       <$> groupByKey ((fun qr => (tr_code qr.2, qr)) <$> requests)).
Proof.
  intros Hlegal.
  set (keyed := (fun qr : OnlyRuleType * TypeRecord => (tr_code qr.2, qr)) <$> requests).
  assert (∀ c xs, (c, xs) ∈ groupByKey keyed
                  ↔ xs = filter (fun qr => tr_code qr.2 = c) requests ∧ xs ≠ [])
    as Hgroups.
  { intros c xs. rewrite elem_of_groupByKey. unfold keyed.
    by rewrite (filter_keyed (fun qr => tr_code qr.2)). }
  split_and!.
  - rewrite <- list_fmap_compose.
    assert (slot_code ∘ valueSlot resolve maxDepth s = fst) as -> by done.
    apply groupByKey_NoDup.
  - intros n ([c xs] & -> & Hin)%list_elem_of_fmap.
    apply Hgroups in Hin as [-> Hne]. simpl. split_and!; [done|done| |].
    + destruct (filter (fun qr => tr_code qr.2 = c) requests) as [|qr rest] eqn:Hf; [done|].
      exists qr.
      assert (qr ∈ filter (fun qr => tr_code qr.2 = c) requests) as Hqr.
      { rewrite Hf. constructor. }
      by apply list_elem_of_filter in Hqr as [? ?].
    + destruct (filter (fun qr => isProfile resolve maxDepth qr.2 = true) _); [|done].
      destruct (String.eqb_spec c (slot_code s)) as [Hc|Hc].
      * by rewrite decide_True.
      * by rewrite decide_False.
  - intros qr Hqr. destruct (Hlegal qr Hqr) as [Hfit Hleg]. split_and!; [done|done|].
    exists (valueSlot resolve maxDepth s
              (tr_code qr.2, filter (fun qr' => tr_code qr'.2 = tr_code qr.2) requests)).
    split; [|done]. apply list_elem_of_fmap. eexists. split; [done|].
    apply Hgroups. split; [done|]. intros Hnil.
    assert (qr ∈ filter (fun qr' => tr_code qr'.2 = tr_code qr.2) requests) as Hin.
    { by apply list_elem_of_filter. }
    rewrite Hnil in Hin. by apply elem_of_nil in Hin.
Qed.

(** The slot that the reference- and canonical-shaped requests make of the
    addressed slot. *)
Lemma targetSlots_narrowed (s : ElementDefinitionType) (t : TypeRecord)
    (requests : list (OnlyRuleType * TypeRecord)) :
  (∀ qr, qr ∈ requests → legalTarget resolve maxDepth (allowedTargets t s) qr.2) →
  narrowedTargets resolve maxDepth s t requests
    match requests with
    | [] => []
    | _ =>
        [ {| slot_code := slot_code s;
             slot_profile := slot_profile s;
             slot_targetProfile :=
               match addressedTarget t s with
               | Some u => replaceTarget u ((fun qr => versionedUrl qr.1 qr.2) <$> requests)
                             (slot_targetProfile s)
               | None => (fun qr => versionedUrl qr.1 qr.2) <$> requests
               end;
             slot_versioning := slot_versioning s |} ]
    end.
Proof.
  intros Hlegal. unfold narrowedTargets, addressedTarget in *. split_and!.
  - by intros ->.
  - intros Hne. destruct requests as [|qr requests]; [done|].
    eexists. split; [done|]. simpl. split_and!; try done.
    + intros Hnot. by rewrite bool_decide_eq_false_2.
    + intros before after Hsplit Hbefore Hafter.
      rewrite bool_decide_eq_true_2.
      * rewrite Hsplit. by apply replaceTarget_split.
      * rewrite Hsplit. apply elem_of_app. right. constructor.
  - done.
Qed.

End AddressedSlot.

(** C6.  A successful call with [targetType] changes the addressed slot
    only.  The slots before it and after it are the original ones, at their
    positions and in their order; in the place of the addressed slot stands
    what it is narrowed to: for reference- and canonical-shaped requests the
    slot with the requested targets, in request order, in the place of the
    addressed target, each of them reached from the addressed target; for
    value-shaped requests one slot for each requested code with the profiles
    requested for it, each request being the slot's own type, a profile of
    it, or a specialization of its abstract code. *)
Theorem targetType_narrows_in_place (resolve : string -> option TypeRecord)
    (maxDepth : nat) (el : ElementDefinition) (types : list OnlyRuleType)
    (target : string) (el' : ElementDefinition) :
  constrainType resolve maxDepth el types (Some target) = (el', None) →
  narrowedInPlace resolve maxDepth el types target el'.
Proof.
  rewrite constrainType_narrowTypes.
  destruct (narrowTypes resolve maxDepth (el_type el) types (Some target)) as [e|ts] eqn:Hn;
    [done|].
  intros [= <-]. split; [done|]. simpl.
  unfold narrowTypes in Hn.
  destruct (resolveRequests resolve types) as [e|requests] eqn:Hres; [done|].
  destruct (resolve target) as [t|] eqn:Ht; [|done].
  destruct (locateTarget (el_type el) t requests) as [[i s]|] eqn:Hlocate; [|done].
  destruct (checkAgainst resolve maxDepth s (addressedTarget t s) requests) eqn:Hcheck;
    [done|].
  injection Hn as <-.
  pose proof (resolveRequests_fst resolve types requests Hres) as Hfst.
  apply (locateTarget_addressedBy (el_type el) t types requests i s Hfst) in Hlocate.
  pose proof Hlocate as (Hi & _).
  pose proof (lookup_lt_Some _ _ _ Hi) as Hlt.
  pose proof (proj1 (checkAgainst_None resolve maxDepth s t requests) Hcheck) as Hlegal.
  set (new := narrowSlot resolve maxDepth (addressedTarget t s) s requests).
  exists i, s, t, requests, new. split_and!; try done.
  - by apply (resolveRequests_resolved resolve types).
  - intros j Hj. rewrite lookup_app_l by (rewrite length_take; lia).
    by apply lookup_take_lt.
  - intros j. rewrite lookup_app_r by (rewrite length_take; lia).
    rewrite length_take, lookup_app_r by lia.
    rewrite lookup_drop. f_equal. lia.
  - intros s' ->. by rewrite insert_take_drop.
  - intros ->. subst new. by destruct requests.
  - intros Hne.
    assert (requests ≠ []) as Hrequests by (intros ->; by destruct types).
    eexists _, _. split_and!.
    + subst new. unfold narrowSlot. destruct requests as [|qr requests]; [done|].
      reflexivity.
    + apply targetSlots_narrowed. intros qr [Hshape Hqr]%list_elem_of_filter.
      specialize (Hlegal qr Hqr). unfold legalAgainst in Hlegal.
      unfold isValueRequest in Hshape. by destruct (requestShape qr.1).
    + apply valueSlots_narrowed. intros qr [Hshape Hqr]%list_elem_of_filter.
      specialize (Hlegal qr Hqr). unfold legalAgainst in Hlegal.
      unfold isValueRequest in Hshape. by destruct (requestShape qr.1).
Qed.

Lemma targetType_narrows_in_place_witness :
  narrowedInPlace Samples.resolve 10 Samples.actionDefinition
    [Samples.onlyCanonical "shareableplandefinition";
     Samples.onlyCanonical "computableplandefinition"]
    "PlanDefinition"
    {| el_path := "PlanDefinition.action.definition[x]";
       el_type :=
         [Samples.withTargetProfiles "canonical"
            [Samples.fhir "ActivityDefinition"; Samples.fhir "shareableplandefinition";
             Samples.fhir "computableplandefinition"; Samples.fhir "Questionnaire"];
          Samples.plain "uri"] |}
  ∧ narrowedInPlace Samples.resolve 10 Samples.valueX [Samples.only "SimpleQuantity"]
      "Quantity"
      {| el_path := "Observation.value[x]";
         el_type :=
           [Samples.withProfiles "Quantity" [Samples.fhir "SimpleQuantity"];
            Samples.plain "CodeableConcept"; Samples.plain "string";
            Samples.plain "integer"] |}.
Proof.
  split.
  - apply (targetType_narrows_in_place Samples.resolve 10 Samples.actionDefinition
             [Samples.onlyCanonical "shareableplandefinition";
              Samples.onlyCanonical "computableplandefinition"]
             "PlanDefinition").
    reflexivity.
  - apply (targetType_narrows_in_place Samples.resolve 10 Samples.valueX
             [Samples.only "SimpleQuantity"] "Quantity").
    reflexivity.
Defined.

(** The element as it was does not count as narrowed: neither the choice
    with Quantity still unprofiled, nor the canonical with PlanDefinition
    still among its targets. *)
Example unchanged_value_is_not_narrowed :
  ¬ narrowedInPlace Samples.resolve 10 Samples.valueX [Samples.only "SimpleQuantity"]
      "Quantity" Samples.valueX.
Proof.
  intros (_ & i & s & t & requests & new & Ht & Hfst & Hres & (Hi & Haddr & _)
          & Htypes & _ & _ & _ & _ & Hnew).
  destruct Hnew as (targetSlots & valueSlots & -> & [Hnone _] & (_ & Hslots & _)); [done|].
  destruct requests as [|[q r] [|? ?]]; try done. injection Hfst as ->.
  specialize (Hres _ (list_elem_of_here _ _)). vm_compute in Hres. injection Hres as <-.
  vm_compute in Ht. injection Ht as <-.
  destruct i as [|[|[|[|i]]]]; try done; injection Hi as <-; try (by vm_compute in Haddr).
  rewrite (Hnone eq_refl) in Htypes. simpl in Htypes.
  apply (app_inv_tail _ [Samples.plain "Quantity"]) in Htypes. subst valueSlots.
  destruct (Hslots _ (list_elem_of_here _ _)) as (_ & _ & _ & Hprofile).
  by vm_compute in Hprofile.
Qed.

Example unchanged_targets_are_not_narrowed :
  ¬ narrowedInPlace Samples.resolve 10 Samples.actionDefinition
      [Samples.onlyCanonical "shareableplandefinition";
       Samples.onlyCanonical "computableplandefinition"]
      "PlanDefinition" Samples.actionDefinition.
Proof.
  intros (_ & i & s & t & requests & new & Ht & Hfst & Hres & (Hi & Haddr & _)
          & Htypes & _ & _ & _ & _ & Hnew).
  destruct Hnew as (targetSlots & valueSlots & -> & (_ & Hone & _) & (_ & Hslots & _));
    [done|].
  destruct requests as [|[q1 r1] [|[q2 r2] [|? ?]]]; try done.
  injection Hfst as -> ->.
  vm_compute in Ht. injection Ht as <-.
  destruct i as [|[|i]]; try done; injection Hi as <-; try (by vm_compute in Haddr).
  destruct valueSlots as [|n valueSlots].
  - rewrite app_nil_r in Htypes. simpl in Htypes.
    destruct Hone as (s' & -> & _ & _ & _ & _ & Hsplit); [done|].
    injection Htypes as <-.
    specialize (Hsplit [Samples.fhir "ActivityDefinition"] [Samples.fhir "Questionnaire"]
                  eq_refl).
    discriminate Hsplit.
    + by intros [=]%list_elem_of_singleton.
    + by intros [=]%list_elem_of_singleton.
  - destruct (Hslots n (list_elem_of_here _ _)) as (_ & _ & (qr & Hqr & _) & _).
    by apply elem_of_nil in Hqr.
Qed.

(** ** The export scheduler *)

Lemma omap_map_Some {A B C} (f : B → option C) (g : A → B) (h : A → C) (l : list A) :
  (∀ x, f (g x) = Some (h x)) → omap f (map g l) = h <$> l.
Proof.
  intros Hfg. induction l as [|x l IH]; [done|].
  change (omap f (map g (x :: l)))
    with (match f (g x) with Some y => y :: omap f (map g l) | None => omap f (map g l) end).
  by rewrite Hfg, IH.
Qed.

(** The requests are the entities of [getAllStructureDefinitions], in its order. *)
Lemma requested_getAllStructureDefinitions (tank : FSHTank) :
  omap (fun e => structureOf (Some e)) (getAllStructureDefinitions tank) = requested tank.
Proof.
  unfold getAllStructureDefinitions, requested.
  rewrite !omap_app.
  rewrite (omap_map_Some _ EProfile (fun s => (TProfile, s))) by done.
  rewrite (omap_map_Some _ EExtension (fun s => (TExtension, s))) by done.
  rewrite (omap_map_Some _ ELogical (fun s => (TLogical, s))) by done.
  by rewrite (omap_map_Some _ EResource (fun s => (TResource, s))).
Qed.

Lemma fish_some_types (getUrl : Entity -> string -> string) (tank : FSHTank)
    (item : string) (types : list FishType) :
  types ≠ [] →
  fish getUrl tank item types
  = fishLoop getUrl tank (default item (resolveAlias tank item)) types.
Proof.
  intros Hne. unfold fish. destruct (decide (length types = 0)) as [Hlen|_]; [|done].
  by destruct types.
Qed.

Lemma fishCase_origin (getUrl : Entity -> string -> string) (tank : FSHTank)
    (item : string) (k : FishType) (e : Entity) :
  fishCase getUrl tank item k = Some e →
  e ∈ directEntities tank k ∨ ∃ i, e = EInstance i.
Proof.
  rewrite fishCase_split.
  destruct (directSearch getUrl tank item k) as [r|] eqn:Hdirect.
  - intros [= <-]. left. by apply directSearch_Some in Hdirect as [? _].
  - destruct (masquerade getUrl tank item k) as [p|]; [|done].
    destruct (find p (getAllInstances tank)) as [i|]; [|done].
    intros [= <-]. right. by exists i.
Qed.

(** A parent found in the tank is one of the requested entities. *)
Lemma authoredParent_requested (tank : FSHTank) (parentName : string)
    (k : FishType) (sd : FshStructure) :
  authoredParent tank parentName = Some (k, sd) → (k, sd) ∈ requested tank.
Proof.
  unfold authoredParent.
  destruct (fish getUrlFromFshDefinition_spec tank parentName structureTypes)
    as [e|] eqn:Hfish; [|done].
  rewrite fish_some_types in Hfish by done.
  apply fishLoop_Some_inv in Hfish as (pre & k0 & post & _ & _ & Hcase).
  apply fishCase_origin in Hcase as [Hin|[i ->]]; [|done].
  unfold requested. rewrite !elem_of_app.
  destruct e; simpl; intros [= <- <-];
    destruct k0; simpl in Hin;
    try (by apply elem_of_nil in Hin);
    apply list_elem_of_In, in_map_iff in Hin as (x & [= <-] & Hx%list_elem_of_In);
    rewrite !list_elem_of_fmap; naive_solver.
Qed.

Section ExportFacts.

Variable resolve : string -> option TypeRecord.
Variable maxDepth : nat.
Variable snapshotOf : TypeRecord -> list ElementDefinition.
Variable universalBase : TypeRecord.
Variable applyRule : Rule -> list ElementDefinition -> RuleOutcome.
Variable tank : FSHTank.

Hypothesis keys_unique : NoDup (keyOf <$> requested tank).

Local Abbreviation Inv := (ExportInv resolve maxDepth snapshotOf universalBase applyRule tank).
Local Abbreviation step := (exportStructDef resolve maxDepth snapshotOf universalBase applyRule tank).
Local Abbreviation settle' := (settle resolve maxDepth applyRule tank).
Local Abbreviation finish' := (finish resolve maxDepth applyRule tank).
Local Abbreviation ownParent' := (ownParent resolve snapshotOf universalBase).
Local Abbreviation exportsAt' :=
  (exportsAt resolve maxDepth snapshotOf universalBase applyRule tank).
Local Abbreviation above :=
  (aboveInProgress resolve maxDepth snapshotOf universalBase applyRule tank).

Lemma requested_key_inj (x y : FishType * FshStructure) :
  x ∈ requested tank → y ∈ requested tank → keyOf x = keyOf y → x = y.
Proof.
  intros [i Hi]%list_elem_of_lookup_1 [j Hj]%list_elem_of_lookup_1 Hkey.
  assert (i = j) as ->.
  { eapply (NoDup_lookup _ i j (keyOf x) keys_unique);
      rewrite list_lookup_fmap; [by rewrite Hi|by rewrite Hj, Hkey]. }
  congruence.
Qed.

Lemma initialState_inv : Inv initialState.
Proof.
  split; simpl.
  - intros key [s Hs]. by rewrite lookup_empty in Hs.
  - intros a Ha. by apply elem_of_nil in Ha.
  - intros key a Hs. by rewrite lookup_empty in Hs.
  - constructor.
  - intros key Hs. by rewrite lookup_empty in Hs.
  - intros k sd r _ _ Hs. by rewrite lookup_empty in Hs.
  - intros n k sd a r _ _ Hs. by rewrite lookup_empty in Hs.
  - intros i a k sd parentName k' p Hi. by rewrite lookup_nil in Hi.
Qed.

(** A lookup after an insertion: at the inserted key, or at another one. *)
Ltac inserted_or_other key key' :=
  destruct (decide (key = key')) as [<-|?];
  [rewrite ?lookup_insert_eq|rewrite ?lookup_insert_ne by done].

Lemma markInProgress_inv (key : Key) (st : ExportState) :
  Inv st → cache st !! key = None → key ∈ keyOf <$> requested tank →
  Inv (markInProgress key st).
Proof.
  intros [Hdom Hec Hce Hnd Hfl Hsa Hex Hpf] Hnone Hkey. split; simpl.
  - intros key' [s Hs]. destruct (decide (key = key')) as [<-|Hne]; [done|].
    rewrite lookup_insert_ne in Hs by done. apply Hdom. by exists s.
  - intros a Ha. rewrite lookup_insert_ne; [by apply Hec|].
    intros ->. rewrite (Hec a Ha) in Hnone. done.
  - intros key' a. inserted_or_other key key'; [done|apply Hce].
  - done.
  - intros key'. inserted_or_other key key'; [done|apply Hfl].
  - intros k sd r Hin Hsd. inserted_or_other key (k, sd_name sd); [done|by apply Hsa].
  - intros n k sd a r Hin Hexp.
    inserted_or_other key (k, sd_name sd); [done|by apply (Hex n)].
  - done.
Qed.

Lemma pending_markInProgress (key : Key) (st : ExportState) :
  cache st !! key = None → key ∈ keyOf <$> requested tank →
  (pending tank (markInProgress key st) < pending tank st)%nat.
Proof.
  intros Hnone%not_elem_of_dom Hkey. unfold pending. simpl.
  apply subset_size. rewrite dom_insert_L.
  apply (elem_of_list_to_set (C := gset Key)) in Hkey.
  split.
  - intros key' [Hin Hnot]%elem_of_difference. apply elem_of_difference.
    split; [done|]. intros Hdom. apply Hnot, elem_of_union. by right.
  - intros Hsub. assert (key ∈ list_to_set (keyOf <$> requested tank) ∖ dom (cache st))
      as Hdiff by (by apply elem_of_difference).
    apply Hsub, elem_of_difference in Hdiff as [_ Hnot].
    apply Hnot, elem_of_union. left. by apply elem_of_singleton.
Qed.

Lemma pending_mono (st st' : ExportState) :
  (∀ key, is_Some (cache st !! key) → is_Some (cache st' !! key)) →
  (pending tank st' ≤ pending tank st)%nat.
Proof.
  intros Hdom. unfold pending. apply subseteq_size.
  intros key [Hkey Hnot]%elem_of_difference. apply elem_of_difference.
  split; [done|]. intros Hin%elem_of_dom. apply Hnot, elem_of_dom. by apply Hdom.
Qed.

Lemma settle_key (k : FishType) (sd : FshStructure)
    (parent : ExportError + string * list ElementDefinition)
    (a : StructureDefinition) (log : list Diagnostic) :
  settle' k sd parent = (inr a, log) → art_key a = (k, sd_name sd).
Proof.
  unfold settle. destruct parent as [e|[base inherited]]; [done|].
  destruct (applyRules _ _ _ _ _ _ _ _) as [[els|] log']; [|done].
  by intros [= <- _].
Qed.

(** Finishing an entity that is in progress. *)
Lemma finish_inv (k : FishType) (sd : FshStructure)
    (parent : ExportError + string * list ElementDefinition) (st : ExportState) :
  Inv st → (k, sd) ∈ requested tank →
  cache st !! (k, sd_name sd) = Some InProgress →
  (standalone tank sd → parent = ownParent' sd) →
  (∀ n a, exportsAt' n k sd a → (settle' k sd parent).1 = inr a) →
  (∀ parentName k' p,
      sd_parent sd = Some parentName →
      authoredParent tank parentName = Some (k', p) →
      parent = fromParent parentName (cache st !! (k', sd_name p))) →
  Inv (finish' k sd parent st)
  ∧ ∃ r, cache (finish' k sd parent st) = <[(k, sd_name sd) := Done r]> (cache st).
Proof.
  intros [Hdom Hec Hce Hnd Hfl Hsa Hex Hpf] Hin Hprog Hown Hexp Hfrom.
  assert ((k, sd_name sd) ∈ keyOf <$> requested tank) as Hkey.
  { apply list_elem_of_fmap. by exists (k, sd). }
  unfold finish.
  destruct (settle' k sd parent) as [[e|a] log] eqn:Hsettle.
  - (* done with an error *)
    split; [|by exists None]. split; simpl.
    + intros key [s Hs]. destruct (decide ((k, sd_name sd) = key)) as [<-|Hne]; [done|].
      rewrite lookup_insert_ne in Hs by done. apply Hdom. by exists s.
    + intros a Ha. rewrite lookup_insert_ne; [by apply Hec|].
      intros Heq. rewrite Heq, (Hec a Ha) in Hprog. done.
    + intros key a. inserted_or_other (k, sd_name sd) key; [done|apply Hce].
    + done.
    + intros key. rewrite !omap_app, !elem_of_app.
      inserted_or_other (k, sd_name sd) key.
      * intros _. right. right. simpl. constructor.
      * intros Hs. left. by apply Hfl.
    + intros k0 sd0 r Hin0 Hsd0.
      destruct (decide ((k, sd_name sd) = (k0, sd_name sd0))) as [Heq|Hne].
      * rewrite <- Heq, lookup_insert_eq. intros [= <-].
        assert ((k0, sd0) = (k, sd)) as [= -> ->].
        { by apply requested_key_inj. }
        unfold ownResult. rewrite <- (Hown Hsd0), Hsettle. done.
      * rewrite lookup_insert_ne by done. by apply Hsa.
    + intros n k0 sd0 a0 r Hin0 Hexp0.
      destruct (decide ((k, sd_name sd) = (k0, sd_name sd0))) as [Heq|Hne].
      * rewrite <- Heq, lookup_insert_eq. intros [= <-].
        assert ((k0, sd0) = (k, sd)) as [= -> ->].
        { by apply requested_key_inj. }
        apply Hexp in Hexp0. simpl in Hexp0. congruence.
      * rewrite lookup_insert_ne by done. by apply (Hex n).
    + done.
  - (* done with an artifact *)
    pose proof (settle_key k sd parent a log Hsettle) as Hakey.
    split; [|by exists (Some a)]. split; simpl.
    + intros key [s Hs]. destruct (decide ((k, sd_name sd) = key)) as [<-|Hne]; [done|].
      rewrite lookup_insert_ne in Hs by done. apply Hdom. by exists s.
    + intros a' [Ha'| ->%list_elem_of_singleton]%elem_of_app.
      * rewrite lookup_insert_ne; [by apply Hec|].
        intros Heq. rewrite Heq, (Hec a' Ha') in Hprog. done.
      * by rewrite Hakey, lookup_insert_eq.
    + intros key a'. destruct (decide ((k, sd_name sd) = key)) as [<-|Hne].
      * rewrite lookup_insert_eq. intros [= <-]. split; [|done].
        apply elem_of_app. right. constructor.
      * rewrite lookup_insert_ne by done. intros [? ?]%Hce. split; [|done].
        apply elem_of_app. by left.
    + rewrite fmap_app. apply NoDup_app. split_and!; [done| |apply NoDup_singleton].
      intros key (a' & -> & Ha')%list_elem_of_fmap Heq%list_elem_of_singleton.
      rewrite <- Hakey, <- Heq, (Hec a' Ha') in Hprog. done.
    + intros key. rewrite omap_app, elem_of_app.
      inserted_or_other (k, sd_name sd) key; [done|].
      intros Hs. left. by apply Hfl.
    + intros k0 sd0 r Hin0 Hsd0.
      destruct (decide ((k, sd_name sd) = (k0, sd_name sd0))) as [Heq|Hne].
      * rewrite <- Heq, lookup_insert_eq. intros [= <-].
        assert ((k0, sd0) = (k, sd)) as [= -> ->].
        { by apply requested_key_inj. }
        unfold ownResult. rewrite <- (Hown Hsd0), Hsettle. done.
      * rewrite lookup_insert_ne by done. by apply Hsa.
    + intros n k0 sd0 a0 r Hin0 Hexp0.
      destruct (decide ((k, sd_name sd) = (k0, sd_name sd0))) as [Heq|Hne].
      * rewrite <- Heq, lookup_insert_eq. intros [= <-].
        assert ((k0, sd0) = (k, sd)) as [= -> ->].
        { by apply requested_key_inj. }
        apply Hexp in Hexp0. simpl in Hexp0. congruence.
      * rewrite lookup_insert_ne by done. by apply (Hex n).
    + intros i a0 k0 sd0 parentName k' p Hi Hin0 Hkey0 Hparent Hauthored.
      apply lookup_app_Some in Hi as [Hi|[Hlen Hi]].
      * destruct (Hpf i a0 k0 sd0 parentName k' p Hi Hin0 Hkey0 Hparent Hauthored)
          as (j & a' & Hj & Ha' & Hkey' & Hbase).
        exists j, a'. split_and!; try done. by apply lookup_app_l_Some.
      * apply list_lookup_singleton_Some in Hi as [Hi <-].
        assert ((k0, sd0) = (k, sd)) as [= -> ->].
        { apply requested_key_inj; try done. unfold keyOf. simpl. congruence. }
        pose proof (Hfrom parentName k' p Hparent Hauthored) as Hparent'.
        unfold settle in Hsettle. rewrite Hparent' in Hsettle.
        destruct (cache st !! (k', sd_name p)) as [[|[a'|]]|] eqn:Hstatus;
          simpl in Hsettle; try done.
        destruct (applyRules _ _ _ _ _ _ _ _) as [[els|] log']; [|done].
        injection Hsettle as <- _.
        apply Hce in Hstatus as [[j Hj]%list_elem_of_lookup_1 Hkey'].
        exists j, a'. split_and!; [|by apply lookup_app_l_Some|done|done].
        apply lookup_lt_Some in Hj. lia.
Qed.

Lemma exportStructDef_S (fuel : nat) (k : FishType) (sd : FshStructure)
    (st : ExportState) :
  step (S fuel) k sd st =
    match cache st !! (k, sd_name sd) with
    | Some _ => Some st
    | None =>
        match sd_parent sd with
        | None =>
            Some (finish' k sd (inr (tr_url universalBase, snapshotOf universalBase))
                    (markInProgress (k, sd_name sd) st))
        | Some parentName =>
            match authoredParent tank parentName with
            | Some (k', p) =>
                match cache (markInProgress (k, sd_name sd) st) !! (k', sd_name p) with
                | Some status =>
                    Some (finish' k sd (fromParent parentName (Some status))
                            (markInProgress (k, sd_name sd) st))
                | None =>
                    match step fuel k' p (markInProgress (k, sd_name sd) st) with
                    | Some st' =>
                        Some (finish' k sd
                                (fromParent parentName (cache st' !! (k', sd_name p))) st')
                    | None => None
                    end
                end
            | None =>
                Some (finish' k sd (externalParent resolve snapshotOf parentName)
                        (markInProgress (k, sd_name sd) st))
            end
        end
    end.
Proof. reflexivity. Qed.

(** An entity in progress that the requested entity waits for, in turn,
    cannot be exported on its own account. *)
Lemma aboveInProgress_not_self (st : ExportState) (k : FishType) (sd : FshStructure) :
  above st k sd → (k, sd) ∈ requested tank →
  cache st !! (k, sd_name sd) = Some InProgress →
  ∀ n a, ¬ exportsAt' n k sd a.
Proof.
  intros Habove Hin Hprog n.
  induction n as [n IH] using lt_wf_ind. intros a Hexp.
  destruct (Habove k sd n a Hin Hprog Hexp) as (m & a' & Hexp' & Hlt).
  by apply (IH m Hlt a').
Qed.

(** One request: the entity ends up done, every older entry of the cache
    is kept, and no entity is left in progress that was not so before. *)
Lemma exportStructDef_step (fuel : nat) :
  ∀ (k : FishType) (sd : FshStructure) (st : ExportState),
    Inv st → (k, sd) ∈ requested tank → (pending tank st < fuel)%nat →
    above st k sd →
    ∃ st', step fuel k sd st = Some st'
      ∧ Inv st'
      ∧ (∀ key s, cache st !! key = Some s → cache st' !! key = Some s)
      ∧ (∀ key, cache st' !! key = Some InProgress → cache st !! key = Some InProgress)
      ∧ (cache st !! (k, sd_name sd) = None →
           ∃ r, cache st' !! (k, sd_name sd) = Some (Done r)).
Proof.
  induction fuel as [|fuel IH]; intros k sd st HInv Hin Hfuel Habove; [lia|].
  rewrite exportStructDef_S.
  destruct (cache st !! (k, sd_name sd)) as [s|] eqn:Hkey.
  { exists st. by split_and!. }
  assert ((k, sd_name sd) ∈ keyOf <$> requested tank) as Hreq.
  { apply list_elem_of_fmap. by exists (k, sd). }
  set (st1 := markInProgress (k, sd_name sd) st).
  pose proof (markInProgress_inv _ st HInv Hkey Hreq) as HInv1.
  pose proof (pending_markInProgress _ st Hkey Hreq) as Hpending1.
  fold st1 in HInv1, Hpending1.
  assert (cache st1 !! (k, sd_name sd) = Some InProgress) as Hprog1.
  { apply lookup_insert_eq. }
  assert (∀ key s, cache st !! key = Some s → cache st1 !! key = Some s) as Hkeep1.
  { intros key s Hs. simpl. rewrite lookup_insert_ne; [done|]. congruence. }
  assert (∀ key, cache st1 !! key = Some InProgress →
                 key = (k, sd_name sd) ∨ cache st !! key = Some InProgress) as Hprog1'.
  { intros key. simpl. destruct (decide ((k, sd_name sd) = key)) as [<-|Hne]; [by left|].
    rewrite lookup_insert_ne by done. by right. }
  (* what remains once the parent is settled on a state [st2] *)
  assert (∀ parent st2,
            Inv st2 →
            cache st2 !! (k, sd_name sd) = Some InProgress →
            (standalone tank sd → parent = ownParent' sd) →
            (∀ n a, exportsAt' n k sd a → (settle' k sd parent).1 = inr a) →
            (∀ parentName k' p,
                sd_parent sd = Some parentName →
                authoredParent tank parentName = Some (k', p) →
                parent = fromParent parentName (cache st2 !! (k', sd_name p))) →
            (∀ key s, cache st1 !! key = Some s → cache st2 !! key = Some s) →
            (∀ key, cache st2 !! key = Some InProgress →
                    cache st1 !! key = Some InProgress) →
            ∃ st', Some (finish' k sd parent st2) = Some st'
              ∧ Inv st'
              ∧ (∀ key s, cache st !! key = Some s → cache st' !! key = Some s)
              ∧ (∀ key, cache st' !! key = Some InProgress →
                        cache st !! key = Some InProgress)
              ∧ (None = None :> option Status →
                   ∃ r, cache st' !! (k, sd_name sd) = Some (Done r)))
    as Hfinish.
  { intros parent st2 HInv2 Hprog2 Hown Hexp Hfrom Hkeep2 Hnew2.
    destruct (finish_inv k sd parent st2 HInv2 Hin Hprog2 Hown Hexp Hfrom)
      as [HInv3 [r Hcache3]].
    eexists. split; [reflexivity|]. rewrite Hcache3. split_and!; [done| | |].
    - intros key s Hs. rewrite lookup_insert_ne; [by apply Hkeep2, Hkeep1|]. congruence.
    - intros key. destruct (decide ((k, sd_name sd) = key)) as [<-|Hne].
      + by rewrite lookup_insert_eq.
      + rewrite lookup_insert_ne by done. intros Hs%Hnew2%Hprog1'.
        by destruct Hs as [->|Hs].
    - intros _. exists r. apply lookup_insert_eq. }
  destruct (sd_parent sd) as [parentName|] eqn:Hparent.
  - destruct (authoredParent tank parentName) as [[k' p]|] eqn:Hauthored.
    + assert (¬ standalone tank sd) as Hdep.
      { unfold standalone. rewrite Hparent, Hauthored. done. }
      pose proof (authoredParent_requested _ _ _ _ Hauthored) as Hpin.
      (* an exportable entity has an exportable parent *)
      assert (∀ n a, exportsAt' n k sd a →
                ∃ m a', n = S m ∧ exportsAt' m k' p a'
                        ∧ (settle' k sd (inr (art_url a', art_elements a'))).1 = inr a)
        as Hchild.
      { intros n a Hexp. inversion Hexp as [? ? ? Hsd|m ? ? pn k'' p' a' ? Hpn Hauth Hp Hset];
          subst; [done|].
        rewrite Hparent in Hpn. injection Hpn as <-.
        rewrite Hauthored in Hauth. injection Hauth as <- <-.
        by exists m, a'. }
      assert (above st1 k' p) as Habove1.
      { intros k0 sd0 n0 a0 Hin0 Hprog0 Hexp0.
        destruct (Hprog1' _ Hprog0) as [Heq|Hprog0'].
        - assert ((k0, sd0) = (k, sd)) as [= -> ->] by (by apply requested_key_inj).
          destruct (Hchild n0 a0 Hexp0) as (m & a' & -> & Hp & _).
          exists m, a'. split; [done|lia].
        - destruct (Habove k0 sd0 n0 a0 Hin0 Hprog0' Hexp0) as (n & a & Hexp & Hlt).
          destruct (Hchild n a Hexp) as (m & a' & -> & Hp & _).
          exists m, a'. split; [done|lia]. }
      fold st1.
      destruct (cache st1 !! (k', sd_name p)) as [status|] eqn:Hstatus.
      * apply Hfinish; try done.
        -- intros n a Hexp. destruct (Hchild n a Hexp) as (m & a' & -> & Hp & Hset).
           destruct status as [|r].
           ++ by destruct (aboveInProgress_not_self st1 k' p Habove1 Hpin Hstatus m a').
           ++ rewrite (inv_exports _ _ _ _ _ _ _ HInv1 m k' p a' r Hpin Hp Hstatus). done.
        -- intros pn k0 p0 [= <-] Hauth. rewrite Hauthored in Hauth.
           injection Hauth as <- <-. by rewrite Hstatus.
      * destruct (IH k' p st1 HInv1 Hpin) as (st2 & -> & HInv2 & Hkeep2 & Hnew2 & Hdone2);
          [lia|done|].
        destruct (Hdone2 Hstatus) as [r Hr].
        apply Hfinish; try done; [by apply Hkeep2| |].
        -- intros n a Hexp. destruct (Hchild n a Hexp) as (m & a' & -> & Hp & Hset).
           rewrite Hr, (inv_exports _ _ _ _ _ _ _ HInv2 m k' p a' r Hpin Hp Hr). done.
        -- intros pn k0 p0 [= <-] Hauth. rewrite Hauthored in Hauth.
           by injection Hauth as <- <-.
    + apply Hfinish; try done.
      * unfold standalone, ownParent. by rewrite Hparent.
      * intros n a Hexp.
        inversion Hexp as [? ? ? Hsd Hset|m ? ? pn k'' p' a' ? Hpn Hauth Hp Hset]; subst.
        -- unfold ownParent in Hset. by rewrite Hparent in Hset.
        -- rewrite Hparent in Hpn. injection Hpn as <-. congruence.
      * intros pn k0 p0 [= <-] Hauth. congruence.
  - apply Hfinish; try done.
    + unfold standalone, ownParent. by rewrite Hparent.
    + intros n a Hexp.
      inversion Hexp as [? ? ? Hsd Hset|m ? ? pn k'' p' a' ? Hpn Hauth Hp Hset]; subst.
      * unfold ownParent in Hset. by rewrite Hparent in Hset.
      * congruence.
Qed.

(** The whole run. *)
Lemma exportAll_run (fuel : nat) (requests : list (FishType * FshStructure)) :
  ∀ st,
    Inv st → (∀ x, x ∈ requests → x ∈ requested tank) →
    (pending tank st < fuel)%nat →
    (∀ key, cache st !! key ≠ Some InProgress) →
    ∃ st',
      exportAll resolve maxDepth snapshotOf universalBase applyRule tank fuel requests st
      = Some st'
      ∧ Inv st'
      ∧ (∀ key s, cache st !! key = Some s → cache st' !! key = Some s)
      ∧ (∀ key, cache st' !! key ≠ Some InProgress)
      ∧ (∀ x, x ∈ requests → ∃ r, cache st' !! keyOf x = Some (Done r)).
Proof.
  induction requests as [|[k sd] requests IH]; intros st HInv Hreq Hfuel Hidle.
  - exists st. split_and!; try done. intros x Hx. by apply elem_of_nil in Hx.
  - simpl.
    destruct (exportStructDef_step fuel k sd st HInv)
      as (st1 & -> & HInv1 & Hkeep1 & Hnew1 & Hdone1);
      [apply Hreq; constructor|done| |].
    { intros k0 sd0 n0 a0 _ Hprog _. by destruct (Hidle _ Hprog). }
    assert (∀ key, cache st1 !! key ≠ Some InProgress) as Hidle1.
    { intros key Hs. by apply (Hidle key), Hnew1. }
    destruct (IH st1 HInv1) as (st2 & -> & HInv2 & Hkeep2 & Hidle2 & Hdone2).
    + intros x Hx. apply Hreq. by constructor.
    + assert (pending tank st1 ≤ pending tank st)%nat; [|lia].
      apply pending_mono. intros key [s Hs]. exists s. by apply Hkeep1.
    + done.
    + exists st2. split_and!; try done.
      * intros key s Hs. by apply Hkeep2, Hkeep1.
      * intros x [->|Hx]%elem_of_cons; [|by apply Hdone2].
        simpl. destruct (cache st !! (k, sd_name sd)) as [[|r]|] eqn:Hs.
        -- by destruct (Hidle (k, sd_name sd)).
        -- exists r. by apply Hkeep2, Hkeep1.
        -- destruct (Hdone1 eq_refl) as [r Hr]. exists r. by apply Hkeep2.
Qed.

Lemma export_run :
  ∃ st,
    export resolve maxDepth snapshotOf universalBase applyRule tank = Some st
    ∧ Inv st
    ∧ (∀ x, x ∈ requested tank → ∃ r, cache st !! keyOf x = Some (Done r)).
Proof.
  destruct (exportAll_run (S (length (requested tank))) (requested tank) initialState)
    as (st & Hrun & HInv & _ & _ & Hdone).
  - apply initialState_inv.
  - done.
  - unfold pending.
    assert (size (list_to_set (keyOf <$> requested tank) ∖ dom (cache initialState)
                  : gset Key)
            ≤ size (list_to_set (keyOf <$> requested tank) : gset Key))%nat as Hle.
    { apply subseteq_size. intros key [? _]%elem_of_difference. done. }
    rewrite size_list_to_set, length_fmap in Hle by done. lia.
  - intros key. simpl. by rewrite lookup_empty.
  - exists st. by split_and!.
Qed.

Lemma requested_NoDup : NoDup (requested tank).
Proof. by apply (NoDup_fmap_1 keyOf). Qed.

Lemma keys_of_filter_NoDup (P : FishType * FshStructure → Prop)
    `{∀ x, Decision (P x)} :
  NoDup (keyOf <$> filter P (requested tank)).
Proof.
  apply NoDup_fmap_2_strong.
  - intros x y [_ Hx]%list_elem_of_filter [_ Hy]%list_elem_of_filter.
    by apply requested_key_inj.
  - apply NoDup_filter, requested_NoDup.
Qed.

(** Artifacts and entities done without error correspond one to one. *)
Lemma exported_count (st : ExportState) :
  Inv st →
  (∀ x, x ∈ requested tank → ∃ r, cache st !! keyOf x = Some (Done r)) →
  length (exported st)
  = length (filter (fun x => ¬ isFailed (cache st !! keyOf x) = true) (requested tank)).
Proof.
  intros [Hdom Hec Hce Hnd _ _] Hdone.
  rewrite <- (length_fmap art_key (exported st)).
  rewrite <- (length_fmap keyOf (filter _ (requested tank))).
  apply Permutation_length, NoDup_Permutation; [done|apply keys_of_filter_NoDup|].
  intros key. rewrite !list_elem_of_fmap. split.
  - intros (a & -> & Ha). pose proof (Hec a Ha) as Hcache.
    assert (art_key a ∈ keyOf <$> requested tank) as (x & Hkey & Hx)%list_elem_of_fmap.
    { apply Hdom. by eexists. }
    exists x. split; [done|]. apply list_elem_of_filter. split; [|done].
    rewrite <- Hkey, Hcache. done.
  - intros (x & -> & [Hok Hx]%list_elem_of_filter).
    destruct (Hdone x Hx) as [[a|] Hr]; rewrite Hr in Hok; [|done].
    apply Hce in Hr as [Ha Hkey]. exists a. by split.
Qed.

End ExportFacts.

Lemma length_omap_le {A B} (f : A → option B) (l : list A) :
  (length (omap f l) ≤ length l)%nat.
Proof.
  induction l as [|x l IH]; [done|].
  change (omap f (x :: l)) with (match f x with Some y => y :: omap f l | None => omap f l end).
  destruct (f x); simpl length; lia.
Qed.

(** C4.  A run over the N requested entities always comes to an end, with
    every entity done.  With K the number of entities done with an error,
    it yields exactly N − K artifacts and at least K diagnostics: each
    failing entity has its failure in the log and no artifact in the result
    set, each other entity has its artifact there, and the export of an
    entity whose own rules and chain of parents raise no failure goes
    through whatever happens to the other entities (an entity that depends
    on no authored structure is done with the result of its own parent
    resolution and rules). *)
Theorem export_isolates_failures (resolve : string -> option TypeRecord)
    (maxDepth : nat) (snapshotOf : TypeRecord -> list ElementDefinition)
    (universalBase : TypeRecord) (applyRule : Rule -> list ElementDefinition -> RuleOutcome)
    (tank : FSHTank) :
  NoDup (keyOf <$> requested tank) →
  ∃ st,
    export resolve maxDepth snapshotOf universalBase applyRule tank = Some st
    ∧ (∀ x, x ∈ requested tank → ∃ r, cache st !! keyOf x = Some (Done r))
    ∧ length (exported st)
      = (length (requested tank) - length (failing tank st))%nat
    ∧ (length (failing tank st) ≤ length (requested tank))%nat
    ∧ (length (failing tank st) ≤ length (diagnostics st))%nat
    ∧ (∀ x, x ∈ failing tank st →
         keyOf x ∈ omap failedEntity (diagnostics st)
         ∧ keyOf x ∉ art_key <$> exported st)
    ∧ (∀ x, x ∈ requested tank → x ∉ failing tank st →
         ∃ a, a ∈ exported st ∧ art_key a = keyOf x)
    ∧ (∀ k sd, (k, sd) ∈ requested tank → standalone tank sd →
         cache st !! (k, sd_name sd)
         = Some (Done (ownResult resolve maxDepth snapshotOf universalBase applyRule
                         tank k sd))
         ∧ ∀ a, ownResult resolve maxDepth snapshotOf universalBase applyRule tank k sd
                = Some a → a ∈ exported st)
    ∧ (∀ n k sd a, (k, sd) ∈ requested tank →
         exportsAt resolve maxDepth snapshotOf universalBase applyRule tank n k sd a →
         a ∈ exported st).
Proof.
  intros Hunique.
  destruct (export_run resolve maxDepth snapshotOf universalBase applyRule tank Hunique)
    as (st & Hexport & HInv & Hdone).
  exists st. split; [done|]. split; [done|].
  pose proof (exported_count resolve maxDepth snapshotOf universalBase applyRule tank
                Hunique st HInv Hdone) as Hcount.
  pose proof (filter_app_complement
                (fun x => isFailed (cache st !! keyOf x) = true) (requested tank)) as Hsplit.
  apply Permutation_length in Hsplit. rewrite length_app in Hsplit.
  fold (failing tank st) in Hsplit.
  destruct HInv as [Hdom Hec Hce Hnd Hfl Hsa Hex _].
  assert (∀ x, x ∈ failing tank st → cache st !! keyOf x = Some (Done None)) as Hfailing.
  { intros x [Hx _]%list_elem_of_filter.
    by destruct (cache st !! keyOf x) as [[|[|]]|]. }
  split_and!.
  - lia.
  - lia.
  - rewrite <- (length_fmap keyOf (failing tank st)).
    etrans; [|apply (length_omap_le failedEntity)].
    apply submseteq_length, NoDup_submseteq.
    + by apply keys_of_filter_NoDup.
    + intros key (x & -> & Hx)%list_elem_of_fmap. by apply Hfl, Hfailing.
  - intros x Hx. pose proof (Hfailing x Hx) as Hcache. split; [by apply Hfl|].
    intros (a & Hkey & Ha)%list_elem_of_fmap.
    rewrite Hkey, (Hec a Ha) in Hcache. done.
  - intros x Hx Hok. destruct (Hdone x Hx) as [[a|] Hr].
    + apply Hce in Hr as [Ha Hkey]. by exists a.
    + destruct Hok. apply list_elem_of_filter. by rewrite Hr.
  - intros k sd Hin Hsd. destruct (Hdone (k, sd) Hin) as [r Hr]. simpl in Hr.
    pose proof (Hsa k sd r Hin Hsd Hr) as <-. split; [done|].
    intros a ->. by apply Hce in Hr as [? _].
  - intros n k sd a Hin Hexp. destruct (Hdone (k, sd) Hin) as [r Hr]. simpl in Hr.
    pose proof (Hex n k sd a r Hin Hexp Hr) as ->. by apply Hce in Hr as [? _].
Qed.

Lemma export_isolates_failures_witness :
  ∃ st,
    export Samples.resolve 10 Samples.noSnapshot Samples.baseType Samples.applyNothing
      Samples.orphanTank = Some st
    ∧ length (exported st)
      = (length (requested Samples.orphanTank)
         - length (failing Samples.orphanTank st))%nat
    ∧ (length (failing Samples.orphanTank st) ≤ length (diagnostics st))%nat.
Proof.
  destruct (export_isolates_failures Samples.resolve 10 Samples.noSnapshot
              Samples.baseType Samples.applyNothing Samples.orphanTank)
    as (st & Hexport & _ & Hcount & _ & Hlog & _).
  - apply (bool_decide_unpack _). vm_compute. exact I.
  - exists st. by split_and!.
Defined.

(** ** Parents before children *)

Lemma string_app_length (a b : string) :
  String.length (a +:+ b) = (String.length a + String.length b)%nat.
Proof. induction a as [|c a IH]; simpl; [done|]. by rewrite IH. Qed.

(** A name is not the canonical URL of an entity with another id of the same length. *)
Lemma url_is_not_a_name (canonical id item : string) :
  String.length id = String.length item → id ≠ item → canonical +:+ id ≠ item.
Proof.
  intros Hlen Hne Heq. pose proof (string_app_length canonical id) as Happ.
  rewrite Heq in Happ. destruct canonical; [done|]. simpl in Happ. lia.
Qed.

(** In a tank without profiles, extensions, instances and aliases, the
    parent named by an item is the logical model that answers to it. *)
Lemma authoredParent_logical (tank : FSHTank) (item : string) (x : FshStructure) :
  getAllProfiles tank = [] → getAllExtensions tank = [] → getAllInstances tank = [] →
  resolveAlias tank item = None →
  x ∈ getAllLogicals tank → sd_name x = item →
  (∀ y, y ∈ getAllLogicals tank →
        directKey getUrlFromFshDefinition_spec tank TLogical (ELogical y) item → y = x) →
  authoredParent tank item = Some (TLogical, x).
Proof.
  intros Hprofiles Hextensions Hinstances Halias Hx Hname Hothers.
  unfold authoredParent. rewrite fish_some_types by done. rewrite Halias. simpl default.
  assert (fishLoop getUrlFromFshDefinition_spec tank item
            ([TProfile; TExtension] ++ TLogical :: [TResource])
          = Some (ELogical x)) as Hloop.
  { apply fishLoop_first.
    - intros k [->|[->|[]%elem_of_nil]%elem_of_cons]%elem_of_cons;
        rewrite fishCase_split; unfold directSearch, masquerade; simpl;
        by rewrite ?Hprofiles, ?Hextensions, Hinstances.
    - apply fishCase_direct.
      destruct (directSearch_finds getUrlFromFshDefinition_spec tank item TLogical
                  (ELogical x)) as (r & Hr & Hin & Hkey).
      + simpl. apply list_elem_of_In, in_map, list_elem_of_In, Hx.
      + simpl. by left.
      + rewrite Hr. f_equal.
        simpl in Hin. apply list_elem_of_In, in_map_iff in Hin as (y & <- & Hy).
        f_equal. apply Hothers; [by apply list_elem_of_In|done]. }
  unfold structureTypes. simpl app in Hloop. by rewrite Hloop.
Qed.

Section ExportOrder.

Variable resolve : string -> option TypeRecord.
Variable maxDepth : nat.
Variable snapshotOf : TypeRecord -> list ElementDefinition.
Variable universalBase : TypeRecord.
Variable applyRule : Rule -> list ElementDefinition -> RuleOutcome.
Variable tank : FSHTank.

Local Abbreviation Inv := (ExportInv resolve maxDepth snapshotOf universalBase applyRule tank).

Lemma exported_index_inj (st : ExportState) (i j : nat) (a a' : StructureDefinition) :
  Inv st → exported st !! i = Some a → exported st !! j = Some a' →
  art_key a = art_key a' → i = j.
Proof.
  intros HInv Hi Hj Hkey.
  apply (NoDup_lookup _ i j (art_key a) (inv_exported_nodup _ _ _ _ _ _ _ HInv));
    rewrite list_lookup_fmap; [by rewrite Hi|by rewrite Hj, Hkey].
Qed.

(** The artifact of an authored parent stands before the artifact of its
    child, and is the child's base definition. *)
Lemma parent_before_child (st : ExportState) (k : FishType) (sd : FshStructure)
    (parentName : string) (k' : FishType) (p : FshStructure) (i j : nat)
    (a a' : StructureDefinition) :
  Inv st → (k, sd) ∈ requested tank →
  sd_parent sd = Some parentName → authoredParent tank parentName = Some (k', p) →
  exported st !! i = Some a → art_key a = (k, sd_name sd) →
  exported st !! j = Some a' → art_key a' = (k', sd_name p) →
  (j < i)%nat ∧ art_baseDefinition a = art_url a'.
Proof.
  intros HInv Hin Hparent Hauthored Hi Hkey Hj Hkey'.
  destruct (inv_parent_first _ _ _ _ _ _ _ HInv i a k sd parentName k' p
              Hi Hin Hkey Hparent Hauthored) as (j' & a'' & Hlt & Hj' & Hkey'' & Hbase).
  assert (j' = j) as ->.
  { apply (exported_index_inj st j' j a'' a'); try done. congruence. }
  rewrite Hj in Hj'. injection Hj' as <-. done.
Qed.

End ExportOrder.

(** C3.  A tank that declares the three logical models Foo (no parent),
    Bar (parent Foo) and Baz (parent Bar), in any order and over any files,
    and no other structure, instance or alias, is exported as the artifacts
    Foo, Bar, Baz in this order; the base definition of Bar is the canonical
    url of Foo and the base definition of Baz the canonical url of Bar. *)
Theorem export_logical_chain_in_parent_order (resolve : string -> option TypeRecord)
    (maxDepth : nat) (snapshotOf : TypeRecord -> list ElementDefinition)
    (universalBase : TypeRecord) (applyRule : Rule -> list ElementDefinition -> RuleOutcome)
    (tank : FSHTank) :
  getAllProfiles tank = [] → getAllExtensions tank = [] →
  getAllResources tank = [] → getAllInstances tank = [] →
  (∀ name, resolveAlias tank name = None) →
  getAllLogicals tank ≡ₚ [Samples.Foo; Samples.Bar; Samples.Baz] →
  ∃ st foo bar baz,
    export resolve maxDepth snapshotOf universalBase applyRule tank = Some st
    ∧ exported st = [foo; bar; baz]
    ∧ art_name foo = "Foo" ∧ art_name bar = "Bar" ∧ art_name baz = "Baz"
    ∧ art_url foo = canonical (config tank) +:+ "Foo"
    ∧ art_url bar = canonical (config tank) +:+ "Bar"
    ∧ art_baseDefinition foo = tr_url universalBase
    ∧ art_baseDefinition bar = art_url foo
    ∧ art_baseDefinition baz = art_url bar.
Proof.
  intros Hprofiles Hextensions Hresources Hinstances Halias Hperm.
  assert (requested tank = (fun l => (TLogical, l)) <$> getAllLogicals tank) as Hreq.
  { unfold requested. rewrite Hprofiles, Hextensions, Hresources. simpl.
    by rewrite app_nil_r. }
  assert (NoDup (keyOf <$> requested tank)) as Hunique.
  { rewrite Hreq, Hperm. apply (bool_decide_unpack _). vm_compute. exact I. }
  assert (∀ y, y ∈ getAllLogicals tank ↔ y = Samples.Foo ∨ y = Samples.Bar ∨ y = Samples.Baz)
    as Hlogicals.
  { intros y. rewrite Hperm, !elem_of_cons, elem_of_nil. tauto. }
  assert (∀ l, l ∈ getAllLogicals tank → (TLogical, l) ∈ requested tank) as Hrequested.
  { intros l Hl. rewrite Hreq. by apply list_elem_of_fmap_2. }
  assert (authoredParent tank "Foo" = Some (TLogical, Samples.Foo)) as Hfoo.
  { apply authoredParent_logical; try done; [apply Hlogicals; tauto|].
    intros y [->|[->| ->]]%Hlogicals; [done| |];
      intros [Hkey|[Hkey|Hkey]]; try discriminate;
      by apply url_is_not_a_name in Hkey. }
  assert (authoredParent tank "Bar" = Some (TLogical, Samples.Bar)) as Hbar.
  { apply authoredParent_logical; try done; [apply Hlogicals; tauto|].
    intros y [->|[->| ->]]%Hlogicals; [|done|];
      intros [Hkey|[Hkey|Hkey]]; try discriminate;
      by apply url_is_not_a_name in Hkey. }
  set (foo := artifact tank TLogical Samples.Foo (tr_url universalBase)
                (snapshotOf universalBase)).
  set (bar := artifact tank TLogical Samples.Bar (art_url foo) (art_elements foo)).
  set (baz := artifact tank TLogical Samples.Baz (art_url bar) (art_elements bar)).
  assert (exportsAt resolve maxDepth snapshotOf universalBase applyRule tank
            0 TLogical Samples.Foo foo) as Efoo.
  { by apply exports_root. }
  assert (exportsAt resolve maxDepth snapshotOf universalBase applyRule tank
            1 TLogical Samples.Bar bar) as Ebar.
  { by apply (exports_child _ _ _ _ _ _ 0 TLogical Samples.Bar "Foo" TLogical Samples.Foo foo). }
  assert (exportsAt resolve maxDepth snapshotOf universalBase applyRule tank
            2 TLogical Samples.Baz baz) as Ebaz.
  { by apply (exports_child _ _ _ _ _ _ 1 TLogical Samples.Baz "Bar" TLogical Samples.Bar bar). }
  destruct (export_run resolve maxDepth snapshotOf universalBase applyRule tank Hunique)
    as (st & Hexport & HInv & Hdone).
  assert (∀ n l a,
            l ∈ getAllLogicals tank →
            exportsAt resolve maxDepth snapshotOf universalBase applyRule tank n TLogical l a →
            cache st !! (TLogical, sd_name l) = Some (Done (Some a))
            ∧ ∃ i, exported st !! i = Some a) as Hfound.
  { intros n l a Hl Hexp. destruct (Hdone (TLogical, l) (Hrequested l Hl)) as [r Hr].
    simpl in Hr.
    pose proof (inv_exports _ _ _ _ _ _ _ HInv n TLogical l a r (Hrequested l Hl) Hexp Hr)
      as ->.
    split; [done|].
    apply (inv_cache_exported _ _ _ _ _ _ _ HInv) in Hr as [Ha _].
    by apply list_elem_of_lookup_1. }
  destruct (Hfound 0 Samples.Foo foo) as [Cfoo [i Hi]]; [apply Hlogicals; tauto|done|].
  destruct (Hfound 1 Samples.Bar bar) as [Cbar [j Hj]]; [apply Hlogicals; tauto|done|].
  destruct (Hfound 2 Samples.Baz baz) as [Cbaz [m Hm]]; [apply Hlogicals; tauto|done|].
  destruct (parent_before_child resolve maxDepth snapshotOf universalBase applyRule tank
              st TLogical Samples.Bar "Foo" TLogical Samples.Foo j i bar foo)
    as [Hij _]; try done; [apply Hrequested, Hlogicals; tauto|].
  destruct (parent_before_child resolve maxDepth snapshotOf universalBase applyRule tank
              st TLogical Samples.Baz "Bar" TLogical Samples.Bar m j baz bar)
    as [Hjm _]; try done; [apply Hrequested, Hlogicals; tauto|].
  assert (length (exported st) = 3) as Hlength.
  { rewrite (exported_count resolve maxDepth snapshotOf universalBase applyRule tank
               Hunique st HInv Hdone).
    rewrite filter_all.
    - by rewrite Hreq, length_fmap, Hperm.
    - intros [k l]. rewrite Hreq.
      intros (l' & [= -> ->] & [->|[->| ->]]%Hlogicals)%list_elem_of_fmap;
        unfold keyOf; cbn [fst snd]; by rewrite ?Cfoo, ?Cbar, ?Cbaz. }
  pose proof (lookup_lt_Some _ _ _ Hm) as Hm3.
  assert (i = 0 ∧ j = 1 ∧ m = 2) as (-> & -> & ->) by lia.
  exists st, foo, bar, baz. split; [done|]. split; [|done].
  destruct (exported st) as [|x0 [|x1 [|x2 [|x3 rest]]]]; try done.
  simpl in Hi, Hj, Hm. congruence.
Qed.

Lemma export_logical_chain_in_parent_order_witness :
  ∃ st foo bar baz,
    export Samples.resolve 10 Samples.noSnapshot Samples.baseType Samples.applyNothing
      Samples.chainTank = Some st
    ∧ exported st = [foo; bar; baz]
    ∧ art_name foo = "Foo" ∧ art_name bar = "Bar" ∧ art_name baz = "Baz"
    ∧ art_baseDefinition bar = art_url foo
    ∧ art_baseDefinition baz = art_url bar.
Proof.
  destruct (export_logical_chain_in_parent_order Samples.resolve 10 Samples.noSnapshot
              Samples.baseType Samples.applyNothing Samples.chainTank)
    as (st & foo & bar & baz & Hexport & Hexported & Hfoo & Hbar & Hbaz & _ & _ & _ & H1 & H2).
  - reflexivity.
  - reflexivity.
  - reflexivity.
  - reflexivity.
  - intros name. reflexivity.
  - change (getAllLogicals Samples.chainTank) with [Samples.Baz; Samples.Bar; Samples.Foo].
    trans [Samples.Bar; Samples.Baz; Samples.Foo]; [apply Permutation_swap|].
    trans [Samples.Bar; Samples.Foo; Samples.Baz]; [apply perm_skip, Permutation_swap|].
    apply Permutation_swap.
  - exists st, foo, bar, baz. by split_and!.
Defined.

(** * Further properties of the tank *)

(** ** Applied rule sets *)

Lemma fishForAppliedRuleSet_docs_skip (pre rest : list FSHDocument) (item : string) :
  (∀ d, d ∈ pre → appliedRuleSets d !! item = None) →
  fishForAppliedRuleSet_docs (pre ++ rest) item = fishForAppliedRuleSet_docs rest item.
Proof.
  induction pre as [|d pre IH]; intros Hpre; simpl; [done|].
  rewrite (Hpre d) by constructor.
  apply IH. intros d' Hd'. apply Hpre. by constructor.
Qed.

(** X1.  [fishForAppliedRuleSet] returns the rule set that the first
    document, in document order, holds under the item among its applied
    rule sets, and it returns nothing exactly when no document holds one. *)
Theorem fishForAppliedRuleSet_first_document (tank : FSHTank) (item : string) :
  (∀ pre d post ruleSet,
      docs tank = pre ++ d :: post →
      (∀ d', d' ∈ pre → appliedRuleSets d' !! item = None) →
      appliedRuleSets d !! item = Some ruleSet →
      fishForAppliedRuleSet tank item = Some ruleSet)
  ∧ (fishForAppliedRuleSet tank item = None
     ↔ ∀ d, d ∈ docs tank → appliedRuleSets d !! item = None).
Proof.
  unfold fishForAppliedRuleSet. split.
  - intros pre d post ruleSet -> Hpre Hd.
    rewrite fishForAppliedRuleSet_docs_skip by done. simpl. by rewrite Hd.
  - induction (docs tank) as [|d ds IH]; simpl.
    + split; [|done]. intros _ d Hd. by apply elem_of_nil in Hd.
    + destruct (appliedRuleSets d !! item) as [rs|] eqn:Hd.
      * split; [done|]. intros Hall. rewrite (Hall d) in Hd; [done|constructor].
      * rewrite IH. split.
        -- intros Hall d' [->|Hd']%elem_of_cons; auto.
        -- intros Hall d' Hd'. apply Hall. by constructor.
Qed.

Lemma fishForAppliedRuleSet_first_document_witness :
  fishForAppliedRuleSet Samples.appliedTank "Common"
  = Some {| rs_name := "Common"; rs_rules := [FlagRule "status"] |}.
Proof.
  apply (proj1 (fishForAppliedRuleSet_first_document Samples.appliedTank "Common")
           [Samples.appliedDoc "one.fsh" "Other" {| rs_name := "Other"; rs_rules := [] |}]
           (Samples.appliedDoc "two.fsh" "Common"
              {| rs_name := "Common"; rs_rules := [FlagRule "status"] |})
           [Samples.appliedDoc "three.fsh" "Common" {| rs_name := "Common"; rs_rules := [] |}]).
  - reflexivity.
  - intros d' ->%list_elem_of_singleton. reflexivity.
  - reflexivity.
Defined.

(** ** Kinds asked for *)

Section FishingKinds.

Variable getUrl : Entity -> string -> string.
Variable tank : FSHTank.

Lemma fishLoop_app (item : string) (types1 types2 : list FishType) :
  fishLoop getUrl tank item (types1 ++ types2)
  = match fishLoop getUrl tank item types1 with
    | Some r => Some r
    | None => fishLoop getUrl tank item types2
    end.
Proof.
  induction types1 as [|k types1 IH]; simpl; [done|].
  by destruct (fishCase getUrl tank item k).
Qed.

Lemma fishLoop_unsupported (item : string) (types : list FishType) :
  fishLoop getUrl tank item (filter (λ k, k ≠ TType) types)
  = fishLoop getUrl tank item types.
Proof.
  induction types as [|k types IH]; [done|].
  rewrite filter_cons. destruct (decide (k ≠ TType)) as [Hk|Hk]; simpl.
  - by rewrite IH.
  - apply dec_stable in Hk as ->. simpl. done.
Qed.

Lemma masquerade_matches (item : string) (k : FishType) (p : Instance -> bool)
    (i : Instance) :
  masquerade getUrl tank item k = Some p → p i = true →
  matchesNameIdUrl getUrl tank item (EInstance i) = true.
Proof.
  destruct k; simpl; intros [= <-];
    unfold profileInstance, extensionInstance, logicalInstance, resourceInstance,
      vsInstance, csInstance;
    rewrite !andb_true_iff; tauto.
Qed.

Lemma directKey_matches (k : FishType) (e : Entity) (item : string) :
  directKey getUrl tank k e item →
  entity_name e = item ∨ entity_id e = item
  ∨ getUrl e (canonical (config tank)) = item.
Proof. destruct k; simpl; tauto. Qed.

Lemma instance_in_tank (i : Instance) :
  i ∈ getAllInstances tank → EInstance i ∈ directEntities tank TInstance.
Proof. intros Hi. simpl. by apply list_elem_of_In, in_map, list_elem_of_In. Qed.

Lemma fishCase_sound (item : string) (k : FishType) (e : Entity) :
  fishCase getUrl tank item k = Some e →
  (entity_name e = item ∨ entity_id e = item
   ∨ getUrl e (canonical (config tank)) = item)
  ∧ (e ∈ directEntities tank k ∨ e ∈ directEntities tank TInstance).
Proof.
  rewrite fishCase_split.
  destruct (directSearch getUrl tank item k) as [r|] eqn:Hdirect.
  - intros [= <-]. apply directSearch_Some in Hdirect as [Hin Hkey].
    split; [by eapply directKey_matches|by left].
  - destruct (masquerade getUrl tank item k) as [p|] eqn:Hp; [|done].
    destruct (find p (getAllInstances tank)) as [i|] eqn:Hfind; [|done].
    intros [= <-].
    apply find_Some_first in Hfind as (pre & post & Heq & _ & Hpi).
    split.
    + by apply matchesNameIdUrl_instance, (masquerade_matches item k p).
    + right. apply instance_in_tank. rewrite Heq. apply elem_of_app. right. constructor.
Qed.

End FishingKinds.

(** X2.  Fishing with two lists of kinds, one after the other, is fishing
    with the first list and, only when that finds nothing, with the second;
    neither list may be empty, since an empty list stands for all kinds. *)
Theorem fish_kinds_append (getUrl : Entity -> string -> string) (tank : FSHTank)
    (item : string) (types1 types2 : list FishType) :
  types1 ≠ [] → types2 ≠ [] →
  fish getUrl tank item (types1 ++ types2)
  = match fish getUrl tank item types1 with
    | Some r => Some r
    | None => fish getUrl tank item types2
    end.
Proof.
  intros H1 H2. rewrite !fish_some_types; [|done|done|].
  - apply fishLoop_app.
  - by destruct types1.
Qed.

Lemma fish_kinds_append_witness :
  fish getUrlFromFshDefinition_spec Samples.sharedTank "Shared" ([TValueSet] ++ [TProfile])
  = match fish getUrlFromFshDefinition_spec Samples.sharedTank "Shared" [TValueSet] with
    | Some r => Some r
    | None => fish getUrlFromFshDefinition_spec Samples.sharedTank "Shared" [TProfile]
    end.
Proof.
  apply (fish_kinds_append getUrlFromFshDefinition_spec Samples.sharedTank "Shared"
           [TValueSet] [TProfile]); discriminate.
Defined.

(** X3.  The kind [Type] is not supported by the tank: leaving it out of the
    kinds asked for changes nothing, as long as a kind remains; asking for
    nothing but [Type] finds nothing, whereas asking for no kind at all
    searches every supported kind. *)
Theorem fish_unsupported_kind (getUrl : Entity -> string -> string) (tank : FSHTank)
    (item : string) :
  (∀ types, filter (λ k, k ≠ TType) types ≠ [] →
      fish getUrl tank item types = fish getUrl tank item (filter (λ k, k ≠ TType) types))
  ∧ (∀ n, fish getUrl tank item (replicate (S n) TType) = None)
  ∧ fish getUrl tank item [] = fish getUrl tank item allTypes.
Proof.
  split_and!.
  - intros types Hne. rewrite !fish_some_types; [|done|].
    + by rewrite fishLoop_unsupported.
    + intros ->. by apply Hne.
  - intros n. rewrite fish_some_types by done.
    apply fishLoop_None. by intros k ->%elem_of_replicate_inv.
  - reflexivity.
Qed.

Lemma fish_unsupported_kind_witness :
  fish getUrlFromFshDefinition_spec Samples.twinTank "Twin" [TType; TExtension; TType]
  = fish getUrlFromFshDefinition_spec Samples.twinTank "Twin" [TExtension].
Proof.
  apply (proj1 (fish_unsupported_kind getUrlFromFshDefinition_spec Samples.twinTank "Twin")
           [TType; TExtension; TType]).
  discriminate.
Defined.

(** X4.  Whatever [fish] returns is an entity of the tank, and the
    (alias-resolved) item is its name, its id or its canonical URL. *)
Theorem fish_result_carries_item (getUrl : Entity -> string -> string)
    (tank : FSHTank) (item : string) (types : list FishType) (e : Entity) :
  fish getUrl tank item types = Some e →
  let item' := default item (resolveAlias tank item) in
  (entity_name e = item' ∨ entity_id e = item'
   ∨ getUrl e (canonical (config tank)) = item')
  ∧ ∃ k, e ∈ directEntities tank k.
Proof.
  intros Hfish item'. unfold fish in Hfish. fold item' in Hfish.
  apply fishLoop_Some_inv in Hfish as (pre & k & post & _ & _ & Hcase).
  apply fishCase_sound in Hcase as [Hkey [Hin|Hin]]; eauto.
Qed.

Lemma fish_result_carries_item_witness :
  let e := EInstance Samples.sharedInstance in
  (entity_name e = "Shared" ∨ entity_id e = "Shared"
   ∨ getUrlFromFshDefinition_spec e (canonical (config Samples.sharedTank)) = "Shared")
  ∧ ∃ k, e ∈ directEntities Samples.sharedTank k.
Proof.
  apply (fish_result_carries_item getUrlFromFshDefinition_spec Samples.sharedTank
           "Shared" [] (EInstance Samples.sharedInstance)).
  reflexivity.
Defined.

(** X5.  An alias is resolved once.  Fishing for an alias is fishing for the
    string it stands for, provided that string is not itself an alias; and
    whatever is found for an alias carries the string the alias stands for
    as its name, id or canonical URL, also when that string is an alias of
    something else. *)
Theorem fish_alias_resolved_once (getUrl : Entity -> string -> string)
    (tank : FSHTank) (item target : string) (types : list FishType) :
  resolveAlias tank item = Some target →
  (resolveAlias tank target = None →
     fish getUrl tank item types = fish getUrl tank target types)
  ∧ (∀ e, fish getUrl tank item types = Some e →
       entity_name e = target ∨ entity_id e = target
       ∨ getUrl e (canonical (config tank)) = target).
Proof.
  intros Hitem. split.
  - intros Htarget. unfold fish. by rewrite Hitem, Htarget.
  - intros e. unfold fish. rewrite Hitem. simpl.
    intros (pre & k & post & _ & _ & Hcase)%fishLoop_Some_inv.
    by apply fishCase_sound in Hcase as [Hkey _].
Qed.

Lemma fish_alias_resolved_once_witness :
  (resolveAlias Samples.urlTank "WithUrl" = None →
     fish getUrlFromFshDefinition_spec Samples.urlTank "WU" []
     = fish getUrlFromFshDefinition_spec Samples.urlTank "WithUrl" [])
  ∧ (∀ e, fish getUrlFromFshDefinition_spec Samples.urlTank "WU" [] = Some e →
       entity_name e = "WithUrl" ∨ entity_id e = "WithUrl"
       ∨ getUrlFromFshDefinition_spec e (canonical (config Samples.urlTank)) = "WithUrl").
Proof.
  apply (fish_alias_resolved_once getUrlFromFshDefinition_spec Samples.urlTank
           "WU" "WithUrl" []).
  reflexivity.
Defined.

(** ** Instances standing for structure definitions *)

(** X6.  No instance is found both as a Profile and as an Extension,
    whatever the two items fished for: the search for a Profile refuses the
    rule [type = "Extension"] that the search for an Extension demands. *)
Theorem instance_not_profile_and_extension (getUrl : Entity -> string -> string)
    (tank : FSHTank) (item1 item2 : string) (i : Instance) :
  fish getUrl tank item1 [TProfile] = Some (EInstance i) →
  fish getUrl tank item2 [TExtension] ≠ Some (EInstance i).
Proof.
  rewrite !fish_one_type. intros Hprofile Hextension.
  apply fishCase_instance in Hprofile as (p & [= <-] & _ & Hp); [|done].
  apply fishCase_instance in Hextension as (q & [= <-] & _ & Hq); [|done].
  unfold profileInstance in Hp. unfold extensionInstance in Hq.
  rewrite !andb_true_iff in Hp, Hq.
  destruct Hp as [_ Hp%negb_true_iff], Hq as [_ Hq]. congruence.
Qed.

Lemma instance_not_profile_and_extension_witness :
  fish getUrlFromFshDefinition_spec Samples.sharedTank "Shared" [TExtension]
  ≠ Some (EInstance Samples.sharedInstance).
Proof.
  apply (instance_not_profile_and_extension getUrlFromFshDefinition_spec
           Samples.sharedTank "Shared" "Shared" Samples.sharedInstance).
  reflexivity.
Defined.

(** ** One more document *)

Lemma flatMap_app {A B} (l1 l2 : list A) (f : A → list B) :
  flatMap (l1 ++ l2) f = flatMap l1 f ++ flatMap l2 f.
Proof. unfold flatMap. by rewrite map_app, concat_app. Qed.

Lemma find_app_Some {A} (f : A → bool) (l1 l2 : list A) (x : A) :
  find f l1 = Some x → find f (l1 ++ l2) = Some x.
Proof.
  induction l1 as [|y l1 IH]; simpl; [done|]. by destruct (f y).
Qed.

Lemma directEntities_withDocument (t : FSHTank) (d : FSHDocument) (k : FishType) :
  ∃ more, directEntities (withDocument t d) k = directEntities t k ++ more.
Proof.
  destruct k; simpl;
    unfold getAllProfiles, getAllExtensions, getAllLogicals, getAllResources,
      getAllValueSets, getAllCodeSystems, getAllInstances, getAllInvariants,
      getAllRuleSets, getAllMappings; simpl;
    rewrite ?flatMap_app, ?map_app; by eexists.
Qed.

Lemma resolveAlias_withDocument (t : FSHTank) (d : FSHDocument) (name : string) :
  aliases d !! name = None ∨ is_Some (resolveAlias t name) →
  resolveAlias (withDocument t d) name = resolveAlias t name.
Proof.
  unfold resolveAlias. simpl. intros Hd.
  induction (docs t) as [|d0 ds IH]; simpl.
  - destruct Hd as [->|[v Hv]]; [done|discriminate].
  - simpl in Hd. destruct (aliases d0 !! name) as [v|]; [destruct (truthy v)|]; auto.
Qed.

(** X19.  Earlier documents win.  When fishing for one kind finds an entity
    of that kind itself, it finds the same entity after one more document is
    added at the end of the tank, provided the new document does not turn
    the item into an alias. *)
Theorem fish_earlier_documents_win (getUrl : Entity -> string -> string)
    (tank : FSHTank) (doc : FSHDocument) (item : string) (k : FishType) (e : Entity) :
  fish getUrl tank item [k] = Some e →
  e ∈ directEntities tank k →
  aliases doc !! item = None ∨ is_Some (resolveAlias tank item) →
  fish getUrl (withDocument tank doc) item [k] = Some e.
Proof.
  rewrite !fish_one_type. intros Hfish Hin Halias.
  rewrite (resolveAlias_withDocument tank doc item Halias).
  set (item' := default item (resolveAlias tank item)) in *.
  assert (directSearch getUrl tank item' k = Some e) as Hdirect.
  { rewrite fishCase_split in Hfish.
    destruct (directSearch getUrl tank item' k) as [r|]; [done|].
    destruct (masquerade getUrl tank item' k) as [p|] eqn:Hp; [|done].
    destruct (find p (getAllInstances tank)) as [i|]; [|done].
    injection Hfish as <-. apply directEntities_instance in Hin as ->. done. }
  apply fishCase_direct. unfold directSearch in *.
  destruct (directEntities_withDocument tank doc k) as [more ->].
  apply find_app_Some. exact Hdirect.
Qed.

Lemma fish_earlier_documents_win_witness :
  fish getUrlFromFshDefinition_spec
    (withDocument Samples.twinTank
       (Samples.logicalDoc "later.fsh" [Samples.Foo])) "Twin" [TExtension]
  = Some (EExtension Samples.twinExtension).
Proof.
  apply (fish_earlier_documents_win getUrlFromFshDefinition_spec Samples.twinTank
           (Samples.logicalDoc "later.fsh" [Samples.Foo]) "Twin" TExtension
           (EExtension Samples.twinExtension)).
  - reflexivity.
  - apply list_elem_of_singleton. reflexivity.
  - left. reflexivity.
Defined.

(** ** All structure definitions *)

Lemma flatMap_cons {A B} (x : A) (l : list A) (f : A → list B) :
  flatMap (x :: l) f = f x ++ flatMap l f.
Proof. reflexivity. Qed.

Lemma getAllStructureDefinitions_cons (d : FSHDocument) (ds : list FSHDocument)
    (c : Configuration) :
  getAllStructureDefinitions {| docs := d :: ds; config := c |}
  ≡ₚ structuresOf d ++ getAllStructureDefinitions {| docs := ds; config := c |}.
Proof.
  unfold getAllStructureDefinitions, structuresOf, getAllProfiles, getAllExtensions,
    getAllLogicals, getAllResources. simpl docs.
  rewrite !flatMap_cons, !map_app.
  set (p := map EProfile (values (profiles d))).
  set (x := map EExtension (values (extensions d))).
  set (l := map ELogical (values (logicals d))).
  set (r := map EResource (values (resources d))).
  set (ps := map EProfile _). set (xs := map EExtension _).
  set (ls := map ELogical _). set (rs := map EResource _).
  solve_Permutation.
Qed.

(** X7.  [getAllStructureDefinitions] holds the profiles, extensions,
    logical models and resources of every document, each as often as the
    documents hold it: it is a rearrangement, by kind, of the structure
    definitions taken document by document. *)
Theorem getAllStructureDefinitions_by_document (tank : FSHTank) :
  getAllStructureDefinitions tank ≡ₚ flatMap (docs tank) structuresOf
  ∧ length (getAllStructureDefinitions tank)
    = length (getAllProfiles tank) + length (getAllExtensions tank)
      + length (getAllLogicals tank) + length (getAllResources tank).
Proof.
  split.
  - destruct tank as [ds c]. simpl docs.
    induction ds as [|d ds IH]; [done|].
    rewrite getAllStructureDefinitions_cons, flatMap_cons. by apply Permutation_app_head.
  - unfold getAllStructureDefinitions. rewrite !length_app, !length_map. lia.
Qed.

(** ** Metadata *)

Lemma startsWith_sliceFrom (s p : string) :
  startsWith s p = true → s = p +:+ sliceFrom s (String.length p).
Proof.
  unfold startsWith. revert s.
  induction p as [|c p IH]; intros [|c' s]; simpl; try done.
  destruct (ascii_dec c c') as [->|]; [|done].
  intros Hp. change (String c' s = String c' (p +:+ sliceFrom s (String.length p))).
  f_equal. by apply IH.
Qed.

Lemma assignedUrl_keep (rs : list Rule) (acc : option string) :
  (∀ r, r ∈ rs → assignsUrl r = None) →
  fold_left (fun url r => match assignsUrl r with Some v => Some v | None => url end)
            rs acc = acc.
Proof.
  revert acc. induction rs as [|r rs IH]; intros acc Hrs; simpl; [done|].
  rewrite (Hrs r) by constructor.
  apply IH. intros r' Hr'. apply Hrs. by constructor.
Qed.

Lemma assignedUrl_last (pre : list Rule) (u : string) (post : list Rule) :
  (∀ r, r ∈ post → assignsUrl r = None) →
  assignedUrl (pre ++ AssignmentRule "url" (VString u) :: post) = Some u.
Proof.
  intros Hpost. unfold assignedUrl. rewrite fold_left_app. simpl.
  by apply assignedUrl_keep.
Qed.

Lemma assignedUrl_none (rs : list Rule) :
  (∀ r, r ∈ rs → assignsUrl r = None) → assignedUrl rs = None.
Proof. apply assignedUrl_keep. Qed.

(** X8.  The metadata carry an [sdType] exactly when a Logical model was
    fished.  It is then the model's canonical URL made relative to
    http://hl7.org/fhir/StructureDefinition/ when the URL starts with it,
    and the whole URL otherwise. *)
Theorem fishForMetadata_sdType (getUrl : Entity -> string -> string)
    (applyInsertRules : Instance -> FSHTank -> Instance) (tank : FSHTank)
    (item : string) (types : list FishType) :
  (∀ l, fish getUrl tank item types = Some (ELogical l) →
     let url := getUrl (ELogical l) (canonical (config tank)) in
     ∃ m sdType,
       fishForMetadata getUrl applyInsertRules tank item types = Some m
       ∧ meta_url m = Some url
       ∧ meta_sdType m = Some sdType
       ∧ (url = HL7_URL +:+ sdType
          ∨ (sdType = url ∧ startsWith url HL7_URL = false)))
  ∧ (∀ m, fishForMetadata getUrl applyInsertRules tank item types = Some m →
       is_Some (meta_sdType m) →
       ∃ l, fish getUrl tank item types = Some (ELogical l)).
Proof.
  split.
  - intros l Hfish url. unfold fishForMetadata. rewrite Hfish. fold url.
    destruct (startsWith url HL7_URL) eqn:Hstarts.
    + eexists _, _. split_and!; [done|done|done|].
      left. by apply startsWith_sliceFrom.
    + eexists _, _. split_and!; [done|done|done|]. by right.
  - intros m. unfold fishForMetadata.
    destruct (fish getUrl tank item types) as [e|]; [|done].
    intros [= <-] [t Ht]. destruct e; try discriminate. by eexists.
Qed.

Lemma fishForMetadata_sdType_witness :
  ∃ m sdType,
    fishForMetadata getUrlFromFshDefinition_spec Samples.keepRules Samples.hl7Tank
      "Foo" [] = Some m
    ∧ meta_url m = Some "http://hl7.org/fhir/StructureDefinition/Foo"
    ∧ meta_sdType m = Some sdType
    ∧ ("http://hl7.org/fhir/StructureDefinition/Foo" = HL7_URL +:+ sdType
       ∨ (sdType = "http://hl7.org/fhir/StructureDefinition/Foo"
          ∧ startsWith "http://hl7.org/fhir/StructureDefinition/Foo" HL7_URL = false)).
Proof.
  apply (proj1 (fishForMetadata_sdType getUrlFromFshDefinition_spec Samples.keepRules
                  Samples.hl7Tank "Foo" []) Samples.Foo).
  reflexivity.
Defined.

(** X9.  The url in the metadata of an instance is the string assigned by
    the last rule at the path [url] among the rules the instance has once
    its insert rules are applied; without such a rule there is no url. *)
Theorem fishForMetadata_instance_url (getUrl : Entity -> string -> string)
    (applyInsertRules : Instance -> FSHTank -> Instance) (tank : FSHTank)
    (item : string) (types : list FishType) (i : Instance) :
  fish getUrl tank item types = Some (EInstance i) →
  ∃ m, fishForMetadata getUrl applyInsertRules tank item types = Some m
    ∧ (∀ pre u post,
          rules (applyInsertRules i tank)
          = pre ++ AssignmentRule "url" (VString u) :: post →
          (∀ r, r ∈ post → assignsUrl r = None) →
          meta_url m = Some u)
    ∧ ((∀ r, r ∈ rules (applyInsertRules i tank) → assignsUrl r = None) →
          meta_url m = None).
Proof.
  intros Hfish. unfold fishForMetadata. rewrite Hfish.
  eexists. split; [done|]. simpl. split.
  - intros pre u post -> Hpost. by apply assignedUrl_last.
  - apply assignedUrl_none.
Qed.

Lemma fishForMetadata_instance_url_witness :
  ∃ m, fishForMetadata getUrlFromFshDefinition_spec Samples.keepRules Samples.urlTank
         "WithUrl" [TValueSet] = Some m
    ∧ meta_url m = Some "http://example.org/second".
Proof.
  destruct (fishForMetadata_instance_url getUrlFromFshDefinition_spec Samples.keepRules
              Samples.urlTank "WithUrl" [TValueSet] Samples.urlInstance)
    as (m & Hm & Hlast & _).
  - reflexivity.
  - exists m. split; [exact Hm|].
    apply (Hlast [AssignmentRule "url" (VString "http://example.org/first");
                  AssignmentRule "status" (VCode (Samples.fshCode "active"))]
                 "http://example.org/second" []).
    + reflexivity.
    + intros r Hr. by apply elem_of_nil in Hr.
Defined.

(** X10.  An instance fished in place of a Profile, Extension, Logical model,
    Resource, ValueSet or CodeSystem gets the metadata of an instance: its
    own id and name, the usage [Definition], and neither a resource type nor
    an [sdType] nor a parent, provided applying the insert rules leaves the
    usage alone. *)
Theorem fishForMetadata_standing_instance (getUrl : Entity -> string -> string)
    (applyInsertRules : Instance -> FSHTank -> Instance) (tank : FSHTank)
    (item : string) (k : FishType) (i : Instance) :
  k ≠ TInstance →
  fish getUrl tank item [k] = Some (EInstance i) →
  usage (applyInsertRules i tank) = usage i →
  ∃ m, fishForMetadata getUrl applyInsertRules tank item [k] = Some m
    ∧ meta_id m = id i ∧ meta_name m = name i
    ∧ meta_instanceUsage m = Some "Definition"
    ∧ meta_resourceType m = None ∧ meta_sdType m = None ∧ meta_parent m = None.
Proof.
  intros Hk Hfish Husage. unfold fishForMetadata. rewrite Hfish.
  eexists. split; [done|]. simpl. split_and!; try done.
  rewrite Husage. rewrite fish_one_type in Hfish.
  apply fishCase_instance in Hfish as (p & Hp & _ & Hpi); [|done].
  by eapply masquerade_usage.
Qed.

Lemma fishForMetadata_standing_instance_witness :
  ∃ m, fishForMetadata getUrlFromFshDefinition_spec Samples.keepRules
         Samples.instanceTank "my-resource" [TResource] = Some m
    ∧ meta_id m = "my-resource" ∧ meta_name m = "MyResource"
    ∧ meta_instanceUsage m = Some "Definition"
    ∧ meta_resourceType m = None ∧ meta_sdType m = None ∧ meta_parent m = None.
Proof.
  apply (fishForMetadata_standing_instance getUrlFromFshDefinition_spec Samples.keepRules
           Samples.instanceTank "my-resource" TResource Samples.resourceDefInstance).
  - discriminate.
  - reflexivity.
  - reflexivity.
Defined.

(** X11.  Round trip for Profile, Extension, Logical model, Resource, ValueSet
    and CodeSystem: when an entity of the kind itself is fished, the id, the
    name and the url of its metadata each fish an entity of that kind again,
    unless the string is an alias. *)
Theorem fishForMetadata_round_trip (getUrl : Entity -> string -> string)
    (applyInsertRules : Instance -> FSHTank -> Instance) (tank : FSHTank)
    (item : string) (k : FishType) (e : Entity) :
  k ∈ masqueradeTypes →
  fish getUrl tank item [k] = Some e →
  e ∈ directEntities tank k →
  ∃ m url, fishForMetadata getUrl applyInsertRules tank item [k] = Some m
    ∧ meta_url m = Some url
    ∧ ∀ key, key ∈ [meta_id m; meta_name m; url] →
        resolveAlias tank key = None →
        ∃ r, fish getUrl tank key [k] = Some r ∧ r ∈ directEntities tank k.
Proof.
  intros Hk Hfish Hin.
  assert (∃ m, fishForMetadata getUrl applyInsertRules tank item [k] = Some m
             ∧ meta_id m = entity_id e ∧ meta_name m = entity_name e
             ∧ meta_url m = Some (getUrl e (canonical (config tank))))
    as (m & Hm & Hid & Hname & Hurl).
  { unfold fishForMetadata. rewrite Hfish. unfold masqueradeTypes in Hk.
    repeat (apply elem_of_cons in Hk as [->|Hk];
            [apply list_elem_of_In, in_map_iff in Hin as (x & <- & _);
             eexists; split_and!; done|]).
    by apply elem_of_nil in Hk. }
  exists m, (getUrl e (canonical (config tank))). split_and!; [done|done|].
  intros key Hkey Halias. rewrite fish_one_type, Halias. simpl.
  assert (directKey getUrl tank k e key) as Hdirect.
  { assert (entity_name e = key ∨ entity_id e = key
            ∨ getUrl e (canonical (config tank)) = key) as Hkeys.
    { rewrite Hid, Hname in Hkey.
      repeat (apply elem_of_cons in Hkey as [->|Hkey]; [tauto|]).
      by apply elem_of_nil in Hkey. }
    unfold masqueradeTypes in Hk.
    repeat (apply elem_of_cons in Hk as [->|Hk]; [exact Hkeys|]).
    by apply elem_of_nil in Hk. }
  destruct (directSearch_finds getUrl tank key k e Hin Hdirect) as (r & Hr & Hrin & _).
  exists r. split; [by apply fishCase_direct|done].
Qed.

Lemma fishForMetadata_round_trip_witness :
  ∃ m url, fishForMetadata getUrlFromFshDefinition_spec Samples.keepRules
             Samples.twinTank "twin-profile" [TProfile] = Some m
    ∧ meta_url m = Some url
    ∧ ∀ key, key ∈ [meta_id m; meta_name m; url] →
        resolveAlias Samples.twinTank key = None →
        ∃ r, fish getUrlFromFshDefinition_spec Samples.twinTank key [TProfile] = Some r
             ∧ r ∈ directEntities Samples.twinTank TProfile.
Proof.
  apply (fishForMetadata_round_trip getUrlFromFshDefinition_spec Samples.keepRules
           Samples.twinTank "twin-profile" TProfile (EProfile Samples.twinProfile)).
  - unfold masqueradeTypes. apply elem_of_cons. left. reflexivity.
  - reflexivity.
  - apply list_elem_of_singleton. reflexivity.
Defined.

(** * The name and id mixins *)

(** ** Strings *)

Lemma substring_length (n : nat) (s : string) :
  String.length (String.substring 0 n s) = Nat.min n (String.length s).
Proof.
  revert s. induction n as [|n IH]; intros [|c s]; simpl; try done.
  by rewrite IH.
Qed.

Lemma substring_forallb (f : ascii → bool) (n : nat) (s : string) :
  forallb f (String.list_ascii_of_string s) = true →
  forallb f (String.list_ascii_of_string (String.substring 0 n s)) = true.
Proof.
  revert s. induction n as [|n IH]; intros [|c s]; simpl; try done.
  intros [Hc Hs]%andb_true_iff. rewrite Hc. simpl. by apply IH.
Qed.

Lemma replaceAll_length (s : string) (c d : ascii) :
  String.length (replaceAll s c d) = String.length s.
Proof. induction s as [|x s IH]; simpl; [done|]. by rewrite IH. Qed.

Lemma isNameChar_sanitized (c : ascii) :
  isNameChar c = true →
  isIdChar (if Ascii.eqb c underscore then hyphen else c) = true.
Proof. destruct c as [[] [] [] [] [] [] [] []]; vm_compute; congruence. Qed.

Lemma replaceAll_name_chars (s : string) :
  forallb isNameChar (String.list_ascii_of_string s) = true →
  forallb isIdChar (String.list_ascii_of_string (replaceAll s underscore hyphen)) = true.
Proof.
  induction s as [|c s IH]; simpl; [done|].
  intros [Hc Hs]%andb_true_iff. rewrite (isNameChar_sanitized c Hc). simpl. by apply IH.
Qed.

Lemma isUpper_isNameChar (c : ascii) : isUpper c = true → isNameChar c = true.
Proof. unfold isNameChar. by intros ->. Qed.

(** A valid name, with its underscores replaced and cut to 64 characters,
    is an id as the error message describes ids. *)
Lemma sanitize_described (s : string) :
  nameRegex s = true → describedId (sanitize s) = true.
Proof.
  destruct s as [|c rest]; [done|]. simpl.
  intros [[Hc Hrest]%andb_true_iff Hlen]%andb_true_iff.
  unfold describedId, sanitize, slice. rewrite substring_length, replaceAll_length.
  rewrite !andb_true_iff. split_and!.
  - apply Nat.leb_le. simpl. lia.
  - apply Nat.leb_le. lia.
  - apply substring_forallb, replaceAll_name_chars. simpl.
    by rewrite (isUpper_isNameChar c Hc), Hrest.
Qed.

Lemma findLast_last {A} (f : A → bool) (pre : list A) (x : A) (post : list A) :
  f x = true → (∀ y, y ∈ post → f y = false) →
  findLast (pre ++ x :: post) f = Some x.
Proof.
  intros Hx Hpost. unfold findLast.
  rewrite rev_app_distr. simpl. rewrite <- app_assoc. simpl.
  apply find_first; [|done].
  intros y Hy. apply Hpost. by apply list_elem_of_In, in_rev, list_elem_of_In.
Qed.

Lemma findLast_none {A} (f : A → bool) (l : list A) :
  (∀ y, y ∈ l → f y = false) → findLast l f = None.
Proof.
  intros Hl. unfold findLast. apply find_None_all.
  intros y Hy. apply Hl. by apply list_elem_of_In, in_rev, list_elem_of_In.
Qed.

Lemma lastCaretValue_last (d : FshDefinition) (caretPath : string)
    (pre : list Rule) (v : AssignmentValue) (post : list Rule) :
  def_rules d = pre ++ CaretValueRule "" caretPath v :: post →
  (∀ r, r ∈ post → isCaretRuleFor caretPath r = false) →
  lastCaretValue d caretPath = Some v.
Proof.
  intros Hrules Hpost. unfold lastCaretValue.
  rewrite Hrules, (findLast_last _ pre _ post); [done| |done].
  simpl. by rewrite !String.eqb_refl.
Qed.

Lemma lastCaretValue_none (d : FshDefinition) (caretPath : string) :
  (∀ r, r ∈ def_rules d → isCaretRuleFor caretPath r = false) →
  lastCaretValue d caretPath = None.
Proof. intros Hnone. unfold lastCaretValue. by rewrite findLast_none. Qed.

Section MixinFacts.

Variable idRegex : string -> bool.
Variable toString : AssignmentValue -> string.

Context {T : Type} `{HasId T}.

Lemma validateId_with_rule (this : T) (d : FshDefinition) (v : AssignmentValue) :
  lastCaretValue d "id" = Some v →
  validateId idRegex toString this d
  = (this, if idRegex (asString toString v) then [] else [idError (asString toString v)]).
Proof.
  intros Hrule. unfold validateId. rewrite Hrule.
  rewrite bool_decide_eq_true_2 by by eexists.
  rewrite andb_false_r. simpl.
  by destruct (idRegex (asString toString v)).
Qed.

Lemma validateId_valid (this : T) (d : FshDefinition) :
  lastCaretValue d "id" = None →
  idRegex (orUndefined (getId this)) = true →
  validateId idRegex toString this d = (this, []).
Proof. intros Hrule Hvalid. unfold validateId. by rewrite Hrule, Hvalid. Qed.

Lemma validateId_sanitized (this : T) (d : FshDefinition) :
  lastCaretValue d "id" = None →
  idRegex (orUndefined (getId this)) = false →
  nameRegex (orUndefined (getId this)) = true →
  idRegex (sanitize (orUndefined (getId this))) = true →
  validateId idRegex toString this d
  = (putId this (sanitize (orUndefined (getId this))),
     [sanitizedWarning (orUndefined (getId this)) (sanitize (orUndefined (getId this)))]).
Proof.
  intros Hrule Hinvalid Hname Hsanitized. unfold validateId.
  rewrite Hrule, Hinvalid, Hname, Hsanitized.
  rewrite bool_decide_eq_false_2 by by intros [? ?]. done.
Qed.

Lemma validateId_rejected (this : T) (d : FshDefinition) :
  lastCaretValue d "id" = None →
  idRegex (orUndefined (getId this)) = false →
  nameRegex (orUndefined (getId this)) && idRegex (sanitize (orUndefined (getId this)))
  = false →
  validateId idRegex toString this d = (this, [idError (orUndefined (getId this))]).
Proof.
  intros Hrule Hinvalid Hno. unfold validateId. rewrite Hrule, Hinvalid.
  rewrite bool_decide_eq_false_2 by by intros [? ?]. simpl.
  destruct (nameRegex _); [|done]. simpl in Hno. by rewrite Hno.
Qed.

End MixinFacts.

(** X12.  [validateId] ends in one of three ways: it logs nothing and leaves
    the id alone; it logs one error and leaves the id alone; or, only when
    there is no [^id] rule, it logs one warning and replaces the id by a
    string that the id pattern accepts.  It never logs a warning together
    with an error, and never changes the id without a warning. *)
Theorem validateId_outcomes (idRegex : string -> bool)
    (toString : AssignmentValue -> string) {T : Type} `{HasId T}
    (this : T) (fshDefinition : FshDefinition) :
  let result := validateId idRegex toString this fshDefinition in
  result = (this, [])
  ∨ (∃ s, result = (this, [idError s]) ∧ idRegex s = false)
  ∨ (∃ s, result = (putId this s, [sanitizedWarning (orUndefined (getId this)) s])
          ∧ idRegex s = true ∧ lastCaretValue fshDefinition "id" = None).
Proof.
  intros result. subst result.
  destruct (lastCaretValue fshDefinition "id") as [v|] eqn:Hrule.
  - rewrite (validateId_with_rule _ _ _ _ v Hrule).
    destruct (idRegex (asString toString v)) eqn:Hv; [by left|].
    right. left. by exists (asString toString v).
  - destruct (idRegex (orUndefined (getId this))) eqn:Hvalid.
    + left. by apply validateId_valid.
    + destruct (nameRegex (orUndefined (getId this))
                && idRegex (sanitize (orUndefined (getId this)))) eqn:Hsan.
      * apply andb_true_iff in Hsan as [Hname Hsan].
        right. right. exists (sanitize (orUndefined (getId this))).
        split_and!; [by apply validateId_sanitized|done|done].
      * right. left. exists (orUndefined (getId this)).
        split; [by apply validateId_rejected|done].
Qed.

(** X13.  [setId] on a definition without [^id] rule whose id is a valid
    name never logs an error, provided the id pattern accepts every string of
    1 to 64 letters, numerals, '-' and '.': an id that the pattern accepts is
    kept without a message, and any other one is replaced, with one warning,
    by the id with every underscore turned into a hyphen and cut to 64
    characters. *)
Theorem setId_valid_name (idRegex : string -> bool)
    (toString : AssignmentValue -> string) {T : Type} `{HasId T}
    (this : T) (fshDefinition : FshDefinition) :
  (∀ s, describedId s = true → idRegex s = true) →
  lastCaretValue fshDefinition "id" = None →
  nameRegex (def_id fshDefinition) = true →
  let id := def_id fshDefinition in
  setId idRegex toString this fshDefinition
  = if idRegex id
    then (putId this id, [])
    else (putId (putId this id) (sanitize id), [sanitizedWarning id (sanitize id)]).
Proof.
  intros Hpattern Hrule Hname id. unfold setId. fold id.
  destruct (idRegex id) eqn:Hvalid.
  - apply validateId_valid; [done|]. by rewrite getId_putId.
  - rewrite validateId_sanitized; rewrite ?getId_putId; simpl; try done.
    by apply Hpattern, sanitize_described.
Qed.

Lemma setId_valid_name_witness :
  setId describedId Samples.objectToString ValueSet_constructor
    (Samples.valueSetDef "My_Value_Set" "My_Value_Set" [])
  = (putId (putId ValueSet_constructor "My_Value_Set") "My-Value-Set",
     [sanitizedWarning "My_Value_Set" "My-Value-Set"]).
Proof.
  apply (setId_valid_name describedId Samples.objectToString ValueSet_constructor
           (Samples.valueSetDef "My_Value_Set" "My_Value_Set" [])).
  - intros s Hs. exact Hs.
  - reflexivity.
  - reflexivity.
Defined.

(** X14.  With a [^id] rule on the definition, [setId] checks the value of
    the last such rule in place of the id: the id of the definition is
    stored as it is, also when the pattern refuses it, and an error is logged
    exactly when the pattern refuses the value of the rule. *)
Theorem setId_with_id_rule (idRegex : string -> bool)
    (toString : AssignmentValue -> string) {T : Type} `{HasId T}
    (this : T) (fshDefinition : FshDefinition)
    (pre : list Rule) (value : AssignmentValue) (post : list Rule) :
  def_rules fshDefinition = pre ++ CaretValueRule "" "id" value :: post →
  (∀ r, r ∈ post → isCaretRuleFor "id" r = false) →
  setId idRegex toString this fshDefinition
  = (putId this (def_id fshDefinition),
     if idRegex (asString toString value) then []
     else [idError (asString toString value)]).
Proof.
  intros Hrules Hpost. unfold setId.
  apply validateId_with_rule. by apply (lastCaretValue_last _ _ pre value post).
Qed.

Lemma setId_with_id_rule_witness :
  setId describedId Samples.objectToString ValueSet_constructor
    (Samples.valueSetDef "My_Value_Set" "My_Value_Set"
       [CaretValueRule "" "id" (VString "bad id");
        CaretValueRule "" "id" (VString "good-id")])
  = (putId ValueSet_constructor "My_Value_Set", []).
Proof.
  apply (setId_with_id_rule describedId Samples.objectToString ValueSet_constructor
           (Samples.valueSetDef "My_Value_Set" "My_Value_Set"
              [CaretValueRule "" "id" (VString "bad id");
               CaretValueRule "" "id" (VString "good-id")])
           [CaretValueRule "" "id" (VString "bad id")] (VString "good-id") []).
  - reflexivity.
  - intros r Hr. by apply elem_of_nil in Hr.
Defined.

(** X15.  Validating twice is validating once, as far as the id goes: the
    second [validateId] leaves the id that the first one left, repeats the
    error of the first one if there was one, and logs no warning. *)
Theorem validateId_twice (idRegex : string -> bool)
    (toString : AssignmentValue -> string) {T : Type} `{HasId T}
    (this : T) (fshDefinition : FshDefinition) :
  let first := validateId idRegex toString this fshDefinition in
  let second := validateId idRegex toString first.1 fshDefinition in
  second.1 = first.1 ∧ second.2 = List.filter isError first.2.
Proof.
  intros first second. subst second first.
  destruct (lastCaretValue fshDefinition "id") as [v|] eqn:Hrule.
  - rewrite (validateId_with_rule _ _ this _ v Hrule). simpl.
    rewrite (validateId_with_rule _ _ this _ v Hrule). simpl.
    by destruct (idRegex (asString toString v)).
  - destruct (idRegex (orUndefined (getId this))) eqn:Hvalid.
    + rewrite (validateId_valid _ _ this) by done. simpl.
      by rewrite (validateId_valid _ _ this).
    + destruct (nameRegex (orUndefined (getId this))
                && idRegex (sanitize (orUndefined (getId this)))) eqn:Hsan.
      * apply andb_true_iff in Hsan as [Hname Hsan].
        rewrite (validateId_sanitized _ _ this) by done. simpl.
        rewrite validateId_valid; [done|done|]. by rewrite getId_putId.
      * rewrite (validateId_rejected _ _ this) by done. simpl.
        by rewrite (validateId_rejected _ _ this).
Qed.

Lemma replaceAll_removes (s : string) (c d : ascii) :
  c ≠ d → contains (replaceAll s c d) c = false.
Proof.
  intros Hcd. unfold contains. induction s as [|x s IH]; simpl; [done|].
  rewrite IH, orb_false_r.
  destruct (Ascii.eqb_spec x c) as [->|Hx]; apply Ascii.eqb_neq; congruence.
Qed.

Lemma substring_without (c : ascii) (n : nat) (s : string) :
  contains s c = false → contains (String.substring 0 n s) c = false.
Proof.
  unfold contains. revert s. induction n as [|n IH]; intros [|x s]; simpl; try done.
  intros [Hx Hs]%orb_false_iff. rewrite Hx. simpl. by apply IH.
Qed.

Lemma replaceAll_without (s : string) (c d : ascii) :
  contains s c = false → replaceAll s c d = s.
Proof.
  unfold contains. induction s as [|x s IH]; simpl; [done|].
  intros [Hx Hs]%orb_false_iff. rewrite Ascii.eqb_sym, Hx. f_equal. by apply IH.
Qed.

Lemma substring_short (n : nat) (s : string) :
  (String.length s ≤ n)%nat → String.substring 0 n s = s.
Proof.
  revert s. induction n as [|n IH]; intros [|x s]; simpl; try done; [lia|].
  intros Hlen. f_equal. apply IH. lia.
Qed.

(** X20.  The id that [validateId] proposes in place of a name never holds
    an underscore and never has more than 64 characters, whatever the name;
    a string that already is like that is proposed as it is, so that
    sanitizing twice is sanitizing once. *)
Theorem sanitize_shape (id : string) :
  contains (sanitize id) underscore = false
  ∧ (String.length (sanitize id) ≤ 64)%nat
  ∧ sanitize (sanitize id) = sanitize id
  ∧ (contains id underscore = false → (String.length id ≤ 64)%nat → sanitize id = id).
Proof.
  assert (∀ s, contains s underscore = false → (String.length s ≤ 64)%nat → sanitize s = s)
    as Hkeep.
  { intros s Hs Hlen. unfold sanitize, slice.
    rewrite replaceAll_without by done. rewrite substring_short; [done|lia]. }
  assert (contains (sanitize id) underscore = false) as Hnone.
  { apply substring_without, replaceAll_removes. discriminate. }
  assert (String.length (sanitize id) ≤ 64)%nat as Hlen.
  { unfold sanitize, slice. rewrite substring_length. lia. }
  split_and!; [done|done|by apply Hkeep|apply Hkeep].
Qed.

(** X16.  [setName] always stores the name of the definition; what it checks
    is the value of the last [^name] rule on the definition when there is
    one, and the name itself otherwise, and it warns exactly when the checked
    string is not an upper-case letter followed by at most 254 letters,
    numerals and underscores. *)
Theorem setName_checks_last_rule (toString : AssignmentValue -> string)
    {T : Type} `{HasName T} (this : T) (fshDefinition : FshDefinition) :
  (setName toString this fshDefinition).1 = putName this (def_name fshDefinition)
  ∧ (∀ pre value post,
       def_rules fshDefinition = pre ++ CaretValueRule "" "name" value :: post →
       (∀ r, r ∈ post → isCaretRuleFor "name" r = false) →
       (setName toString this fshDefinition).2
       = if nameRegex (asString toString value) then []
         else [nameWarning (asString toString value)])
  ∧ ((∀ r, r ∈ def_rules fshDefinition → isCaretRuleFor "name" r = false) →
       (setName toString this fshDefinition).2
       = if nameRegex (def_name fshDefinition) then []
         else [nameWarning (def_name fshDefinition)]).
Proof.
  unfold setName. split_and!.
  - done.
  - intros pre value post Hrules Hpost. simpl.
    by rewrite (lastCaretValue_last _ _ pre value post).
  - intros Hnone. simpl. by rewrite lastCaretValue_none, getName_putName.
Qed.

(** * The FHIR ValueSet *)

Lemma string_app_inj_l (p a b : string) : p +:+ a = p +:+ b → a = b.
Proof.
  induction p as [|c p IH]; [done|].
  change (String c (p +:+ a) = String c (p +:+ b) → a = b).
  intros [= Heq]. by apply IH.
Qed.

Lemma string_app_inj_r (a b s : string) : a +:+ s = b +:+ s → a = b.
Proof.
  revert b. induction a as [|c a IH]; intros [|c' b].
  - done.
  - intros Heq. apply (f_equal String.length) in Heq.
    change (String c' b +:+ s) with (String c' (b +:+ s)) in Heq.
    simpl in Heq. rewrite !string_app_length in Heq. simpl in Heq. lia.
  - intros Heq. apply (f_equal String.length) in Heq.
    change (String c a +:+ s) with (String c (a +:+ s)) in Heq.
    simpl in Heq. rewrite !string_app_length in Heq. simpl in Heq. lia.
  - change (String c (a +:+ s) = String c' (b +:+ s) → String c a = String c' b).
    intros [= -> Heq]. f_equal. by apply IH.
Qed.

(** X17.  Value sets with different ids are written to different files; a
    value set whose id was never set shares its file name with the id
    [undefined]. *)
Theorem getFileName_injective (a b : ValueSet) (x y : string) :
  vs_id a = Some x → vs_id b = Some y →
  (getFileName a = getFileName b ↔ x = y)
  ∧ (x = "undefined" → getFileName a = getFileName ValueSet_constructor).
Proof.
  intros Ha Hb. unfold getFileName. rewrite Ha, Hb. simpl. split.
  - split; [|by intros ->].
    intros Heq%string_app_inj_l. by apply string_app_inj_r in Heq.
  - by intros ->.
Qed.

Lemma getFileName_injective_witness :
  (getFileName (putId ValueSet_constructor "one") = getFileName (putId ValueSet_constructor "two")
   ↔ "one" = "two")
  ∧ ("one" = "undefined" →
     getFileName (putId ValueSet_constructor "one") = getFileName ValueSet_constructor).
Proof.
  apply (getFileName_injective (putId ValueSet_constructor "one")
           (putId ValueSet_constructor "two") "one" "two"); reflexivity.
Defined.

(** * FSH text of an instance *)

Lemma string_app_empty_r (s : string) : s +:+ "" = s.
Proof.
  induction s as [|c s IH]; [done|].
  change (String c (s +:+ "") = String c s). by rewrite IH.
Qed.

(** X18.  An instance without rules prints as its metadata alone, with no
    line end after them; and an instance as constructed from a name, whose
    [instanceOf] was never set, prints the three lines [Instance: name],
    [InstanceOf: undefined] and [Usage: #example]. *)
Theorem Instance_toFSH_without_rules (fshifyString : string -> string) (EOL : string)
    (ruleToFSH : Rule -> string) :
  (∀ i, rules i = [] →
     Instance_toFSH fshifyString EOL ruleToFSH i
     = Instance_metadataToFSH fshifyString EOL i)
  ∧ (∀ name,
     Instance_toFSH fshifyString EOL ruleToFSH (Instance_constructor name)
     = ("Instance: " +:+ name) +:+ EOL +:+ "InstanceOf: undefined" +:+ EOL
       +:+ "Usage: #example").
Proof.
  assert (∀ i, rules i = [] →
            Instance_toFSH fshifyString EOL ruleToFSH i
            = Instance_metadataToFSH fshifyString EOL i) as Hnone.
  { intros i Hrules. unfold Instance_toFSH. rewrite Hrules. simpl.
    apply string_app_empty_r. }
  split; [done|].
  intros name. by rewrite Hnone.
Qed.

(** ** The scenarios of the test suites, replayed *)

Module Scenarios.
Import Samples.

Local Abbreviation constrain := (constrainType resolve 10).
Local Abbreviation run := (export resolve 10 noSnapshot baseType applyNothing).

(** [should allow a choice to be constrained to a subset] *)
Example choice_to_subset :
  constrain valueX [only "Quantity"; only "integer"] None
  = ({| el_path := "Observation.value[x]";
        el_type := [plain "Quantity"; plain "integer"] |}, None).
Proof. reflexivity. Qed.

(** [should allow a resource type to be constrained to multiple profiles] *)
Example choice_to_profiles :
  el_type (constrain valueX [only "SimpleQuantity"; only "MoneyQuantity"] None).1
  = [withProfiles "Quantity" [fhir "SimpleQuantity"; fhir "MoneyQuantity"]].
Proof. reflexivity. Qed.

(** [should allow Resource to be constrained to multiple resources and profiles] *)
Example resource_to_resources_and_profiles :
  el_type (constrain entryResource
             [only "Practitioner"; only "bp"; only "vitalsigns"; only "Medication"] None).1
  = [plain "Practitioner";
     withProfiles "Observation" [fhir "bp"; fhir "vitalsigns"];
     plain "Medication"].
Proof. reflexivity. Qed.

(** [only the target type is constrained to a profile and others remain as-is] *)
Example target_quantity :
  el_type (constrain valueX [only "SimpleQuantity"] (Some "Quantity")).1
  = [withProfiles "Quantity" [fhir "SimpleQuantity"];
     plain "CodeableConcept"; plain "string"; plain "integer"].
Proof. reflexivity. Qed.

(** [a reference to multiple resource types ... constrained to a reference to a subset] *)
Example reference_to_subset :
  el_type (constrain performer
             [onlyReference "Practitioner"; onlyReference "Organization"] None).1
  = [withTargetProfiles "Reference" [fhir "Practitioner"; fhir "Organization"]].
Proof. reflexivity. Qed.

(** [a canonical to multiple resource types ... only the target reference is constrained] *)
Example target_canonical :
  el_type (constrain actionDefinition
             [onlyCanonical "shareableplandefinition";
              onlyCanonical "computableplandefinition"] (Some "PlanDefinition")).1
  = [withTargetProfiles "canonical"
       [fhir "ActivityDefinition"; fhir "shareableplandefinition";
        fhir "computableplandefinition"; fhir "Questionnaire"];
     plain "uri"].
Proof. reflexivity. Qed.

(** [Reference type with the Reference() keyword when both Reference and
    CodeableReference is allowed] *)
Example reference_preferred_to_codeable_reference :
  el_type (constrain r5Value [onlyReference "Resource"] None).1
  = [withTargetProfiles "Reference" [fhir "Resource"]].
Proof. reflexivity. Qed.

(** The four failures. *)
Example failures :
  (constrain valueX [only "decimal"] None).2 = Some (InvalidType "decimal")
  ∧ (constrain performer [onlyReference "Medication"] None).2
    = Some (InvalidType "Medication")
  ∧ (constrain valueX [only "Quantity"; only "Monocle"] None).2
    = Some (TypeNotFound "Monocle")
  ∧ (constrain valueX [only "SimpleQuantity"] (Some "VitalBillboards")).2
    = Some (TypeNotFound "VitalBillboards")
  ∧ (constrain valueX [only "Duration"] None).2
    = Some (NonAbstractParent "Quantity" "Duration")
  ∧ (constrain entryResource [onlyReference "Practitioner"] (Some "Resource")).2
    = Some (InvalidTarget "Resource").
Proof. split_and!; reflexivity. Qed.

(** [should export logical models with out-of-order FSHy parents] *)
Example out_of_order_parents :
  (fun st => art_name <$> exported st) <$> run chainTank = Some ["Foo"; "Bar"; "Baz"].
Proof. vm_compute. reflexivity. Qed.

(** [should still export logical models if one fails] *)
Example one_fails :
  (fun st => (art_name <$> exported st, diagnostics st)) <$> run orphanTank
  = Some (["Bar"], [EntityFailure (TLogical, "Foo") (ParentNotFound "Missing")]).
Proof. vm_compute. reflexivity. Qed.

(** Two models that name each other as parent both fail; the third is exported. *)
Example cycle_is_cut :
  (fun st => (art_name <$> exported st, diagnostics st)) <$> run cycleTank
  = Some (["C"],
          [EntityFailure (TLogical, "B") (CyclicDependency "A");
           EntityFailure (TLogical, "A") (ParentFailed "B")]).
Proof. vm_compute. reflexivity. Qed.

(** The masquerading instance of the tank is found as a resource, and as
    an instance, but not as a profile. *)
Example fishing_for_the_instance :
  fish getUrlFromFshDefinition_spec instanceTank "my-resource" [TResource]
  = Some (EInstance resourceDefInstance)
  ∧ fish getUrlFromFshDefinition_spec instanceTank "MyResource" []
    = Some (EInstance resourceDefInstance)
  ∧ fish getUrlFromFshDefinition_spec instanceTank "MyResource" [TProfile] = None.
Proof. split_and!; reflexivity. Qed.

End Scenarios.
